(** * Availability engine and places store of the AI call center

    A shallow embedding of [src/app/api/availability/route.ts] (the slot
    generator behind [GET /api/availability]), of the places store route
    ([/api/places-db]), of [lib/callStatus] and of the page size of
    [lib/notionEvents], with the properties the specification states about
    them and further properties read off the code.

    Modelling conventions.
    - A JavaScript [Date] is its time value: an integer number of
      milliseconds since the epoch ([Z]).  Invalid dates never reach the
      slot generator ([toDate] filters them out).
    - The local time zone is a fixed offset from UTC ([tzOffsetMinutes],
      minutes east of Greenwich); daylight-saving transitions are outside
      the model.
    - In the first embedding of the availability route a query value is
      NaN, an infinity or a whole number; [Fractional] embeds the route
      once more with the query values as any numbers, and the two give the
      same answer on whole numbers ([whole_numbers_agree]).  The
      environment defaults and the work hours are integers throughout.
    - [Map<string, BusyInterval[]>] and the [places] object are finite maps
      with string keys ([gmap string]); arrays are lists, [push] appends.
      An object is the map of its own properties: the names it inherits
      from [Object.prototype] ([PlacesDb.inheritedNames]) are where the
      two differ, and the further properties of the store that depend on
      it carry [PlacesDb.plainStore] and [PlacesDb.ownName] as
      hypotheses. *)

From Stdlib Require Import ZArith List Bool Lia QArith Qround Qminmax Lqa.
From stdpp Require Import base option list gmap strings pretty.

Open Scope Z_scope.

(** ** JavaScript numbers, as far as the resolver needs them *)

Inductive JsNumber : Type :=
| JNaN
| JNegInf
| JInt (z : Z)
| JPosInf.

(** [ToBoolean] on a number: NaN and 0 are falsy. *)
Definition truthy (v : JsNumber) : bool :=
  match v with
  | JNaN => false
  | JInt z => negb (z =? 0)
  | JNegInf | JPosInf => true
  end.

(** [a || b] on numbers. *)
Definition jsOr (a b : JsNumber) : JsNumber :=
  if truthy a then a else b.

(** [URLSearchParams.get] followed by [Number(...)]: an absent parameter is
    [null], and [Number(null)] is 0; a present one is whatever number its
    text denotes (NaN when it denotes none). *)
Inductive RawParam : Type :=
| Absent
| Present (n : JsNumber).

Definition toNumber (p : RawParam) : JsNumber :=
  match p with
  | Absent => JInt 0
  | Present n => n
  end.

(** [clampNumber(value, min, max, fallback)]. *)
Definition clampNumber (value : JsNumber) (min max fallback : Z) : Z :=
  match value with
  | JNaN => fallback
  | JNegInf => Z.min min max
  | JInt v => Z.min (Z.max v min) max
  | JPosInf => max
  end.

(** ** Dates *)

Definition msPerMinute : Z := 60 * 1000.
Definition msPerHour : Z := 60 * msPerMinute.
Definition msPerDay : Z := 24 * msPerHour.

(** [addMinutes(date, minutes)]. *)
Definition addMinutes (date minutes : Z) : Z := date + minutes * 60 * 1000.

Section LocalTime.
(** Offset of local time from UTC, in minutes. *)
Variable tzOffsetMinutes : Z.

Definition localTime (t : Z) : Z := t + tzOffsetMinutes * msPerMinute.
Definition utcOfLocal (l : Z) : Z := l - tzOffsetMinutes * msPerMinute.

(** Number of the local calendar day of [t] (day 0 is 1970-01-01). *)
Definition localDay (t : Z) : Z := localTime t / msPerDay.

(** [date.setHours(h, m, s, ms)]: same local day, given time of day;
    hours outside 0..23 run over into the neighbouring days. *)
Definition setHours (date h m s ms : Z) : Z :=
  utcOfLocal (localDay date * msPerDay
              + (h * msPerHour + m * msPerMinute + s * 1000 + ms)).

(** [date.setDate(date.getDate() + n)]. *)
Definition addDays (date n : Z) : Z := date + n * msPerDay.

(** [startOfDay(base, offsetDays)]. *)
Definition startOfDay (base offsetDays : Z) : Z :=
  let copy := base in
  let copy := setHours copy 0 0 0 0 in
  let copy := addDays copy offsetDays in
  copy.

(** Civil date of a day number in the proleptic Gregorian calendar:
    [(getFullYear(), getMonth() + 1, getDate())]. *)
Definition civilFromDays (days : Z) : Z * Z * Z :=
  let z := days + 719468 in
  let era := z / 146097 in
  let doe := z - era * 146097 in
  let yoe := (doe - doe / 1460 + doe / 36524 - doe / 146096) / 365 in
  let y := yoe + era * 400 in
  let doy := doe - (365 * yoe + yoe / 4 - yoe / 100) in
  let mp := (5 * doy + 2) / 153 in
  let d := doy - (153 * mp + 2) / 5 + 1 in
  let m := if mp <? 10 then mp + 3 else mp - 9 in
  (if m <=? 2 then y + 1 else y, m, d).

(** [n.toString().padStart(2, "0")]. *)
Definition pad2 (n : Z) : string :=
  let s := pretty n in
  if (String.length s <? 2)%nat then "0" +:+ s else s.

(** [dayKey(date)]. *)
Definition dayKey (date : Z) : string :=
  let '(y, m, d) := civilFromDays (localDay date) in
  pretty y +:+ "-" +:+ pad2 m +:+ "-" +:+ pad2 d.
End LocalTime.

(** ** Busy intervals and their two sources *)

Inductive Source : Type := meeting | notion.

Record BusyInterval : Type := mkBusy {
  bi_start : Z;
  bi_end : Z;
  bi_title : option string;
  bi_source : Source
}.

(** A date field of a stored record, by what [new Date(iso)] makes of it:
    missing (null, undefined or the empty string), text that is no date, or
    an instant. *)
Inductive IsoField : Type :=
| IsoMissing
| IsoInvalid
| IsoInstant (t : Z).

(** [toDate(iso)]. *)
Definition toDate (iso : IsoField) : option Z :=
  match iso with
  | IsoMissing => None
  | IsoInvalid => None
  | IsoInstant t => Some t
  end.

(** What the engine reads of a record of the meeting store. *)
Record Meeting : Type := mkMeeting {
  scheduledAt : IsoField;
  endAt : IsoField;
  m_title : option string
}.

(** What the engine reads of a [NotionEvent]. *)
Record NotionEvent : Type := mkEvent {
  ev_start : IsoField;
  ev_end : IsoField;
  ev_title : string
}.

Definition meetingInterval (m : Meeting) : option BusyInterval :=
  match toDate (scheduledAt m) with
  | None => None
  | Some start =>
      let end_ := default (addMinutes start 60) (toDate (endAt m)) in
      Some (mkBusy start end_ (m_title m) meeting)
  end.

Definition notionInterval (e : NotionEvent) : option BusyInterval :=
  match toDate (ev_start e) with
  | None => None
  | Some start =>
      let end_ := default (addMinutes start 60) (toDate (ev_end e)) in
      Some (mkBusy start end_ (Some (ev_title e)) notion)
  end.

(** ** Effects

    The route awaits two collaborators and writes to the console.  A
    program is a tree of these requests; [run] answers them from a
    [World] and collects the console output. *)

Inductive Outcome (A : Type) : Type :=
| Resolved (a : A)
| Rejected (message : string).
Arguments Resolved {A} a.
Arguments Rejected {A} message.

Inductive Prog (A : Type) : Type :=
| Ret (a : A)
| ListMeetings (k : Outcome (list Meeting) -> Prog A)
| FetchNotionEvents (pageSize : Z) (k : Outcome (list NotionEvent) -> Prog A)
| ConsoleError (label message : string) (k : Prog A).
Arguments Ret {A} a.
Arguments ListMeetings {A} k.
Arguments FetchNotionEvents {A} pageSize k.
Arguments ConsoleError {A} label message k.

Fixpoint bind {A B : Type} (p : Prog A) (f : A -> Prog B) : Prog B :=
  match p with
  | Ret a => f a
  | ListMeetings k => ListMeetings (fun o => bind (k o) f)
  | FetchNotionEvents n k => FetchNotionEvents n (fun o => bind (k o) f)
  | ConsoleError l m k => ConsoleError l m (bind k f)
  end.

#[global] Instance Prog_ret : MRet Prog := @Ret.
#[global] Instance Prog_bind : MBind Prog := fun A B f p => bind p f.

Record World : Type := mkWorld {
  listMeetings : Outcome (list Meeting);
  fetchNotionEvents : Z -> Outcome (list NotionEvent)
}.

(** Requests made of the collaborators and lines written to the console,
    in the order the program issues them. *)
Inductive Event : Type :=
| EvListMeetings
| EvFetchNotionEvents (pageSize : Z)
| EvConsoleError (label message : string).

Fixpoint run {A : Type} (w : World) (p : Prog A) : A * list Event :=
  match p with
  | Ret a => (a, [])
  | ListMeetings k =>
      let '(a, t) := run w (k (listMeetings w)) in (a, EvListMeetings :: t)
  | FetchNotionEvents n k =>
      let '(a, t) := run w (k (fetchNotionEvents w n)) in
      (a, EvFetchNotionEvents n :: t)
  | ConsoleError l m k =>
      let '(a, t) := run w k in (a, EvConsoleError l m :: t)
  end.

(** [buildBusyIntervals()]: both fetches are issued, the calendar one
    inside its own try/catch; [Promise.all] rejects when the meeting
    branch does. *)
Definition buildBusyIntervals : Prog (Outcome (list BusyInterval)) :=
  ListMeetings (fun meetings =>
  FetchNotionEvents 100 (fun result =>
    notionPart ←
      match result with
      | Resolved events => Ret (omap notionInterval events)
      | Rejected err =>
          ConsoleError "Failed to load Notion events for availability:" err
            (Ret [])
      end;
    match meetings with
    | Resolved ms => Ret (Resolved (omap meetingInterval ms ++ notionPart))
    | Rejected err => Ret (Rejected err)
    end)).

(** ** The overlap test *)

(** [overlaps(slotStart, slotEnd, intervals)]. *)
Definition overlaps (slotStart slotEnd : Z) (intervals : list BusyInterval) : bool :=
  existsb (fun interval =>
             (slotStart <? bi_end interval) && (slotEnd >? bi_start interval))
          intervals.

(** ** The interval index *)

(** The [forEach] that fills [intervalsByDay]. *)
Definition addToBucket (tz : Z) (byDay : gmap string (list BusyInterval))
    (interval : BusyInterval) : gmap string (list BusyInterval) :=
  let key := dayKey tz (bi_start interval) in
  match byDay !! key with
  | Some bucket => <[key := bucket ++ [interval]]> byDay
  | None => <[key := [interval]]> byDay
  end.

Definition indexByDay (tz : Z) (intervals : list BusyInterval)
    : gmap string (list BusyInterval) :=
  fold_left (addToBucket tz) intervals ∅.

(** ** Configuration *)

(** The process environment: the time zone and the [AVAILABILITY_*]
    variables ([None] when a variable is not set). *)
Record ProcessEnv : Type := mkEnv {
  tzOffset : Z;
  AVAILABILITY_START_HOUR : option Z;
  AVAILABILITY_END_HOUR : option Z;
  AVAILABILITY_SLOT_MINUTES : option Z;
  AVAILABILITY_DURATION_MINUTES : option Z;
  AVAILABILITY_HORIZON_DAYS : option Z;
  AVAILABILITY_MAX_SLOTS : option Z;
  AVAILABILITY_LEAD_TIME_MINUTES : option Z
}.

Definition DEFAULT_WORK_START_HOUR (env : ProcessEnv) : Z :=
  default 8 (AVAILABILITY_START_HOUR env).
Definition DEFAULT_WORK_END_HOUR (env : ProcessEnv) : Z :=
  default 21 (AVAILABILITY_END_HOUR env).
Definition DEFAULT_SLOT_MINUTES (env : ProcessEnv) : Z :=
  default 30 (AVAILABILITY_SLOT_MINUTES env).
Definition DEFAULT_DURATION_MINUTES (env : ProcessEnv) : Z :=
  default 30 (AVAILABILITY_DURATION_MINUTES env).
Definition DEFAULT_HORIZON_DAYS (env : ProcessEnv) : Z :=
  default 7 (AVAILABILITY_HORIZON_DAYS env).
Definition DEFAULT_LIMIT (env : ProcessEnv) : Z :=
  default 20 (AVAILABILITY_MAX_SLOTS env).
Definition DEFAULT_MIN_LEAD_MINUTES (env : ProcessEnv) : Z :=
  default 60 (AVAILABILITY_LEAD_TIME_MINUTES env).

(** The query string of a request, one entry per parameter the route
    reads. *)
Record Query : Type := mkQuery {
  q_durationMinutes : RawParam;
  q_slotMinutes : RawParam;
  q_days : RawParam;
  q_limit : RawParam;
  q_leadTimeMinutes : RawParam
}.

(** [clampNumber(Number(searchParams.get(name)) || DEFAULT, min, max, DEFAULT)]. *)
Definition resolveParam (raw : RawParam) (DEFAULT min max : Z) : Z :=
  clampNumber (jsOr (toNumber raw) (JInt DEFAULT)) min max DEFAULT.

Record Config : Type := mkConfig {
  durationMinutes : Z;
  slotMinutes : Z;
  horizonDays : Z;
  slotLimit : Z;
  minLeadMinutes : Z;
  workStartHour : Z;
  workEndHour : Z
}.

(** The resolved parameters of a request (the head of [GET]). *)
Definition resolveConfig (env : ProcessEnv) (q : Query) : Config :=
  {| durationMinutes :=
       resolveParam (q_durationMinutes q) (DEFAULT_DURATION_MINUTES env) 15 240;
     slotMinutes :=
       resolveParam (q_slotMinutes q) (DEFAULT_SLOT_MINUTES env) 5 120;
     horizonDays :=
       resolveParam (q_days q) (DEFAULT_HORIZON_DAYS env) 1 30;
     slotLimit :=
       resolveParam (q_limit q) (DEFAULT_LIMIT env) 1 200;
     minLeadMinutes :=
       resolveParam (q_leadTimeMinutes q) (DEFAULT_MIN_LEAD_MINUTES env) 0 (24 * 60);
     workStartHour := DEFAULT_WORK_START_HOUR env;
     workEndHour := DEFAULT_WORK_END_HOUR env |}.

(** ** The slot generator *)

(** A slot; [start] and [end] are kept as instants, the route renders them
    with [toISOString]. *)
Record Slot : Type := mkSlot {
  slot_start : Z;
  slot_end : Z;
  slot_durationMinutes : Z
}.

Section SlotLoops.
Variables (tz now : Z) (cfg : Config).
Variable intervalsByDay : gmap string (list BusyInterval).

Definition earliestAllowedStart : Z := addMinutes now (minLeadMinutes cfg).

Definition slotCount (slots : list Slot) : Z := Z.of_nat (length slots).

(** The inner [for]: one turn per unit of fuel, [None] when the fuel is
    used up before the loop leaves. *)
Fixpoint scanDay (fuel : nat) (workEnd : Z) (bucket : list BusyInterval)
    (cursor : Z) (slots : list Slot) : option (list Slot) :=
  match fuel with
  | O => None
  | S fuel' =>
      if (cursor <? workEnd) && (slotCount slots <? slotLimit cfg) then
        let slotStart := cursor in
        let slotEnd := addMinutes slotStart (durationMinutes cfg) in
        let next := addMinutes cursor (slotMinutes cfg) in
        if slotEnd >? workEnd then Some slots
        else if slotStart <? earliestAllowedStart then
          scanDay fuel' workEnd bucket next slots
        else if overlaps slotStart slotEnd bucket then
          scanDay fuel' workEnd bucket next slots
        else
          scanDay fuel' workEnd bucket next
            (slots ++ [mkSlot slotStart slotEnd (durationMinutes cfg)])
      else Some slots
  end.

(** Turns that the inner loop can take between [workStart] and
    [workEnd], and one more for the test that leaves it. *)
Definition scanFuel (workStart workEnd : Z) : nat :=
  Z.to_nat ((workEnd - workStart) / (slotMinutes cfg * 60 * 1000)) + 2.

Definition dayStartOf (dayOffset : Z) : Z := startOfDay tz now dayOffset.
Definition dayEndOf (dayOffset : Z) : Z :=
  setHours tz (dayStartOf dayOffset) 23 59 59 999.
Definition workStartOf (dayOffset : Z) : Z :=
  setHours tz (dayStartOf dayOffset) (workStartHour cfg) 0 0 0.
Definition workEndOf (dayOffset : Z) : Z :=
  setHours tz (dayStartOf dayOffset) (workEndHour cfg) 0 0 0.
Definition bucketOf (dayOffset : Z) : list BusyInterval :=
  default [] (intervalsByDay !! dayKey tz (dayStartOf dayOffset)).

(** The outer [for] over the days of the horizon. *)
Fixpoint dayLoop (fuel : nat) (dayOffset : Z) (slots : list Slot)
    : option (list Slot) :=
  match fuel with
  | O => None
  | S fuel' =>
      if (dayOffset <? horizonDays cfg) && (slotCount slots <? slotLimit cfg) then
        let dayEnd := dayEndOf dayOffset in
        let workStart := workStartOf dayOffset in
        let workEnd := workEndOf dayOffset in
        if (workEnd <=? earliestAllowedStart) && (dayEnd <=? earliestAllowedStart)
        then dayLoop fuel' (dayOffset + 1) slots
        else
          let bucket := bucketOf dayOffset in
          match scanDay (scanFuel workStart workEnd) workEnd bucket workStart slots with
          | Some slots' => dayLoop fuel' (dayOffset + 1) slots'
          | None => None
          end
      else Some slots
  end.

(** The same walk with the day-skip test left out: every day of the
    horizon is scanned, as the specification describes the behaviour the
    skip is to be equivalent to. *)
Fixpoint dayLoop_scanning (fuel : nat) (dayOffset : Z) (slots : list Slot)
    : option (list Slot) :=
  match fuel with
  | O => None
  | S fuel' =>
      if (dayOffset <? horizonDays cfg) && (slotCount slots <? slotLimit cfg) then
        let workStart := workStartOf dayOffset in
        let workEnd := workEndOf dayOffset in
        let bucket := bucketOf dayOffset in
        match scanDay (scanFuel workStart workEnd) workEnd bucket workStart slots with
        | Some slots' => dayLoop_scanning fuel' (dayOffset + 1) slots'
        | None => None
        end
      else Some slots
  end.

Definition dayFuel : nat := Z.to_nat (horizonDays cfg) + 1.
End SlotLoops.

(** Index the intervals and walk the horizon (the part of [GET] between
    [buildBusyIntervals] and the response). *)
Definition generateSlots (tz now : Z) (cfg : Config)
    (intervals : list BusyInterval) : option (list Slot) :=
  let intervalsByDay := indexByDay tz intervals in
  dayLoop tz now cfg intervalsByDay (dayFuel cfg) 0 [].

Definition generateSlots_scanning (tz now : Z) (cfg : Config)
    (intervals : list BusyInterval) : option (list Slot) :=
  let intervalsByDay := indexByDay tz intervals in
  dayLoop_scanning tz now cfg intervalsByDay (dayFuel cfg) 0 [].

(** ** The route *)

Record Availability : Type := mkAvailability {
  generatedAt : Z;
  r_horizonDays : Z;
  r_slotMinutes : Z;
  r_durationMinutes : Z;
  slots : list Slot
}.

(** [NextResponse.json(body, { status })]: a body with the single field
    [error], or the availability payload with status 200. *)
Inductive Response : Type :=
| JsonError (status : Z) (error : string)
| JsonOk (body : Availability).

(** [GET(req)], for a request with query [q] handled at instant [now].
    The result is [None] only if a loop ran out of fuel. *)
Definition GET (env : ProcessEnv) (q : Query) (now : Z) : Prog (option Response) :=
  let cfg := resolveConfig env q in
  if workEndHour cfg <=? workStartHour cfg then
    Ret (Some (JsonError 500 "Invalid availability hours configuration"))
  else
    built ← buildBusyIntervals;
    match built with
    | Rejected message =>
        ConsoleError "Availability error:" message
          (Ret (Some (JsonError 500 message)))
    | Resolved intervals =>
        match generateSlots (tzOffset env) now cfg intervals with
        | Some slots =>
            Ret (Some (JsonOk {| generatedAt := now;
                                 r_horizonDays := horizonDays cfg;
                                 r_slotMinutes := slotMinutes cfg;
                                 r_durationMinutes := durationMinutes cfg;
                                 slots := slots |}))
        | None => Ret None
        end
    end.

(** [GET] with the day-skip test left out. *)
Definition GET_scanning (env : ProcessEnv) (q : Query) (now : Z)
    : Prog (option Response) :=
  let cfg := resolveConfig env q in
  if workEndHour cfg <=? workStartHour cfg then
    Ret (Some (JsonError 500 "Invalid availability hours configuration"))
  else
    built ← buildBusyIntervals;
    match built with
    | Rejected message =>
        ConsoleError "Availability error:" message
          (Ret (Some (JsonError 500 message)))
    | Resolved intervals =>
        match generateSlots_scanning (tzOffset env) now cfg intervals with
        | Some slots =>
            Ret (Some (JsonOk {| generatedAt := now;
                                 r_horizonDays := horizonDays cfg;
                                 r_slotMinutes := slotMinutes cfg;
                                 r_durationMinutes := durationMinutes cfg;
                                 slots := slots |}))
        | None => Ret None
        end
    end.

(** ** The places store ([/api/places-db] and [lib/callStatus]) *)

Module PlacesDb.

(** Values as [JSON.parse] and [req.json()] deliver them, with
    [undefined] for what a property access can add.  The properties of an
    object are listed with pairwise distinct keys. *)
#[warnings="-register-all"]
Inductive JsValue : Type :=
| VUndefined
| VNull
| VBool (b : bool)
| VNum (n : Z)
| VStr (s : string)
| VArr (items : list JsValue)
| VObj (props : list (string * JsValue)).

Definition truthy (v : JsValue) : bool :=
  match v with
  | VUndefined | VNull => false
  | VBool b => b
  | VNum n => negb (n =? 0)
  | VStr s => negb (String.eqb s "")
  | VArr _ | VObj _ => true
  end.

Definition nullish (v : JsValue) : bool :=
  match v with
  | VUndefined | VNull => true
  | _ => false
  end.

Fixpoint lookupProp (name : string) (props : list (string * JsValue)) : JsValue :=
  match props with
  | [] => VUndefined
  | (k, v) :: rest => if String.eqb k name then v else lookupProp name rest
  end.

(** [v.name] for a [v] that is neither null nor undefined, and a [name]
    that is no index and not [length] (the route reads no such name). *)
Definition getProp (v : JsValue) (name : string) : JsValue :=
  match v with
  | VObj props => lookupProp name props
  | _ => VUndefined
  end.

(** [v?.name]. *)
Definition optProp (v : JsValue) (name : string) : JsValue :=
  if nullish v then VUndefined else getProp v name.

(** [a ?? b]. *)
Definition orElse (a b : JsValue) : JsValue := if nullish a then b else a.

(** [a === b] when one side at least is a primitive. *)
Definition strictEq (a b : JsValue) : bool :=
  match a, b with
  | VUndefined, VUndefined => true
  | VNull, VNull => true
  | VBool x, VBool y => Bool.eqb x y
  | VNum x, VNum y => x =? y
  | VStr x, VStr y => String.eqb x y
  | _, _ => false
  end.

Fixpoint charsOf (s : string) : list JsValue :=
  match s with
  | EmptyString => []
  | String c rest => VStr (String c EmptyString) :: charsOf rest
  end.

(** [Object.entries(v)] for a [v] that is neither null nor undefined. *)
Definition objectEntries (v : JsValue) : list (string * JsValue) :=
  match v with
  | VObj props => props
  | VArr items => imap (fun i x => (pretty i, x)) items
  | VStr s => imap (fun i x => (pretty i, x)) (charsOf s)
  | _ => []
  end.

(** *** [lib/callStatus] *)

Definition CALL_STATUSES : list string :=
  ["Not called"; "Didn't answer"; "Manager was not available";
   "Not interested"; "Interested"; "Meeting planned"]%string.

Definition DEFAULT_CALL_STATUS : string := "Not called".

(** [isCallStatus(value)]. *)
Definition isCallStatus (value : JsValue) : bool :=
  match value with
  | VStr s => existsb (String.eqb s) CALL_STATUSES
  | _ => false
  end.

(** *** The route *)

Record DbPlace : Type := mkPlace {
  key : string;
  name : JsValue;
  phoneNumber : JsValue;
  websiteUri : JsValue;
  websiteCategory : JsValue;
  callStatus : JsValue
}.

(** [sanitizeCallStatus(value)]. *)
Definition sanitizeCallStatus (value : JsValue) : JsValue :=
  if isCallStatus value then value else VStr DEFAULT_CALL_STATUS.

(** [data/places-db.json]: absent, text that [JSON.parse] rejects, or
    text that parses to a value. *)
Inductive FileState : Type :=
| NoFile
| Unparseable
| Holds (v : JsValue).

(** A handler step: it reads and writes the file and may throw. *)
Definition Fs (A : Type) : Type := FileState -> Outcome A * FileState.

Definition fsRet {A : Type} (a : A) : Fs A := fun fs => (Resolved a, fs).
Definition fsThrow {A : Type} (message : string) : Fs A :=
  fun fs => (Rejected message, fs).
Definition fsBind {A B : Type} (p : Fs A) (f : A -> Fs B) : Fs B :=
  fun fs =>
    match p fs with
    | (Resolved a, fs') => f a fs'
    | (Rejected e, fs') => (Rejected e, fs')
    end.
(** [try { p } catch (err) { handler(err) }]. *)
Definition tryCatch {A : Type} (p : Fs A) (handler : string -> Fs A) : Fs A :=
  fun fs =>
    match p fs with
    | (Resolved a, fs') => (Resolved a, fs')
    | (Rejected e, fs') => handler e fs'
    end.
Definition liftOutcome {A : Type} (o : Outcome A) : Fs A := fun fs => (o, fs).

#[global] Instance Fs_ret : MRet Fs := @fsRet.
#[global] Instance Fs_bind : MBind Fs := fun A B f p => fsBind p f.

(** [JSON.parse(await fs.readFile(dbPath, "utf8"))]. *)
Definition readJson : Fs JsValue :=
  fun fs =>
    match fs with
    | NoFile => (Rejected "ENOENT: no such file or directory", fs)
    | Unparseable => (Rejected "SyntaxError: Unexpected token in JSON", fs)
    | Holds v => (Resolved v, fs)
    end.

(** [fs.writeFile(dbPath, JSON.stringify(v, null, 2), "utf8")]; the write
    itself does not fail. *)
Definition writeJson (v : JsValue) : Fs unit :=
  fun _ => (Resolved tt, Holds v).

(** [v.name], a [TypeError] when [v] is null or undefined. *)
Definition member (v : JsValue) (name : string) : Outcome JsValue :=
  if nullish v
  then Rejected "TypeError: Cannot read properties of null or undefined"
  else Resolved (getProp v name).

Definition placeToJson (p : DbPlace) : JsValue :=
  VObj [("key", VStr (key p)); ("name", name p);
        ("phoneNumber", phoneNumber p); ("websiteUri", websiteUri p);
        ("websiteCategory", websiteCategory p);
        ("callStatus", callStatus p)]%string.

(** The value [JSON.stringify(db)] denotes, for [db = { places }]. *)
Definition dbToJson (places : gmap string DbPlace) : JsValue :=
  VObj [("places"%string,
         VObj (map (fun kp => (fst kp, placeToJson (snd kp))) (map_to_list places)))].

(** [saveDb(db)]. *)
Definition saveDb (places : gmap string DbPlace) : Fs unit :=
  writeJson (dbToJson places).

(** One turn of the loop of [ensureDb]. *)
Definition normalizeEntry (acc : gmap string DbPlace * bool)
    (entry : string * JsValue) : gmap string DbPlace * bool :=
  let '(normalized, mutated) := acc in
  let '(key, value) := entry in
  let existingStatus := optProp value "callStatus" in
  let callStatus := sanitizeCallStatus existingStatus in
  let mutated := if negb (strictEq existingStatus callStatus) then true else mutated in
  (<[key := {| key := key;
               name := orElse (optProp value "name") (VStr "");
               phoneNumber := orElse (optProp value "phoneNumber") VNull;
               websiteUri := orElse (optProp value "websiteUri") VNull;
               websiteCategory := orElse (optProp value "websiteCategory") (VStr "none");
               callStatus := callStatus |}]> normalized,
   mutated).

(** [ensureDb()]. *)
Definition ensureDb : Fs (gmap string DbPlace) :=
  tryCatch
    (parsed ← readJson;
     places ← liftOutcome (member parsed "places");
     let '(normalized, mutated) :=
       fold_left normalizeEntry (objectEntries (orElse places (VObj []))) (∅, false) in
     if (mutated : bool) then (_ ← saveDb normalized; mret normalized)
     else mret normalized)
    (fun _ =>
       let initial : gmap string DbPlace := ∅ in
       _ ← writeJson (dbToJson initial); mret initial).

Inductive Response : Type :=
| Error (status : Z) (error : string)
| Listing (keys : list string) (places : list DbPlace)
| PostOk (key : string) (place : DbPlace)
| PatchOk (place : DbPlace)
| DeleteOk (key : string).

Definition invalidCallStatus : string :=
  "Invalid callStatus. Accepted values: " +:+ String.concat ", " CALL_STATUSES.

(** The body of a request: [None] when [req.json()] rejects. *)
Definition reqJson (body : option JsValue) : Outcome JsValue :=
  match body with
  | Some v => Resolved v
  | None => Rejected "SyntaxError: Unexpected end of JSON input"
  end.

Section Route.
(** [String.prototype.trim] and [String.prototype.toLowerCase]. *)
Variables trim toLowerCase : string -> string.

(** [(v || "").trim().toLowerCase()], a [TypeError] when the value has
    no [trim]. *)
Definition normText (v : JsValue) : Outcome string :=
  match (if truthy v then v else VStr "") with
  | VStr s => Resolved (toLowerCase (trim s))
  | _ => Rejected "TypeError: trim is not a function"
  end.

(** [computePlaceKey(place)]. *)
Definition computePlaceKey (name websiteUri : JsValue) : Outcome string :=
  match normText name with
  | Rejected e => Rejected e
  | Resolved normName =>
      match normText websiteUri with
      | Rejected e => Rejected e
      | Resolved normUrl => Resolved (normName +:+ "|" +:+ normUrl)
      end
  end.

(** [body.key?.trim()]. *)
Definition trimmedKey (body : JsValue) : Outcome JsValue :=
  match member body "key" with
  | Rejected e => Rejected e
  | Resolved k =>
      if nullish k then Resolved VUndefined
      else match k with
           | VStr s => Resolved (VStr (trim s))
           | _ => Rejected "TypeError: trim is not a function"
           end
  end.

(** The [catch] of the three handlers with a request body. *)
Definition caught (p : Fs Response) : Fs Response :=
  tryCatch p (fun message => mret (Error 500 message)).

Definition GET : Fs Response :=
  db ← ensureDb;
  mret (Listing (map fst (map_to_list db)) (map snd (map_to_list db))).

Definition POST (body : option JsValue) : Fs Response :=
  caught
    (body ← liftOutcome (reqJson body);
     place ← liftOutcome (member body "place");
     if negb (truthy place) || negb (truthy (getProp place "name")) then
       mret (Error 400 "Missing place.name")
     else if truthy (getProp place "callStatus")
             && negb (isCallStatus (getProp place "callStatus")) then
       mret (Error 400 invalidCallStatus)
     else
       key ← liftOutcome
               (computePlaceKey (getProp place "name")
                  (orElse (getProp place "websiteUri") VNull));
       db ← ensureDb;
       match db !! key with
       | None =>
           let place' :=
             {| key := key;
                name := getProp place "name";
                phoneNumber := orElse (getProp place "phoneNumber") VNull;
                websiteUri := orElse (getProp place "websiteUri") VNull;
                websiteCategory :=
                  orElse (getProp place "websiteCategory") (VStr "none");
                callStatus := sanitizeCallStatus (getProp place "callStatus") |} in
           let db' := <[key := place']> db in
           _ ← saveDb db';
           mret (PostOk key place')
       | Some stored => mret (PostOk key stored)
       end).

Definition PATCH (body : option JsValue) : Fs Response :=
  caught
    (body ← liftOutcome (reqJson body);
     key ← liftOutcome (trimmedKey body);
     match key with
     | VStr key =>
         if String.eqb key "" then mret (Error 400 "Missing key")
         else if negb (isCallStatus (getProp body "callStatus")) then
           mret (Error 400 invalidCallStatus)
         else
           db ← ensureDb;
           match db !! key with
           | None => mret (Error 404 "Place not found")
           | Some existing =>
               let existing :=
                 {| key := PlacesDb.key existing;
                    name := name existing;
                    phoneNumber := phoneNumber existing;
                    websiteUri := websiteUri existing;
                    websiteCategory := websiteCategory existing;
                    callStatus := getProp body "callStatus" |} in
               _ ← saveDb (<[key := existing]> db);
               mret (PatchOk existing)
           end
     | _ => mret (Error 400 "Missing key")
     end).

Definition DELETE (body : option JsValue) : Fs Response :=
  caught
    (body ← liftOutcome (reqJson body);
     key ← liftOutcome (trimmedKey body);
     match key with
     | VStr key =>
         if String.eqb key "" then mret (Error 400 "Missing key")
         else
           db ← ensureDb;
           match db !! key with
           | Some _ => _ ← saveDb (delete key db); mret (DeleteOk key)
           | None => mret (DeleteOk key)
           end
     | _ => mret (Error 400 "Missing key")
     end).

(** A request to the route. *)
Inductive Request : Type :=
| ReqGET
| ReqPOST (body : option JsValue)
| ReqPATCH (body : option JsValue)
| ReqDELETE (body : option JsValue).

(** The handler's answer; [GET] has no [catch] of its own, and an
    exception leaving it is the framework's 500. *)
Definition handle (r : Request) (fs : FileState) : Response * FileState :=
  let '(o, fs') :=
    match r with
    | ReqGET => GET fs
    | ReqPOST body => POST body fs
    | ReqPATCH body => PATCH body fs
    | ReqDELETE body => DELETE body fs
    end in
  match o with
  | Resolved resp => (resp, fs')
  | Rejected message => (Error 500 message, fs')
  end.
End Route.

(** *** What the call-status invariant speaks of *)

(** A value of the six-valued enumeration. *)
Definition validStatus (v : JsValue) : Prop :=
  exists s, v = VStr s /\ In s CALL_STATUSES.

(** The records the file holds: the entries [ensureDb] walks over. *)
Definition storedRecords (fs : FileState) : list (string * JsValue) :=
  match fs with
  | Holds parsed =>
      if nullish parsed then []
      else objectEntries (orElse (getProp parsed "places") (VObj []))
  | NoFile | Unparseable => []
  end.

Definition storedOk (fs : FileState) : Prop :=
  forall k rec, In (k, rec) (storedRecords fs) ->
    validStatus (optProp rec "callStatus").

(** Every record of a loaded store has a status of the enumeration. *)
Definition dbOk (db : gmap string DbPlace) : Prop :=
  map_Forall (fun _ p => validStatus (callStatus p)) db.

(** The place records a response carries. *)
Definition returnedPlaces (r : Response) : list DbPlace :=
  match r with
  | Listing _ places => places
  | PostOk _ place => [place]
  | PatchOk place => [place]
  | Error _ _ | DeleteOk _ => []
  end.

Definition returnedOk (r : Response) : Prop :=
  forall p, In p (returnedPlaces r) -> validStatus (callStatus p).

(** A request turned away before the store is loaded. *)
Definition turnedAway (r : Response) : Prop :=
  exists message, r = Error 400 message \/ r = Error 500 message.

(** A record as the route stores it under key [k]: its [key] field is [k],
    no field is undefined, name and category are not null, and the status
    is of the enumeration. *)
Definition normalForm (k : string) (p : DbPlace) : Prop :=
  key p = k
  /\ nullish (name p) = false
  /\ phoneNumber p <> VUndefined
  /\ websiteUri p <> VUndefined
  /\ nullish (websiteCategory p) = false
  /\ validStatus (callStatus p).

(** [p] with its status replaced (the assignment in [PATCH]). *)
Definition withStatus (p : DbPlace) (status : JsValue) : DbPlace :=
  {| key := key p;
     name := name p;
     phoneNumber := phoneNumber p;
     websiteUri := websiteUri p;
     websiteCategory := websiteCategory p;
     callStatus := status |}.

(** The names every object inherits from [Object.prototype].  [obj[key]]
    finds a value under them although [obj] holds no such property, and
    an assignment to ["__proto__"] replaces the prototype instead of
    storing a property; under every other key the store is the map of its
    own properties. *)
Definition inheritedNames : list string :=
  ["__proto__"; "constructor"; "hasOwnProperty"; "isPrototypeOf";
   "propertyIsEnumerable"; "toLocaleString"; "toString"; "valueOf";
   "__defineGetter__"; "__defineSetter__"; "__lookupGetter__";
   "__lookupSetter__"]%string.

Definition ownName (k : string) : Prop := ~ In k inheritedNames.

(** No record of the file is stored under ["__proto__"]. *)
Definition plainStore (fs : FileState) : Prop :=
  ~ In "__proto__"%string (map fst (storedRecords fs)).

(** The store [ensureDb] makes of a file. *)
Definition loaded (fs : FileState) : gmap string DbPlace :=
  match fst (ensureDb fs) with
  | Resolved db => db
  | Rejected _ => ∅
  end.

End PlacesDb.

(** ** What the properties of the slot generator speak of *)

(** [v] brought into the range from [lo] to [hi]. *)
Definition clampInto (lo hi v : Z) : Z :=
  if v <? lo then lo else if hi <? v then hi else v.

(** One parameter resolved the way the specification states it: a valid
    number is clamped into the range, an absent or invalid one gives the
    default. *)
Definition resolvedAsStated (raw : RawParam) (DEFAULT lo hi r : Z) : Prop :=
  (forall v, raw = Present (JInt v) -> r = clampInto lo hi v)
  /\ (raw = Absent \/ raw = Present JNaN -> r = DEFAULT).

(** One parameter resolved the way the route does it, the raw value 0 left
    open: the default is clamped like a raw value. *)
Definition resolvedAsBuilt (raw : RawParam) (DEFAULT lo hi r : Z) : Prop :=
  (forall v, raw = Present (JInt v) -> v <> 0 -> r = clampInto lo hi v)
  /\ (raw = Present JPosInf -> r = hi)
  /\ (raw = Present JNegInf -> r = lo)
  /\ (raw = Absent \/ raw = Present JNaN -> r = clampInto lo hi DEFAULT).

(** The environment with no [AVAILABILITY_*] variable set. *)
Definition plainEnv (tz : Z) : ProcessEnv :=
  mkEnv tz None None None None None None None.

(** Strictly ascending start times, pair by pair. *)
Definition ascending (l : list Slot) : Prop :=
  forall (i j : nat) a b, (i < j)%nat ->
    l !! i = Some a -> l !! j = Some b -> slot_start a < slot_start b.

(** The slot the walk builds at cursor position [c]. *)
Definition slotAt (cfg : Config) (c : Z) : Slot :=
  mkSlot c (addMinutes c (durationMinutes cfg)) (durationMinutes cfg).

(** The [k]-th cursor position of day [d]. *)
Definition cursorAt (tz now : Z) (cfg : Config) (d k : Z) : Z :=
  workStartOf tz now cfg d + k * (slotMinutes cfg * 60 * 1000).

(** The candidate at position [k] of day [d] passes every test of the
    walk. *)
Definition acceptable (tz now : Z) (cfg : Config)
    (byDay : gmap string (list BusyInterval)) (d k : Z) : Prop :=
  let c := cursorAt tz now cfg d k in
  c < workEndOf tz now cfg d
  /\ addMinutes c (durationMinutes cfg) <= workEndOf tz now cfg d
  /\ earliestAllowedStart now cfg <= c
  /\ overlaps c (addMinutes c (durationMinutes cfg)) (bucketOf tz now byDay d) = false.

(** Half-open intersection of a slot with a busy interval. *)
Definition intersects (s : Slot) (i : BusyInterval) : Prop :=
  slot_start s < bi_end i /\ bi_start i < slot_end s.

(** The busy intervals a request sees in world [w]. *)
Definition busyIntervalsOf (w : World) : Outcome (list BusyInterval) :=
  fst (run w buildBusyIntervals).

(** The payload of a successful response. *)
Definition payload (now : Z) (cfg : Config) (slots : list Slot) : Availability :=
  {| generatedAt := now;
     r_horizonDays := horizonDays cfg;
     r_slotMinutes := slotMinutes cfg;
     r_durationMinutes := durationMinutes cfg;
     slots := slots |}.

(** What is left of the day at [cursor], in turns of the inner loop. *)
Definition turnsLeft (cfg : Config) (workEnd cursor : Z) : nat :=
  Z.to_nat ((workEnd - cursor + slotMinutes cfg * 60 * 1000 - 1)
            / (slotMinutes cfg * 60 * 1000)).

(** The ranges the resolver keeps the parameters in. *)
Record ConfigInRange (cfg : Config) : Prop := {
  duration_range : 15 <= durationMinutes cfg <= 240;
  step_range : 5 <= slotMinutes cfg <= 120;
  horizon_range : 1 <= horizonDays cfg <= 30;
  limit_range : 1 <= slotLimit cfg <= 200;
  lead_range : 0 <= minLeadMinutes cfg <= 1440
}.

(** ** What the further properties speak of *)

(** Day number of a civil date: the inverse of [civilFromDays]. *)
Definition daysFromCivil (c : Z * Z * Z) : Z :=
  let '(y0, m, d) := c in
  let y := if m <=? 2 then y0 - 1 else y0 in
  let era := y / 400 in
  let yoe := y - era * 400 in
  let doy := (153 * (if m >? 2 then m - 3 else m + 9) + 2) / 5 + d - 1 in
  let doe := yoe * 365 + yoe / 4 - yoe / 100 + doy in
  era * 146097 + doe - 719468.

(** The number a two-digit field of a day key stands for. *)
Definition unpad2 (s : string) : Z :=
  match s with
  | String a (String b EmptyString) =>
      (Z.of_nat (Ascii.nat_of_ascii a) - 48) * 10
      + (Z.of_nat (Ascii.nat_of_ascii b) - 48)
  | _ => -1
  end.

(** Two configurations that differ in the limit and the horizon at most. *)
Definition sameWalk (cfg cfg' : Config) : Prop :=
  durationMinutes cfg = durationMinutes cfg'
  /\ slotMinutes cfg = slotMinutes cfg'
  /\ minLeadMinutes cfg = minLeadMinutes cfg'
  /\ workStartHour cfg = workStartHour cfg'
  /\ workEndHour cfg = workEndHour cfg'.

(** ** The page size asked of the calendar *)

(** [Math.max(a, b)]. *)
Definition mathMax (a b : JsNumber) : JsNumber :=
  match a, b with
  | JNaN, _ | _, JNaN => JNaN
  | JPosInf, _ | _, JPosInf => JPosInf
  | JNegInf, x | x, JNegInf => x
  | JInt x, JInt y => JInt (Z.max x y)
  end.

(** [Math.min(a, b)]. *)
Definition mathMin (a b : JsNumber) : JsNumber :=
  match a, b with
  | JNaN, _ | _, JNaN => JNaN
  | JNegInf, _ | _, JNegInf => JNegInf
  | JPosInf, x | x, JPosInf => x
  | JInt x, JInt y => JInt (Z.min x y)
  end.

(** The [pageSize] of [fetchNotionEvents(options)]:
    [Math.min(Math.max(options?.pageSize ?? 25, 1), 100)], with [None] for
    an option that is not given. *)
Definition notionPageSize (pageSize : option JsNumber) : JsNumber :=
  mathMin (mathMax (default (JInt 25) pageSize) (JInt 1)) (JInt 100).

(** [Number(searchParams.get("pageSize")) || 25] of the events route. *)
Definition eventsRoutePageSize (raw : RawParam) : JsNumber :=
  jsOr (toNumber raw) (JInt 25).

(** A busy interval that starts on one of the local calendar days of the
    horizon. *)
Definition startsInHorizon (tz now : Z) (cfg : Config) (i : BusyInterval) : Prop :=
  localDay tz now <= localDay tz (bi_start i) < localDay tz now + horizonDays cfg.

(** * The availability route on any numbers

    [Number(searchParams.get(name))] is whatever number the text denotes,
    whole or not, and [clampNumber] hands it on as it is.  This module
    embeds the resolver, the slot loops and [GET] once more with the
    query values as any numbers: a finite number is the rational it is,
    comparisons are exact, and [new Date(...)] keeps the integral part of
    a fractional number of milliseconds.  The product and the sum inside
    [addMinutes] are taken exactly; binary64 rounds them, and for whole
    minutes both are exact.  The environment defaults and the work hours
    stay integers, dates stay time values, and the collaborators, the
    interval index and the overlap test are those above.  On whole-number
    queries this embedding and the one above give the same answer
    ([whole_numbers_agree]). *)

Module Fractional.

(** A JavaScript number: NaN, an infinity, or a finite value, kept as the
    rational it is. *)
Inductive JsNumber : Type :=
| NaN
| NegInf
| Num (q : Q)
| PosInf.

(** [ToBoolean] on a number: NaN and 0 are falsy. *)
Definition truthy (v : JsNumber) : bool :=
  match v with
  | NaN => false
  | Num q => negb (Qeq_bool q 0)
  | NegInf | PosInf => true
  end.

(** [a || b] on numbers. *)
Definition jsOr (a b : JsNumber) : JsNumber :=
  if truthy a then a else b.

(** [URLSearchParams.get] followed by [Number(...)]. *)
Inductive RawParam : Type :=
| Absent
| Present (n : JsNumber).

Definition toNumber (p : RawParam) : JsNumber :=
  match p with
  | Absent => Num 0
  | Present n => n
  end.

(** [clampNumber(value, min, max, fallback)]. *)
Definition clampNumber (value : JsNumber) (min max fallback : Q) : Q :=
  match value with
  | NaN => fallback
  | NegInf => Qmin min max
  | Num v => Qmin (Qmax v min) max
  | PosInf => max
  end.

(** [a < b] on finite numbers. *)
Definition lessThan (a b : Q) : bool :=
  Qnum a * QDen b <? Qnum b * QDen a.

(** The integral part of a number, as the [Date] constructor keeps it
    ([ToIntegerOrInfinity]: rounding towards zero). *)
Definition truncate (q : Q) : Z := Z.quot (Qnum q) (QDen q).

(** [addMinutes(date, minutes)]:
    [new Date(date.getTime() + minutes * 60 * 1000)]. *)
Definition addMinutes (date : Z) (minutes : Q) : Z :=
  truncate (inject_Z date + minutes * 60 * 1000).

Record Query : Type := mkQuery {
  q_durationMinutes : RawParam;
  q_slotMinutes : RawParam;
  q_days : RawParam;
  q_limit : RawParam;
  q_leadTimeMinutes : RawParam
}.

(** [clampNumber(Number(searchParams.get(name)) || DEFAULT, min, max, DEFAULT)]. *)
Definition resolveParam (raw : RawParam) (DEFAULT : Z) (min max : Q) : Q :=
  clampNumber (jsOr (toNumber raw) (Num (inject_Z DEFAULT))) min max
    (inject_Z DEFAULT).

Record Config : Type := mkConfig {
  durationMinutes : Q;
  slotMinutes : Q;
  horizonDays : Q;
  slotLimit : Q;
  minLeadMinutes : Q;
  workStartHour : Z;
  workEndHour : Z
}.

(** The resolved parameters of a request (the head of [GET]). *)
Definition resolveConfig (env : ProcessEnv) (q : Query) : Config :=
  {| durationMinutes :=
       resolveParam (q_durationMinutes q) (DEFAULT_DURATION_MINUTES env) 15 240;
     slotMinutes :=
       resolveParam (q_slotMinutes q) (DEFAULT_SLOT_MINUTES env) 5 120;
     horizonDays :=
       resolveParam (q_days q) (DEFAULT_HORIZON_DAYS env) 1 30;
     slotLimit :=
       resolveParam (q_limit q) (DEFAULT_LIMIT env) 1 200;
     minLeadMinutes :=
       resolveParam (q_leadTimeMinutes q) (DEFAULT_MIN_LEAD_MINUTES env) 0 (24 * 60);
     workStartHour := DEFAULT_WORK_START_HOUR env;
     workEndHour := DEFAULT_WORK_END_HOUR env |}.

Record Slot : Type := mkSlot {
  slot_start : Z;
  slot_end : Z;
  slot_durationMinutes : Q
}.

Section SlotLoops.
Variables (tz now : Z) (cfg : Config).
Variable intervalsByDay : gmap string (list BusyInterval).

Definition earliestAllowedStart : Z := addMinutes now (minLeadMinutes cfg).

Definition slotCount (slots : list Slot) : Z := Z.of_nat (length slots).

(** The inner [for]: one turn per unit of fuel, [None] when the fuel is
    used up before the loop leaves. *)
Fixpoint scanDay (fuel : nat) (workEnd : Z) (bucket : list BusyInterval)
    (cursor : Z) (slots : list Slot) : option (list Slot) :=
  match fuel with
  | O => None
  | S fuel' =>
      if (cursor <? workEnd)
         && lessThan (inject_Z (slotCount slots)) (slotLimit cfg) then
        let slotStart := cursor in
        let slotEnd := addMinutes slotStart (durationMinutes cfg) in
        let next := addMinutes cursor (slotMinutes cfg) in
        if slotEnd >? workEnd then Some slots
        else if slotStart <? earliestAllowedStart then
          scanDay fuel' workEnd bucket next slots
        else if overlaps slotStart slotEnd bucket then
          scanDay fuel' workEnd bucket next slots
        else
          scanDay fuel' workEnd bucket next
            (slots ++ [mkSlot slotStart slotEnd (durationMinutes cfg)])
      else Some slots
  end.

(** Turns that the inner loop can take between [workStart] and
    [workEnd], and one more for the test that leaves it. *)
Definition scanFuel (workStart workEnd : Z) : nat :=
  Z.to_nat ((workEnd - workStart) / Qfloor (slotMinutes cfg * 60 * 1000)) + 2.

Definition dayStartOf (dayOffset : Z) : Z := startOfDay tz now dayOffset.
Definition dayEndOf (dayOffset : Z) : Z :=
  setHours tz (dayStartOf dayOffset) 23 59 59 999.
Definition workStartOf (dayOffset : Z) : Z :=
  setHours tz (dayStartOf dayOffset) (workStartHour cfg) 0 0 0.
Definition workEndOf (dayOffset : Z) : Z :=
  setHours tz (dayStartOf dayOffset) (workEndHour cfg) 0 0 0.
Definition bucketOf (dayOffset : Z) : list BusyInterval :=
  default [] (intervalsByDay !! dayKey tz (dayStartOf dayOffset)).

(** The outer [for] over the days of the horizon. *)
Fixpoint dayLoop (fuel : nat) (dayOffset : Z) (slots : list Slot)
    : option (list Slot) :=
  match fuel with
  | O => None
  | S fuel' =>
      if lessThan (inject_Z dayOffset) (horizonDays cfg)
         && lessThan (inject_Z (slotCount slots)) (slotLimit cfg) then
        let dayEnd := dayEndOf dayOffset in
        let workStart := workStartOf dayOffset in
        let workEnd := workEndOf dayOffset in
        if (workEnd <=? earliestAllowedStart) && (dayEnd <=? earliestAllowedStart)
        then dayLoop fuel' (dayOffset + 1) slots
        else
          let bucket := bucketOf dayOffset in
          match scanDay (scanFuel workStart workEnd) workEnd bucket workStart slots with
          | Some slots' => dayLoop fuel' (dayOffset + 1) slots'
          | None => None
          end
      else Some slots
  end.

Definition dayFuel : nat := Z.to_nat (Qceiling (horizonDays cfg)) + 1.
End SlotLoops.

(** Index the intervals and walk the horizon. *)
Definition generateSlots (tz now : Z) (cfg : Config)
    (intervals : list BusyInterval) : option (list Slot) :=
  let intervalsByDay := indexByDay tz intervals in
  dayLoop tz now cfg intervalsByDay (dayFuel cfg) 0 [].

Record Availability : Type := mkAvailability {
  generatedAt : Z;
  r_horizonDays : Q;
  r_slotMinutes : Q;
  r_durationMinutes : Q;
  slots : list Slot
}.

Inductive Response : Type :=
| JsonError (status : Z) (error : string)
| JsonOk (body : Availability).

(** [GET(req)], for a request with query [q] handled at instant [now].
    The result is [None] only if a loop ran out of fuel. *)
Definition GET (env : ProcessEnv) (q : Query) (now : Z) : Prog (option Response) :=
  let cfg := resolveConfig env q in
  if workEndHour cfg <=? workStartHour cfg then
    Ret (Some (JsonError 500 "Invalid availability hours configuration"))
  else
    built ← buildBusyIntervals;
    match built with
    | Rejected message =>
        ConsoleError "Availability error:" message
          (Ret (Some (JsonError 500 message)))
    | Resolved intervals =>
        match generateSlots (tzOffset env) now cfg intervals with
        | Some slots =>
            Ret (Some (JsonOk {| generatedAt := now;
                                 r_horizonDays := horizonDays cfg;
                                 r_slotMinutes := slotMinutes cfg;
                                 r_durationMinutes := durationMinutes cfg;
                                 slots := slots |}))
        | None => Ret None
        end
    end.

(** *** What the properties speak of *)

(** A number without a fractional part. *)
Definition whole (q : Q) : Prop := (q == inject_Z (Qfloor q))%Q.

(** The slot the walk builds at cursor position [c]. *)
Definition slotAt (cfg : Config) (c : Z) : Slot :=
  mkSlot c (addMinutes c (durationMinutes cfg)) (durationMinutes cfg).

(** The [k]-th cursor position of day [d]: [k] steps after the start of
    work. *)
Definition cursorAt (tz now : Z) (cfg : Config) (d : Z) (k : nat) : Z :=
  Nat.iter k (fun c => addMinutes c (slotMinutes cfg)) (workStartOf tz now cfg d).

(** The candidate at position [k] of day [d] passes every test of the
    walk. *)
Definition acceptable (tz now : Z) (cfg : Config)
    (byDay : gmap string (list BusyInterval)) (d : Z) (k : nat) : Prop :=
  let c := cursorAt tz now cfg d k in
  c < workEndOf tz now cfg d
  /\ addMinutes c (durationMinutes cfg) <= workEndOf tz now cfg d
  /\ earliestAllowedStart now cfg <= c
  /\ overlaps c (addMinutes c (durationMinutes cfg)) (bucketOf tz now byDay d) = false.

(** The ranges the resolver keeps the parameters in. *)
Record ConfigInRange (cfg : Config) : Prop := {
  duration_range : (15 <= durationMinutes cfg <= 240)%Q;
  step_range : (5 <= slotMinutes cfg <= 120)%Q;
  horizon_range : (1 <= horizonDays cfg <= 30)%Q;
  limit_range : (1 <= slotLimit cfg <= 200)%Q;
  lead_range : (0 <= minLeadMinutes cfg <= 1440)%Q
}.

End Fractional.

(** ** Whole numbers among all numbers *)

(** A whole-number query value, configuration, slot and response, seen in
    [Fractional]. *)
Definition ofNumber (n : JsNumber) : Fractional.JsNumber :=
  match n with
  | JNaN => Fractional.NaN
  | JNegInf => Fractional.NegInf
  | JInt z => Fractional.Num (inject_Z z)
  | JPosInf => Fractional.PosInf
  end.

Definition ofParam (p : RawParam) : Fractional.RawParam :=
  match p with
  | Absent => Fractional.Absent
  | Present n => Fractional.Present (ofNumber n)
  end.

Definition ofQuery (q : Query) : Fractional.Query :=
  {| Fractional.q_durationMinutes := ofParam (q_durationMinutes q);
     Fractional.q_slotMinutes := ofParam (q_slotMinutes q);
     Fractional.q_days := ofParam (q_days q);
     Fractional.q_limit := ofParam (q_limit q);
     Fractional.q_leadTimeMinutes := ofParam (q_leadTimeMinutes q) |}.

Definition ofConfig (cfg : Config) : Fractional.Config :=
  {| Fractional.durationMinutes := inject_Z (durationMinutes cfg);
     Fractional.slotMinutes := inject_Z (slotMinutes cfg);
     Fractional.horizonDays := inject_Z (horizonDays cfg);
     Fractional.slotLimit := inject_Z (slotLimit cfg);
     Fractional.minLeadMinutes := inject_Z (minLeadMinutes cfg);
     Fractional.workStartHour := workStartHour cfg;
     Fractional.workEndHour := workEndHour cfg |}.

Definition ofSlot (s : Slot) : Fractional.Slot :=
  Fractional.mkSlot (slot_start s) (slot_end s) (inject_Z (slot_durationMinutes s)).

Definition ofResponse (r : Response) : Fractional.Response :=
  match r with
  | JsonError status error => Fractional.JsonError status error
  | JsonOk body =>
      Fractional.JsonOk
        {| Fractional.generatedAt := generatedAt body;
           Fractional.r_horizonDays := inject_Z (r_horizonDays body);
           Fractional.r_slotMinutes := inject_Z (r_slotMinutes body);
           Fractional.r_durationMinutes := inject_Z (r_durationMinutes body);
           Fractional.slots := map ofSlot (slots body) |}
  end.

(** * Properties *)

Example dayKey_epoch : dayKey 0 0 = "1970-01-01"%string.
Proof. vm_compute. reflexivity. Qed.

(** 2024-02-29T23:30:00Z, seen from UTC and from UTC+1. *)
Example dayKey_leap : dayKey 0 1709249400000 = "2024-02-29"%string.
Proof. vm_compute. reflexivity. Qed.

Example dayKey_leap_cet : dayKey 60 1709249400000 = "2024-03-01"%string.
Proof. vm_compute. reflexivity. Qed.

(** Scenario A of the specification: work hours 08:00-21:00, 30-minute
    slots of 30 minutes, one meeting 10:00-10:30 today, no lead time (set
    through the environment), a horizon of one day, asked at midnight of
    2024-03-01 (UTC).  09:30-10:00 and 10:30-11:00 are offered, 10:00-10:30
    is not. *)
Example scenario_A :
  let env := mkEnv 0 None None None None None None (Some 0) in
  let q := mkQuery Absent Absent (Present (JInt 1)) Absent Absent in
  let w := mkWorld
             (Resolved [mkMeeting (IsoInstant 1709287200000)
                          (IsoInstant 1709289000000) None])
             (fun _ => Resolved []) in
  exists body t,
    run w (GET env q 1709251200000) = (Some (JsonOk body), t)
    /\ In (mkSlot 1709285400000 1709287200000 30) (slots body)
    /\ In (mkSlot 1709289000000 1709290800000 30) (slots body)
    /\ ~ In (mkSlot 1709287200000 1709289000000 30) (slots body).
Proof.
  intros env q w. eexists. eexists. split; [vm_compute; reflexivity|].
  cbn [slots]. repeat split.
  - do 3 right. left. reflexivity.
  - do 4 right. left. reflexivity.
  - intros H. repeat (destruct H as [H|H]; [discriminate|]). exact H.
Qed.

(** Scenario D: 45-minute slots on a 30-minute grid; the last slot
    offered for a day ends by 21:00 (it is 20:00-20:45), and 20:30-21:15 is
    not offered. *)
Example scenario_D :
  let q := mkQuery (Present (JInt 45)) Absent (Present (JInt 1))
             (Present (JInt 200)) Absent in
  let w := mkWorld (Resolved []) (fun _ => Resolved []) in
  exists body t,
    run w (GET (plainEnv 0) q 1709251200000) = (Some (JsonOk body), t)
    /\ last (slots body) = Some (mkSlot 1709323200000 1709325900000 45).
Proof.
  intros q w. eexists. eexists. split; vm_compute; reflexivity.
Qed.

(** ** Dates: arithmetic of the day boundaries *)

Lemma msPerDay_value : msPerDay = 86400000.
Proof. reflexivity. Qed.

Lemma msPerHour_value : msPerHour = 3600000.
Proof. reflexivity. Qed.

Lemma msPerMinute_value : msPerMinute = 60000.
Proof. reflexivity. Qed.

Lemma localDay_startOfDay tz now d :
  localDay tz (startOfDay tz now d) = localDay tz now + d.
Proof.
  unfold startOfDay, addDays, setHours, localDay at 1, localTime, utcOfLocal.
  replace (_ + tz * msPerMinute)
    with ((localDay tz now + d) * msPerDay) by lia.
  apply Z.div_mul. rewrite msPerDay_value. lia.
Qed.

Lemma setHours_startOfDay tz now d h m s ms :
  setHours tz (startOfDay tz now d) h m s ms
  = (localDay tz now + d) * msPerDay
    + (h * msPerHour + m * msPerMinute + s * 1000 + ms) - tz * msPerMinute.
Proof.
  unfold setHours at 1. rewrite localDay_startOfDay. unfold utcOfLocal. lia.
Qed.

Lemma workStartOf_eq tz now cfg d :
  workStartOf tz now cfg d
  = (localDay tz now + d) * msPerDay + workStartHour cfg * msPerHour
    - tz * msPerMinute.
Proof. unfold workStartOf, dayStartOf. rewrite setHours_startOfDay. lia. Qed.

Lemma workEndOf_eq tz now cfg d :
  workEndOf tz now cfg d
  = (localDay tz now + d) * msPerDay + workEndHour cfg * msPerHour
    - tz * msPerMinute.
Proof. unfold workEndOf, dayStartOf. rewrite setHours_startOfDay. lia. Qed.

Lemma bucketOf_day tz now byDay d :
  bucketOf tz now byDay d
  = default [] (byDay !! dayKey tz (startOfDay tz now d)).
Proof. reflexivity. Qed.

(** ** The configuration resolver *)

Lemma clampNumber_range value lo hi fallback :
  value <> JNaN -> lo <= hi -> lo <= clampNumber value lo hi fallback <= hi.
Proof. intros Hv Hle. destruct value; simpl; try congruence; lia. Qed.

Lemma jsOr_not_NaN raw DEFAULT : jsOr (toNumber raw) (JInt DEFAULT) <> JNaN.
Proof.
  unfold jsOr. destruct raw as [|[| |z|]]; simpl; try discriminate.
  destruct (z =? 0); discriminate.
Qed.

Lemma resolveParam_range raw DEFAULT lo hi :
  lo <= hi -> lo <= resolveParam raw DEFAULT lo hi <= hi.
Proof. intros. apply clampNumber_range; [apply jsOr_not_NaN | assumption]. Qed.

Lemma clampInto_spec lo hi v : lo <= hi -> clampInto lo hi v = Z.min (Z.max v lo) hi.
Proof.
  intros. unfold clampInto.
  destruct (Z.ltb_spec v lo); [lia|]. destruct (Z.ltb_spec hi v); lia.
Qed.

Lemma resolveParam_built raw DEFAULT lo hi :
  lo <= hi -> resolvedAsBuilt raw DEFAULT lo hi (resolveParam raw DEFAULT lo hi).
Proof.
  intros Hle. unfold resolvedAsBuilt, resolveParam, jsOr.
  repeat split.
  - intros v -> Hv. simpl. destruct (Z.eqb_spec v 0); [contradiction|].
    simpl. symmetry. now apply clampInto_spec.
  - intros ->. reflexivity.
  - intros ->. simpl. lia.
  - intros [-> | ->]; simpl; symmetry; now apply clampInto_spec.
Qed.

(** What the route does with a raw 0: it is taken for an absent value. *)
Lemma resolveParam_zero DEFAULT lo hi :
  resolveParam (Present (JInt 0)) DEFAULT lo hi = resolveParam Absent DEFAULT lo hi.
Proof. reflexivity. Qed.

Lemma resolveConfig_in_range env q : ConfigInRange (resolveConfig env q).
Proof. split; simpl; apply resolveParam_range; lia. Qed.

(** C3, as the route resolves the parameters: each of durationMinutes,
    slotMinutes, days, limit and leadTimeMinutes resolves to the raw value
    clamped into its range (15-240, 5-120, 1-30, 1-200, 0-1440) when the raw
    value is a valid number other than 0, and to the environment default
    clamped into the same range when the raw value is absent or no valid
    number; with the variable unset the default is 30, 30, 7, 20, 60 and is
    returned as it is. *)
Theorem resolved_parameters_clamped (env : ProcessEnv) (q : Query) :
  let cfg := resolveConfig env q in
  (resolvedAsBuilt (q_durationMinutes q) (DEFAULT_DURATION_MINUTES env) 15 240
     (durationMinutes cfg)
   /\ resolvedAsBuilt (q_slotMinutes q) (DEFAULT_SLOT_MINUTES env) 5 120
        (slotMinutes cfg)
   /\ resolvedAsBuilt (q_days q) (DEFAULT_HORIZON_DAYS env) 1 30
        (horizonDays cfg)
   /\ resolvedAsBuilt (q_limit q) (DEFAULT_LIMIT env) 1 200
        (slotLimit cfg)
   /\ resolvedAsBuilt (q_leadTimeMinutes q) (DEFAULT_MIN_LEAD_MINUTES env) 0 1440
        (minLeadMinutes cfg))
  /\ (AVAILABILITY_DURATION_MINUTES env = None ->
      clampInto 15 240 (DEFAULT_DURATION_MINUTES env) = 30)
  /\ (AVAILABILITY_SLOT_MINUTES env = None ->
      clampInto 5 120 (DEFAULT_SLOT_MINUTES env) = 30)
  /\ (AVAILABILITY_HORIZON_DAYS env = None ->
      clampInto 1 30 (DEFAULT_HORIZON_DAYS env) = 7)
  /\ (AVAILABILITY_MAX_SLOTS env = None ->
      clampInto 1 200 (DEFAULT_LIMIT env) = 20)
  /\ (AVAILABILITY_LEAD_TIME_MINUTES env = None ->
      clampInto 0 1440 (DEFAULT_MIN_LEAD_MINUTES env) = 60).
Proof.
  cbn zeta. split.
  - repeat split; simpl; apply resolveParam_built; lia.
  - unfold DEFAULT_DURATION_MINUTES, DEFAULT_SLOT_MINUTES, DEFAULT_HORIZON_DAYS,
      DEFAULT_LIMIT, DEFAULT_MIN_LEAD_MINUTES.
    repeat split; intros ->; reflexivity.
Qed.

Lemma resolved_parameters_clamped_witness :
  let q := mkQuery (Present (JInt 500)) (Present (JInt 3)) Absent
             (Present JNaN) (Present (JInt 90)) in
  let cfg := resolveConfig (plainEnv 0) q in
  durationMinutes cfg = 240 /\ slotMinutes cfg = 5 /\ horizonDays cfg = 7
  /\ slotLimit cfg = 20 /\ minLeadMinutes cfg = 90.
Proof.
  intros q cfg.
  destruct (resolved_parameters_clamped (plainEnv 0) q)
    as [[Hd [Hs [Hh [Hl Hm]]]] [Dd [Ds [Dh [Dl Dm]]]]].
  refine (conj _ (conj _ (conj _ (conj _ _)))).
  - destruct Hd as [H _]. apply (H 500); [reflexivity | lia].
  - destruct Hs as [H _]. apply (H 3); [reflexivity | lia].
  - destruct Hh as [_ [_ [_ H]]]. apply H. now left.
  - destruct Hl as [_ [_ [_ H]]]. apply H. now right.
  - destruct Hm as [H _]. apply (H 90); [reflexivity | lia].
Defined.

(** C3 as stated fails on the route: a raw leadTimeMinutes of 0 is a valid
    number inside 0-1440 and resolves to the default 60, and with
    AVAILABILITY_DURATION_MINUTES set to 500 an absent durationMinutes
    resolves to 240, not to the default 500. *)
Lemma resolved_parameters_not_as_stated :
  ~ resolvedAsStated (Present (JInt 0)) (DEFAULT_MIN_LEAD_MINUTES (plainEnv 0)) 0 1440
      (minLeadMinutes
         (resolveConfig (plainEnv 0)
            (mkQuery Absent Absent Absent Absent (Present (JInt 0)))))
  /\ ~ resolvedAsStated Absent
        (DEFAULT_DURATION_MINUTES (mkEnv 0 None None None (Some 500) None None None))
        15 240
        (durationMinutes
           (resolveConfig (mkEnv 0 None None None (Some 500) None None None)
              (mkQuery Absent Absent Absent Absent Absent))).
Proof.
  split.
  - intros [H _]. specialize (H 0 eq_refl). vm_compute in H. discriminate.
  - intros [_ H]. specialize (H (or_introl eq_refl)). vm_compute in H. discriminate.
Qed.

(** ** The overlap test *)

Lemma overlaps_true_iff s e (l : list BusyInterval) :
  overlaps s e l = true
  <-> exists i, In i l /\ s < bi_end i /\ bi_start i < e.
Proof.
  unfold overlaps. rewrite existsb_exists. split.
  - intros [i [Hin Hi]]. exists i. split; [assumption|].
    apply andb_true_iff in Hi as [H1 H2]. lia.
  - intros [i [Hin [H1 H2]]]. exists i. split; [assumption|].
    apply andb_true_iff. lia.
Qed.

Lemma overlaps_false_iff s e (l : list BusyInterval) :
  overlaps s e l = false
  <-> forall i, In i l -> ~ (s < bi_end i /\ bi_start i < e).
Proof.
  rewrite <- not_true_iff_false, overlaps_true_iff. split.
  - intros H i Hin Hi. apply H. eauto.
  - intros H [i [Hin Hi]]. exact (H i Hin Hi).
Qed.

(** C2: against one busy interval [bs,be) the test answers true exactly
    when s < be and e > bs; a slot that ends at bs, or starts at be, does
    not overlap. *)
Theorem overlaps_half_open (s e bs be : Z) (title : option string) (src : Source) :
  (overlaps s e [mkBusy bs be title src] = true <-> s < be /\ e > bs)
  /\ overlaps s bs [mkBusy bs be title src] = false
  /\ overlaps be e [mkBusy bs be title src] = false.
Proof.
  unfold overlaps. simpl. rewrite !orb_false_r.
  split; [split; intros Hov | split].
  - apply andb_true_iff in Hov. lia.
  - apply andb_true_iff. lia.
  - apply andb_false_iff. right. lia.
  - apply andb_false_iff. left. lia.
Qed.

(** ** The interval index *)

Lemma addToBucket_lookup tz byDay x k :
  default [] (addToBucket tz byDay x !! k)
  = default [] (byDay !! k)
    ++ (if decide (dayKey tz (bi_start x) = k) then [x] else []).
Proof.
  unfold addToBucket. destruct (decide (dayKey tz (bi_start x) = k)) as [->|Hne].
  - destruct (byDay !! k) as [bucket|] eqn:Hk; rewrite lookup_insert_eq; reflexivity.
  - destruct (byDay !! dayKey tz (bi_start x));
      rewrite lookup_insert_ne by assumption; now rewrite app_nil_r.
Qed.

(** The bucket of a day key holds the intervals whose start has that key,
    in their order of arrival. *)
Lemma indexByDay_lookup tz (l : list BusyInterval) k :
  default [] (indexByDay tz l !! k)
  = filter (fun i => dayKey tz (bi_start i) = k) l.
Proof.
  unfold indexByDay. induction l as [|x l IH] using rev_ind.
  - reflexivity.
  - rewrite fold_left_app. simpl. rewrite addToBucket_lookup, IH, filter_app.
    reflexivity.
Qed.

Lemma bucket_subseteq tz (I I' : list BusyInterval) k :
  I ⊆ I' ->
  default [] (indexByDay tz I !! k) ⊆ default [] (indexByDay tz I' !! k).
Proof.
  intros Hsub i. rewrite !indexByDay_lookup, !list_elem_of_filter.
  intros [Hk Hi]. split; [assumption | now apply Hsub].
Qed.

Lemma overlaps_antitone s e (I I' : list BusyInterval) :
  I ⊆ I' -> overlaps s e I' = false -> overlaps s e I = false.
Proof.
  intros Hsub. rewrite !overlaps_false_iff. intros H i Hin.
  apply H. apply list_elem_of_In, Hsub, list_elem_of_In, Hin.
Qed.

(** C7: a candidate that passes the overlap filter against a collection of
    busy intervals passes it against every sub-collection, be it the
    collection itself or the bucket the index files under a day key; so
    does it when the second source adds intervals, duplicates or not. *)
Theorem acceptance_antitone (tz s e : Z) (I I' J : list BusyInterval) (k : string) :
  (I ⊆ I' -> overlaps s e I' = false -> overlaps s e I = false)
  /\ (I ⊆ I' ->
      overlaps s e (default [] (indexByDay tz I' !! k)) = false ->
      overlaps s e (default [] (indexByDay tz I !! k)) = false)
  /\ (overlaps s e (default [] (indexByDay tz (I ++ J) !! k)) = false ->
      overlaps s e (default [] (indexByDay tz I !! k)) = false).
Proof.
  split; [|split].
  - apply overlaps_antitone.
  - intros Hsub. apply overlaps_antitone. now apply bucket_subseteq.
  - apply overlaps_antitone, bucket_subseteq.
    intros i Hi. apply elem_of_app. now left.
Qed.

Lemma acceptance_antitone_witness :
  let lunch := mkBusy 1000 2000 None meeting in
  let call := mkBusy 5000 6000 None notion in
  overlaps 3000 4000 [lunch] = false
  /\ overlaps 3000 4000
       (default [] (indexByDay 0 [lunch] !! "1970-01-01"%string)) = false.
Proof.
  intros lunch call.
  destruct (acceptance_antitone 0 3000 4000 [lunch] [lunch; call; lunch] []
              "1970-01-01"%string) as [H1 [H2 _]].
  assert (Hsub : [lunch] ⊆ [lunch; call; lunch]).
  { intros i Hi. apply list_elem_of_singleton in Hi as ->. apply list_elem_of_here. }
  split.
  - apply H1; [exact Hsub | vm_compute; reflexivity].
  - apply H2; [exact Hsub | vm_compute; reflexivity].
Defined.

(** ** The walk over one day *)

Lemma slotCount_snoc slots x : slotCount (slots ++ [x]) = slotCount slots + 1.
Proof. unfold slotCount. rewrite length_app. simpl. lia. Qed.

Lemma ascending_nil : ascending [].
Proof. intros i j a b _ Hi. rewrite lookup_nil in Hi. discriminate. Qed.

Lemma ascending_snoc l x :
  ascending l -> (forall a, In a l -> slot_start a < slot_start x) ->
  ascending (l ++ [x]).
Proof.
  intros Hl Hx i j a b Hij Hi Hj.
  assert (Hjlt := lookup_lt_Some _ _ _ Hj).
  rewrite length_app in Hjlt. simpl in Hjlt.
  destruct (decide (j = length l)) as [->|Hne].
  - rewrite lookup_app_l in Hi by lia.
    rewrite lookup_app_r, Nat.sub_diag in Hj by lia.
    injection Hj as <-. apply Hx.
    apply list_elem_of_In. eapply list_elem_of_lookup_2. eassumption.
  - rewrite lookup_app_l in Hi by lia.
    rewrite lookup_app_l in Hj by lia.
    exact (Hl i j a b Hij Hi Hj).
Qed.

Section ScanDay.
Variables (now : Z) (cfg : Config) (workEnd : Z) (bucket : list BusyInterval).

Local Abbreviation earliest := (earliestAllowedStart now cfg).
Local Abbreviation next c := (addMinutes c (slotMinutes cfg)).
Local Abbreviation fits c := (addMinutes c (durationMinutes cfg) <= workEnd).
Local Abbreviation free c :=
  (overlaps c (addMinutes c (durationMinutes cfg)) bucket = false).
Local Abbreviation scan := (scanDay now cfg).

(** Induction along the turns of the loop: it leaves at once, it breaks,
    it moves on without a slot, or it moves on with one. *)
Lemma scanDay_elim (P : Z -> list Slot -> list Slot -> Prop) :
  (forall cursor slots,
      ~ (cursor < workEnd /\ slotCount slots < slotLimit cfg) ->
      P cursor slots slots) ->
  (forall cursor slots,
      cursor < workEnd -> slotCount slots < slotLimit cfg ->
      ~ fits cursor -> P cursor slots slots) ->
  (forall cursor slots r,
      cursor < workEnd -> slotCount slots < slotLimit cfg -> fits cursor ->
      cursor < earliest \/ ~ free cursor ->
      P (next cursor) slots r -> P cursor slots r) ->
  (forall cursor slots r,
      cursor < workEnd -> slotCount slots < slotLimit cfg -> fits cursor ->
      earliest <= cursor -> free cursor ->
      P (next cursor) (slots ++ [slotAt cfg cursor]) r -> P cursor slots r) ->
  forall fuel cursor slots r,
    scan fuel workEnd bucket cursor slots = Some r -> P cursor slots r.
Proof.
  intros Hexit Hbreak Hskip Htake.
  induction fuel as [|fuel IH]; intros cursor slots r; simpl; [discriminate|].
  destruct (Z.ltb_spec cursor workEnd) as [Hc|Hc]; simpl.
  2:{ intros [= <-]. apply Hexit. lia. }
  destruct (Z.ltb_spec (slotCount slots) (slotLimit cfg)) as [Hn|Hn]; simpl.
  2:{ intros [= <-]. apply Hexit. lia. }
  destruct (Z.gtb_spec (addMinutes cursor (durationMinutes cfg)) workEnd) as [Hf|Hf].
  { intros [= <-]. apply Hbreak; lia. }
  destruct (Z.ltb_spec cursor earliest) as [He|He].
  { intros Hr. apply Hskip; auto. }
  destruct (overlaps cursor _ bucket) eqn:Hov.
  { intros Hr. apply Hskip; auto. right. congruence. }
  intros Hr. apply Htake; auto.
Qed.

Lemma scanDay_prefix fuel cursor slots r :
  scan fuel workEnd bucket cursor slots = Some r -> slots `prefix_of` r.
Proof.
  revert fuel cursor slots r.
  apply (scanDay_elim (fun cursor slots r => slots `prefix_of` r)); auto.
  intros cursor slots r _ _ _ _ _ H. eapply prefix_app_l, H.
Qed.

Lemma scanDay_count fuel cursor slots r :
  scan fuel workEnd bucket cursor slots = Some r ->
  slotCount slots <= slotLimit cfg -> slotCount r <= slotLimit cfg.
Proof.
  revert fuel cursor slots r.
  apply (scanDay_elim (fun cursor slots r =>
    slotCount slots <= slotLimit cfg -> slotCount r <= slotLimit cfg)); auto.
  intros cursor slots r _ Hn _ _ _ IH _. apply IH.
  rewrite slotCount_snoc. lia.
Qed.

(** Every slot the walk adds starts at one of its cursor positions, ends
    inside the work window, is of the requested duration, respects the
    lead time and is free of the bucket. *)
Lemma scanDay_sound fuel cursor slots r :
  scan fuel workEnd bucket cursor slots = Some r ->
  0 <= slotMinutes cfg ->
  forall x, In x r ->
    In x slots
    \/ (x = slotAt cfg (slot_start x) /\ cursor <= slot_start x < workEnd
        /\ fits (slot_start x) /\ earliest <= slot_start x
        /\ free (slot_start x)).
Proof.
  intros Hr Hstep. revert fuel cursor slots r Hr.
  apply (scanDay_elim (fun cursor slots r => forall x, In x r ->
    In x slots
    \/ (x = slotAt cfg (slot_start x) /\ cursor <= slot_start x < workEnd
        /\ fits (slot_start x) /\ earliest <= slot_start x
        /\ free (slot_start x)))); auto.
  - intros cursor slots r _ _ _ _ IH x Hx.
    destruct (IH x Hx) as [|H]; [now left|right].
    unfold addMinutes in *. intuition lia.
  - intros cursor slots r Hc _ Hf He Hfree IH x Hx.
    destruct (IH x Hx) as [Hin|H].
    + apply in_app_or in Hin as [|[<-|[]]]; [now left|right].
      simpl. repeat split; auto; lia.
    + right. unfold addMinutes in *. intuition lia.
Qed.

Lemma scanDay_ascending fuel cursor slots r :
  scan fuel workEnd bucket cursor slots = Some r ->
  0 < slotMinutes cfg ->
  ascending slots -> (forall a, In a slots -> slot_start a < cursor) ->
  ascending r.
Proof.
  intros Hr Hstep. revert fuel cursor slots r Hr.
  apply (scanDay_elim (fun cursor slots r =>
    ascending slots -> (forall a, In a slots -> slot_start a < cursor) ->
    ascending r)); auto.
  - intros cursor slots r Hc _ _ _ IH Hasc Hlt.
    apply IH; [assumption|].
    intros a Ha. specialize (Hlt a Ha). unfold addMinutes. lia.
  - intros cursor slots r Hc _ _ _ _ IH Hasc Hlt. apply IH.
    + apply ascending_snoc; [assumption|]. intros a Ha. simpl. now apply Hlt.
    + intros a Ha. apply in_app_or in Ha as [Ha|[<-|[]]].
      * specialize (Hlt a Ha). unfold addMinutes. lia.
      * simpl. unfold addMinutes. lia.
Qed.

(** A walk that ends below the limit has taken every acceptable position
    from [cursor] on. *)
Lemma scanDay_complete fuel cursor slots r :
  scan fuel workEnd bucket cursor slots = Some r ->
  0 <= slotMinutes cfg ->
  slotCount r < slotLimit cfg ->
  forall k, 0 <= k ->
    let c := cursor + k * (slotMinutes cfg * 60 * 1000) in
    c < workEnd -> fits c -> earliest <= c -> free c ->
    In (slotAt cfg c) r.
Proof.
  intros Hr Hstep.
  enough (H : slots `prefix_of` r /\
              (slotCount r < slotLimit cfg -> forall k, 0 <= k ->
               let c := cursor + k * (slotMinutes cfg * 60 * 1000) in
               c < workEnd -> fits c -> earliest <= c -> free c ->
               In (slotAt cfg c) r)) by apply H.
  revert fuel cursor slots r Hr.
  apply (scanDay_elim (fun cursor slots r =>
    slots `prefix_of` r /\
    (slotCount r < slotLimit cfg -> forall k, 0 <= k ->
     let c := cursor + k * (slotMinutes cfg * 60 * 1000) in
     c < workEnd -> fits c -> earliest <= c -> free c ->
     In (slotAt cfg c) r))).
  - intros cursor slots Hexit. split; [reflexivity|].
    intros Hn k Hk c Hc. exfalso. subst c. nia.
  - intros cursor slots _ _ Hfit. split; [reflexivity|].
    intros Hn k Hk c _ Hfc. exfalso. subst c. unfold addMinutes in *. nia.
  - intros cursor slots r _ _ _ Hrej [IHp IH]. split; [assumption|].
    intros Hn k Hk c Hc Hfc Hec Hov.
    destruct (Z.eq_dec k 0) as [->|Hk0].
    + subst c. rewrite Z.mul_0_l, Z.add_0_r in *.
      destruct Hrej; [lia | contradiction].
    + specialize (IH Hn (k - 1) ltac:(lia)). cbn zeta in IH.
      replace (addMinutes cursor (slotMinutes cfg)
               + (k - 1) * (slotMinutes cfg * 60 * 1000)) with c in IH
        by (subst c; unfold addMinutes; lia).
      now apply IH.
  - intros cursor slots r _ _ _ _ _ [IHp IH]. split; [eapply prefix_app_l, IHp|].
    intros Hn k Hk c Hc Hfc Hec Hov.
    destruct (Z.eq_dec k 0) as [->|Hk0].
    + subst c. rewrite Z.mul_0_l, Z.add_0_r.
      apply list_elem_of_In. eapply elem_of_prefix; [|exact IHp].
      apply elem_of_app. right. apply list_elem_of_here.
    + specialize (IH Hn (k - 1) ltac:(lia)). cbn zeta in IH.
      replace (addMinutes cursor (slotMinutes cfg)
               + (k - 1) * (slotMinutes cfg * 60 * 1000)) with c in IH
        by (subst c; unfold addMinutes; lia).
      now apply IH.
Qed.

Lemma turnsLeft_next cursor :
  0 < slotMinutes cfg -> cursor < workEnd ->
  turnsLeft cfg workEnd cursor = S (turnsLeft cfg workEnd (next cursor)).
Proof.
  intros Hstep Hc. unfold turnsLeft, addMinutes.
  set (step := slotMinutes cfg * 60 * 1000).
  assert (Hpos : 0 < step) by (subst step; lia).
  replace (workEnd - (cursor + step) + step - 1)
    with (workEnd - cursor + step - 1 + (-1) * step) by lia.
  rewrite Z.div_add by lia.
  assert (1 <= (workEnd - cursor + step - 1) / step).
  { apply Z.div_le_lower_bound; lia. }
  lia.
Qed.

(** With a positive step the loop leaves within [turnsLeft] turns and
    one. *)
Lemma scanDay_total fuel cursor slots :
  0 < slotMinutes cfg ->
  (turnsLeft cfg workEnd cursor < fuel)%nat ->
  exists r, scan fuel workEnd bucket cursor slots = Some r.
Proof.
  intros Hstep. revert cursor slots.
  induction fuel as [|fuel IH]; intros cursor slots Hfuel; [lia|]. simpl.
  destruct (Z.ltb_spec cursor workEnd) as [Hc|Hc]; simpl; [|eauto].
  destruct (slotCount slots <? slotLimit cfg); simpl; [|eauto].
  rewrite (turnsLeft_next cursor Hstep Hc) in Hfuel.
  destruct (_ >? workEnd); [eauto|].
  destruct (cursor <? earliest); [apply IH; lia|].
  destruct (overlaps _ _ _); apply IH; lia.
Qed.

(** A day whose work window ends by the earliest allowed start yields no
    slot. *)
Lemma scanDay_past fuel cursor slots r :
  scan fuel workEnd bucket cursor slots = Some r ->
  workEnd <= earliest -> r = slots.
Proof.
  intros Hr Hpast. revert fuel cursor slots r Hr.
  apply (scanDay_elim (fun cursor slots r => r = slots)); auto.
  intros. lia.
Qed.

Lemma scanFuel_enough workStart :
  0 < slotMinutes cfg ->
  (turnsLeft cfg workEnd workStart < scanFuel cfg workStart workEnd)%nat.
Proof.
  intros Hstep. unfold turnsLeft, scanFuel.
  set (step := slotMinutes cfg * 60 * 1000).
  assert (Hpos : 0 < step) by (subst step; lia).
  assert ((workEnd - workStart + step - 1) / step
          <= (workEnd - workStart) / step + 1).
  { rewrite <- (Z.div_add _ 1 step) by lia. apply Z.div_le_mono; lia. }
  lia.
Qed.

End ScanDay.

(** ** The walk over the horizon *)

Section DayLoop.
Variables (tz now : Z) (cfg : Config).
Variable byDay : gmap string (list BusyInterval).

Local Abbreviation earliest := (earliestAllowedStart now cfg).
Local Abbreviation workStart d := (workStartOf tz now cfg d).
Local Abbreviation workEnd d := (workEndOf tz now cfg d).
Local Abbreviation dayEnd d := (dayEndOf tz now d).
Local Abbreviation bucket d := (bucketOf tz now byDay d).
Local Abbreviation loop := (dayLoop tz now cfg byDay).
Local Abbreviation scanOf d slots :=
  (scanDay now cfg (scanFuel cfg (workStart d) (workEnd d)) (workEnd d)
     (bucket d) (workStart d) slots).

(** Induction along the days: the loop leaves, it skips a day, or it scans
    one. *)
Lemma dayLoop_elim (P : Z -> list Slot -> list Slot -> Prop) :
  (forall d slots,
      ~ (d < horizonDays cfg /\ slotCount slots < slotLimit cfg) ->
      P d slots slots) ->
  (forall d slots r,
      d < horizonDays cfg -> slotCount slots < slotLimit cfg ->
      workEnd d <= earliest -> dayEnd d <= earliest ->
      P (d + 1) slots r -> P d slots r) ->
  (forall d slots slots' r,
      d < horizonDays cfg -> slotCount slots < slotLimit cfg ->
      ~ (workEnd d <= earliest /\ dayEnd d <= earliest) ->
      scanOf d slots = Some slots' ->
      P (d + 1) slots' r -> P d slots r) ->
  forall fuel d slots r, loop fuel d slots = Some r -> P d slots r.
Proof.
  intros Hexit Hskip Hscan.
  induction fuel as [|fuel IH]; intros d slots r; simpl; [discriminate|].
  destruct (Z.ltb_spec d (horizonDays cfg)) as [Hd|Hd]; simpl.
  2:{ intros [= <-]. apply Hexit. lia. }
  destruct (Z.ltb_spec (slotCount slots) (slotLimit cfg)) as [Hn|Hn]; simpl.
  2:{ intros [= <-]. apply Hexit. lia. }
  destruct (Z.leb_spec (workEnd d) earliest) as [Hw|Hw]; simpl.
  - destruct (Z.leb_spec (dayEnd d) earliest) as [He|He].
    + intros Hr. apply Hskip; auto.
    + destruct (scanOf d slots) as [slots'|] eqn:Hs; [|discriminate].
      intros Hr. eapply Hscan; eauto. lia.
  - destruct (scanOf d slots) as [slots'|] eqn:Hs; [|discriminate].
    intros Hr. eapply Hscan; eauto. lia.
Qed.

Lemma dayLoop_count fuel d slots r :
  loop fuel d slots = Some r ->
  slotCount slots <= slotLimit cfg -> slotCount r <= slotLimit cfg.
Proof.
  revert fuel d slots r.
  apply (dayLoop_elim (fun d slots r =>
    slotCount slots <= slotLimit cfg -> slotCount r <= slotLimit cfg)); auto.
  intros d slots slots' r _ _ _ Hs IH Hn.
  apply IH. eapply scanDay_count; eassumption.
Qed.

Lemma workStartOf_succ d : workStart (d + 1) = workStart d + msPerDay.
Proof. rewrite !workStartOf_eq. lia. Qed.

Lemma workEndOf_workStartOf d :
  workEnd d = workStart d + (workEndHour cfg - workStartHour cfg) * msPerHour.
Proof. rewrite workEndOf_eq, workStartOf_eq. lia. Qed.

(** Every slot of the result comes from a day [d'] of the horizon: it
    starts at a cursor position inside that day's work window, ends inside
    it, is of the requested duration, respects the lead time and is free of
    that day's bucket. *)
Lemma dayLoop_sound fuel d slots r :
  loop fuel d slots = Some r ->
  0 <= slotMinutes cfg ->
  forall x, In x r ->
    In x slots
    \/ exists d', d <= d' < horizonDays cfg
        /\ x = slotAt cfg (slot_start x)
        /\ workStart d' <= slot_start x < workEnd d'
        /\ slot_end x <= workEnd d'
        /\ earliest <= slot_start x
        /\ overlaps (slot_start x) (slot_end x) (bucket d') = false.
Proof.
  intros Hr Hstep. revert fuel d slots r Hr.
  apply (dayLoop_elim (fun d slots r => forall x, In x r ->
    In x slots
    \/ exists d', d <= d' < horizonDays cfg
        /\ x = slotAt cfg (slot_start x)
        /\ workStart d' <= slot_start x < workEnd d'
        /\ slot_end x <= workEnd d'
        /\ earliest <= slot_start x
        /\ overlaps (slot_start x) (slot_end x) (bucket d') = false)); auto.
  - intros d slots r Hd _ _ _ IH x Hx.
    destruct (IH x Hx) as [|[d' H]]; [now left|right].
    exists d'. intuition lia.
  - intros d slots slots' r Hd _ _ Hs IH x Hx.
    destruct (IH x Hx) as [Hin|[d' H]].
    + destruct (scanDay_sound _ _ _ _ _ _ _ _ Hs Hstep x Hin)
        as [|[Hx1 [Hx2 [Hx3 [Hx4 Hx5]]]]]; [now left|right].
      assert (Hend : slot_end x = addMinutes (slot_start x) (durationMinutes cfg))
        by (rewrite Hx1 at 1; reflexivity).
      exists d. rewrite Hend. repeat split; solve [assumption | lia].
    + right. exists d'. intuition lia.
Qed.

Lemma dayLoop_ascending fuel d slots r :
  loop fuel d slots = Some r ->
  0 < slotMinutes cfg ->
  workEndHour cfg <= workStartHour cfg + 24 ->
  ascending slots -> (forall a, In a slots -> slot_start a < workStart d) ->
  ascending r.
Proof.
  intros Hr Hstep Hhours. revert fuel d slots r Hr.
  apply (dayLoop_elim (fun d slots r =>
    ascending slots -> (forall a, In a slots -> slot_start a < workStart d) ->
    ascending r)); auto.
  - intros d slots r _ _ _ _ IH Hasc Hlt. apply IH; [assumption|].
    intros a Ha. specialize (Hlt a Ha). rewrite workStartOf_succ.
    rewrite msPerDay_value. lia.
  - intros d slots slots' r _ _ _ Hs IH Hasc Hlt. apply IH.
    + eapply scanDay_ascending; eassumption.
    + intros a Ha. rewrite workStartOf_succ, msPerDay_value.
      destruct (scanDay_sound _ _ _ _ _ _ _ _ Hs ltac:(lia) a Ha) as [Hin|H].
      * specialize (Hlt a Hin). lia.
      * destruct H as [_ [H _]]. rewrite workEndOf_workStartOf in H.
        rewrite msPerHour_value in H. lia.
Qed.

(** A walk that ends below the limit has taken every acceptable position
    of every day from [d] to the end of the horizon. *)
Lemma dayLoop_complete fuel d slots r :
  loop fuel d slots = Some r ->
  0 <= slotMinutes cfg ->
  slots `prefix_of` r
  /\ (slotCount r < slotLimit cfg ->
      forall d' k, d <= d' < horizonDays cfg -> 0 <= k ->
        acceptable tz now cfg byDay d' k ->
        In (slotAt cfg (cursorAt tz now cfg d' k)) r).
Proof.
  intros Hr Hstep. revert fuel d slots r Hr.
  apply (dayLoop_elim (fun d slots r =>
    slots `prefix_of` r
    /\ (slotCount r < slotLimit cfg ->
        forall d' k, d <= d' < horizonDays cfg -> 0 <= k ->
          acceptable tz now cfg byDay d' k ->
          In (slotAt cfg (cursorAt tz now cfg d' k)) r))).
  - intros d slots Hexit. split; [reflexivity|]. intros Hn d' k Hd'. lia.
  - intros d slots r _ _ Hw _ [IHp IH]. split; [assumption|].
    intros Hn d' k Hd' Hk Hacc.
    destruct (Z.eq_dec d' d) as [->|Hne]; [|apply IH; auto; lia].
    destruct Hacc as [H1 [_ [H3 _]]]. lia.
  - intros d slots slots' r _ _ _ Hs [IHp IH]. split.
    + etransitivity; [eapply scanDay_prefix; eassumption | assumption].
    + intros Hn d' k Hd' Hk Hacc.
      destruct (Z.eq_dec d' d) as [->|Hne]; [|apply IH; auto; lia].
      destruct Hacc as [H1 [H2 [H3 H4]]].
      apply list_elem_of_In. eapply elem_of_prefix; [|exact IHp].
      apply list_elem_of_In.
      apply (scanDay_complete _ _ _ _ _ _ _ _ Hs Hstep); auto.
      apply prefix_length in IHp. unfold slotCount in *. lia.
Qed.

Lemma dayLoop_total fuel d slots :
  0 < slotMinutes cfg ->
  (Z.to_nat (horizonDays cfg - d) < fuel)%nat ->
  exists r, loop fuel d slots = Some r.
Proof.
  intros Hstep. revert d slots.
  induction fuel as [|fuel IH]; intros d slots Hfuel; [lia|]. simpl.
  destruct (Z.ltb_spec d (horizonDays cfg)) as [Hd|Hd]; simpl; [|eauto].
  destruct (slotCount slots <? slotLimit cfg); simpl; [|eauto].
  destruct (_ && _); [apply IH; lia|].
  destruct (scanDay_total now cfg (workEnd d) (bucket d)
              (scanFuel cfg (workStart d) (workEnd d)) (workStart d) slots Hstep)
    as [slots' ->]; [now apply scanFuel_enough|].
  apply IH. lia.
Qed.

(** Skipping a day is scanning it and taking nothing. *)
Lemma dayLoop_scanning_eq fuel d slots :
  0 < slotMinutes cfg ->
  loop fuel d slots = dayLoop_scanning tz now cfg byDay fuel d slots.
Proof.
  intros Hstep. revert d slots.
  induction fuel as [|fuel IH]; intros d slots; [reflexivity|]. simpl.
  destruct (_ && _); [|reflexivity].
  destruct (Z.leb_spec (workEnd d) earliest) as [Hw|Hw]; simpl.
  - destruct (scanDay_total now cfg (workEnd d) (bucket d)
                (scanFuel cfg (workStart d) (workEnd d)) (workStart d) slots Hstep)
      as [slots' Hs]; [now apply scanFuel_enough|].
    rewrite Hs. rewrite (scanDay_past _ _ _ _ _ _ _ _ Hs Hw).
    destruct (_ <=? _); apply IH.
  - destruct (scanOf d slots); [apply IH | reflexivity].
Qed.

End DayLoop.

(** ** The route *)

Lemma generateSlots_total tz now cfg intervals :
  ConfigInRange cfg -> exists slots, generateSlots tz now cfg intervals = Some slots.
Proof.
  intros [_ Hstep Hdays _ _]. unfold generateSlots.
  apply dayLoop_total; [lia|]. unfold dayFuel. lia.
Qed.

Lemma generateSlots_scanning_eq tz now cfg intervals :
  ConfigInRange cfg ->
  generateSlots tz now cfg intervals = generateSlots_scanning tz now cfg intervals.
Proof.
  intros [_ Hstep _ _ _]. unfold generateSlots, generateSlots_scanning.
  apply dayLoop_scanning_eq. lia.
Qed.

Lemma run_bind {A B : Type} (w : World) (p : Prog A) (f : A -> Prog B) :
  run w (bind p f)
  = (fst (run w (f (fst (run w p)))),
     snd (run w p) ++ snd (run w (f (fst (run w p))))).
Proof.
  induction p as [a|k IH|n k IH|l m k IH]; simpl.
  - now destruct (run w (f a)).
  - rewrite IH. now destruct (run w (k (listMeetings w))).
  - rewrite IH. now destruct (run w (k (fetchNotionEvents w n))).
  - rewrite IH. now destruct (run w k).
Qed.

(** What [buildBusyIntervals] does in a world: both fetches are issued;
    a failing calendar is logged and counts for no interval, a failing
    meeting store rejects the whole. *)
Lemma run_buildBusyIntervals w :
  run w buildBusyIntervals
  = (match listMeetings w with
     | Resolved ms =>
         Resolved (omap meetingInterval ms
                   ++ match fetchNotionEvents w 100 with
                      | Resolved events => omap notionInterval events
                      | Rejected _ => []
                      end)
     | Rejected err => Rejected err
     end,
     [EvListMeetings; EvFetchNotionEvents 100]
     ++ match fetchNotionEvents w 100 with
        | Resolved _ => []
        | Rejected err =>
            [EvConsoleError "Failed to load Notion events for availability:" err]
        end).
Proof.
  unfold buildBusyIntervals. simpl.
  destruct (fetchNotionEvents w 100), (listMeetings w); reflexivity.
Qed.

(** A response of [GET] with a payload comes from the intervals of the
    world, through the generator. *)
Lemma GET_ok_inv env q now w body t :
  run w (GET env q now) = (Some (JsonOk body), t) ->
  exists intervals,
    busyIntervalsOf w = Resolved intervals
    /\ generateSlots (tzOffset env) now (resolveConfig env q) intervals
       = Some (slots body).
Proof.
  unfold GET, busyIntervalsOf.
  destruct (_ <=? _); [discriminate|].
  unfold mbind, Prog_bind. rewrite run_bind.
  destruct (fst (run w buildBusyIntervals)) as [intervals|err]; simpl.
  - destruct (generateSlots _ _ _ intervals) as [slots|] eqn:Hg; simpl.
    + intros [= <- _]. eauto.
    + discriminate.
  - discriminate.
Qed.

(** [GET] answers every request: no loop runs out of fuel. *)
Lemma GET_responds env q now w :
  exists resp t, run w (GET env q now) = (Some resp, t).
Proof.
  unfold GET. destruct (_ <=? _); [simpl; eauto|].
  unfold mbind, Prog_bind. rewrite run_bind.
  destruct (fst (run w buildBusyIntervals)) as [intervals|err]; simpl; [|eauto].
  destruct (generateSlots_total (tzOffset env) now (resolveConfig env q) intervals
              (resolveConfig_in_range env q)) as [slots ->].
  simpl. eauto.
Qed.

(** C6: with work hours that end at or before their start the route
    answers 500 with the single field [error]; the program is that answer
    and nothing else, so no collaborator is asked, nothing is logged and no
    slot is generated. *)
Theorem invalid_hours_rejected (env : ProcessEnv) (q : Query) (now : Z) :
  DEFAULT_WORK_END_HOUR env <= DEFAULT_WORK_START_HOUR env ->
  GET env q now
  = Ret (Some (JsonError 500 "Invalid availability hours configuration"))
  /\ forall w,
      run w (GET env q now)
      = (Some (JsonError 500 "Invalid availability hours configuration"), []).
Proof.
  intros Hhours.
  assert (Hget : GET env q now
                 = Ret (Some (JsonError 500 "Invalid availability hours configuration"))).
  { unfold GET. simpl.
    destruct (Z.leb_spec (DEFAULT_WORK_END_HOUR env) (DEFAULT_WORK_START_HOUR env));
      [reflexivity | lia]. }
  split; [exact Hget|]. intros w. rewrite Hget. reflexivity.
Qed.

Lemma invalid_hours_rejected_witness :
  let env := mkEnv 0 (Some 9) (Some 8) None None None None None in
  let q := mkQuery Absent Absent Absent Absent Absent in
  let w := mkWorld (Resolved []) (fun _ => Resolved []) in
  GET env q 1709251200000
  = Ret (Some (JsonError 500 "Invalid availability hours configuration"))
  /\ run w (GET env q 1709251200000)
     = (Some (JsonError 500 "Invalid availability hours configuration"), []).
Proof.
  intros env q w.
  destruct (invalid_hours_rejected env q 1709251200000) as [Hget Hrun].
  - vm_compute. discriminate.
  - split; [exact Hget | exact (Hrun w)].
Defined.

(** A calendar that fails is answered like a calendar without events,
    whatever the meeting store and the configuration do. *)
Lemma failed_calendar_as_empty env q now w err :
  fetchNotionEvents w 100 = Rejected err ->
  fst (run w (GET env q now))
  = fst (run (mkWorld (listMeetings w) (fun _ => Resolved [])) (GET env q now)).
Proof.
  intros Hn. unfold GET. destruct (_ <=? _); [reflexivity|].
  unfold mbind, Prog_bind. rewrite !run_bind, !run_buildBusyIntervals, Hn.
  simpl. destruct (listMeetings w) as [ms|e]; [|reflexivity].
  destruct (generateSlots _ _ _ _); reflexivity.
Qed.

(** C4: when the calendar fetch throws, the route answers as it does for a
    calendar without events; with the meeting store answering and valid
    work hours, [buildBusyIntervals] yields the meeting-derived intervals
    alone, the failure is written to the console and nowhere else, and the
    route answers 200 with the slots generated from those intervals. *)
Theorem calendar_failure_degrades (env : ProcessEnv) (q : Query) (now : Z)
    (w : World) (ms : list Meeting) (err : string) :
  fetchNotionEvents w 100 = Rejected err ->
  fst (run w (GET env q now))
  = fst (run (mkWorld (listMeetings w) (fun _ => Resolved [])) (GET env q now))
  /\ (listMeetings w = Resolved ms ->
      DEFAULT_WORK_START_HOUR env < DEFAULT_WORK_END_HOUR env ->
      let log := [EvListMeetings; EvFetchNotionEvents 100;
                  EvConsoleError "Failed to load Notion events for availability:" err] in
      run w buildBusyIntervals = (Resolved (omap meetingInterval ms), log)
      /\ exists slots,
          generateSlots (tzOffset env) now (resolveConfig env q)
            (omap meetingInterval ms) = Some slots
          /\ run w (GET env q now)
             = (Some (JsonOk (payload now (resolveConfig env q) slots)), log)).
Proof.
  intros Hn. split; [eapply failed_calendar_as_empty, Hn|].
  intros Hm Hhours log.
  assert (Hbuild : run w buildBusyIntervals
                   = (Resolved (omap meetingInterval ms), log)).
  { rewrite run_buildBusyIntervals, Hm, Hn, app_nil_r. reflexivity. }
  split; [exact Hbuild|].
  destruct (generateSlots_total (tzOffset env) now (resolveConfig env q)
              (omap meetingInterval ms) (resolveConfig_in_range env q))
    as [slots Hslots].
  exists slots. split; [exact Hslots|].
  unfold GET. simpl workEndHour. simpl workStartHour.
  destruct (Z.leb_spec (DEFAULT_WORK_END_HOUR env) (DEFAULT_WORK_START_HOUR env));
    [lia|].
  unfold mbind, Prog_bind. rewrite run_bind, Hbuild. simpl fst. simpl snd.
  rewrite Hslots. simpl. subst log. reflexivity.
Qed.

Lemma calendar_failure_degrades_witness :
  let w := mkWorld
             (Resolved [mkMeeting (IsoInstant 1709287200000) IsoMissing None])
             (fun _ => Rejected "NOTION_API_KEY and NOTION_CALENDAR_DATABASE_ID must be set") in
  let q := mkQuery Absent Absent (Present (JInt 1)) (Present (JInt 3)) Absent in
  exists slots,
    run w (GET (plainEnv 0) q 1709276400000)
    = (Some (JsonOk (payload 1709276400000 (resolveConfig (plainEnv 0) q) slots)),
       [EvListMeetings; EvFetchNotionEvents 100;
        EvConsoleError "Failed to load Notion events for availability:"
          "NOTION_API_KEY and NOTION_CALENDAR_DATABASE_ID must be set"]).
Proof.
  intros w q.
  destruct (calendar_failure_degrades (plainEnv 0) q 1709276400000 w
              [mkMeeting (IsoInstant 1709287200000) IsoMissing None]
              "NOTION_API_KEY and NOTION_CALENDAR_DATABASE_ID must be set"
              eq_refl) as [_ H].
  destruct (H eq_refl eq_refl) as [_ [slots [_ Hrun]]].
  exists slots. exact Hrun.
Defined.

(** C8: the route with the day-skip test answers every request exactly as
    the route that scans every day, and so does the generator for every
    resolved configuration. *)
Theorem day_skip_is_scanning (env : ProcessEnv) (q : Query) (now : Z) :
  (forall intervals,
      generateSlots (tzOffset env) now (resolveConfig env q) intervals
      = generateSlots_scanning (tzOffset env) now (resolveConfig env q) intervals)
  /\ forall w, run w (GET env q now) = run w (GET_scanning env q now).
Proof.
  assert (Hgen : forall intervals,
      generateSlots (tzOffset env) now (resolveConfig env q) intervals
      = generateSlots_scanning (tzOffset env) now (resolveConfig env q) intervals).
  { intros. apply generateSlots_scanning_eq, resolveConfig_in_range. }
  split; [exact Hgen|]. intros w.
  unfold GET, GET_scanning. destruct (_ <=? _); [reflexivity|].
  unfold mbind, Prog_bind. rewrite !run_bind.
  destruct (fst (run w buildBusyIntervals)) as [intervals|err]; [|reflexivity].
  rewrite Hgen. reflexivity.
Qed.

(** C5, under the condition the code needs: when the work window spans at
    most 24 hours (workEndHour <= workStartHour + 24) the returned slots
    are in strictly ascending order of start: every adjacent pair has
    result[i].start < result[i+1].start, hence also <=. *)
Theorem slots_ascending (env : ProcessEnv) (q : Query) (now : Z)
    (w : World) (body : Availability) (t : list Event) :
  DEFAULT_WORK_END_HOUR env <= DEFAULT_WORK_START_HOUR env + 24 ->
  run w (GET env q now) = (Some (JsonOk body), t) ->
  forall (i : nat) a b,
    slots body !! i = Some a -> slots body !! S i = Some b ->
    slot_start a < slot_start b /\ slot_start a <= slot_start b.
Proof.
  intros Hhours Hrun i a b Ha Hb.
  destruct (GET_ok_inv _ _ _ _ _ _ Hrun) as [intervals [_ Hgen]].
  destruct (resolveConfig_in_range env q) as [_ Hstep _ _ _].
  enough (slot_start a < slot_start b) by lia.
  unfold generateSlots in Hgen.
  eapply dayLoop_ascending in Hgen.
  - apply (Hgen i (S i) a b); [lia | assumption | assumption].
  - lia.
  - exact Hhours.
  - apply ascending_nil.
  - intros x [].
Qed.

Lemma slots_ascending_witness :
  let w := mkWorld (Resolved [mkMeeting (IsoInstant 1709287200000) IsoMissing None])
             (fun _ => Resolved []) in
  let q := mkQuery Absent Absent (Present (JInt 1)) (Present (JInt 3)) Absent in
  exists body t a b,
    run w (GET (plainEnv 0) q 1709276400000) = (Some (JsonOk body), t)
    /\ slots body !! 0%nat = Some a /\ slots body !! 1%nat = Some b
    /\ slot_start a < slot_start b.
Proof.
  intros w q. eexists. eexists. eexists. eexists.
  split; [vm_compute; reflexivity|].
  split; [vm_compute; reflexivity|].
  split; [vm_compute; reflexivity|].
  refine (proj1 (slots_ascending (plainEnv 0) q 1709276400000 w _ _ _ _
                   0%nat _ _ _ _)).
  - vm_compute. easy.
  - vm_compute. reflexivity.
  - vm_compute. reflexivity.
  - vm_compute. reflexivity.
Defined.

(** C5 as stated fails on the route: with AVAILABILITY_END_HOUR=48 the
    work window of a day runs 40 hours, into the next day's; with two-hour
    slots, two days and limit=21 the twentieth slot starts at 22:00 of the
    second day and the twenty-first at 08:00 of that day. *)
Lemma slots_not_ascending_wide_window :
  let env := mkEnv 0 None (Some 48) None None None None None in
  let q := mkQuery (Present (JInt 120)) (Present (JInt 120)) (Present (JInt 2))
             (Present (JInt 21)) Absent in
  let w := mkWorld (Resolved []) (fun _ => Resolved []) in
  exists body t,
    run w (GET env q 1709251200000) = (Some (JsonOk body), t)
    /\ ~ (forall (i : nat) a b,
            slots body !! i = Some a -> slots body !! S i = Some b ->
            slot_start a < slot_start b).
Proof.
  intros env q w. eexists. eexists.
  split; [vm_compute; reflexivity|].
  intros H.
  specialize (H 19%nat _ _ eq_refl eq_refl). vm_compute in H. discriminate.
Qed.

(** Every returned slot lies in the work window of one day [d] of the
    horizon, is of the requested duration, starts no earlier than the lead
    time allows, and intersects no busy interval whose start has the day
    key of [d]. *)
Lemma slots_avoid_intervals_of_their_day env q now w body t :
  run w (GET env q now) = (Some (JsonOk body), t) ->
  let cfg := resolveConfig env q in
  let tz := tzOffset env in
  exists intervals,
    busyIntervalsOf w = Resolved intervals
    /\ forall s, In s (slots body) ->
         exists d, 0 <= d < horizonDays cfg
           /\ workStartOf tz now cfg d <= slot_start s
           /\ slot_end s <= workEndOf tz now cfg d
           /\ slot_end s = addMinutes (slot_start s) (durationMinutes cfg)
           /\ earliestAllowedStart now cfg <= slot_start s
           /\ forall i, In i intervals ->
                dayKey tz (bi_start i) = dayKey tz (startOfDay tz now d) ->
                ~ intersects s i.
Proof.
  intros Hrun cfg tz. subst cfg tz.
  destruct (GET_ok_inv _ _ _ _ _ _ Hrun) as [intervals [Hw Hgen]].
  exists intervals. split; [exact Hw|]. intros s Hs.
  destruct (resolveConfig_in_range env q) as [_ Hstep _ _ _].
  unfold generateSlots in Hgen.
  destruct (dayLoop_sound _ _ _ _ _ _ _ _ Hgen ltac:(lia) s Hs)
    as [[]|[d [Hd [Hs1 [Hs2 [Hs3 [Hs4 Hs5]]]]]]].
  exists d. repeat split; try lia.
  - rewrite Hs1 at 1. reflexivity.
  - intros i Hi Hkey [H1 H2].
    rewrite overlaps_false_iff in Hs5. apply (Hs5 i); [|lia].
    rewrite bucketOf_day, indexByDay_lookup.
    apply list_elem_of_In, list_elem_of_filter. split; [exact Hkey|].
    now apply list_elem_of_In.
Qed.

(** C1 fails on the route for an interval that starts on an earlier day.
    A calendar event from 2024-02-29 09:00 to 2024-03-01 17:00 (UTC) is
    filed under 2024-02-29 only; a request at 2024-03-01 06:00 with the
    default configuration is offered 08:00-08:30 of 2024-03-01, inside the
    event. *)
Theorem cross_midnight_interval_missed :
  let event := mkEvent (IsoInstant 1709197200000) (IsoInstant 1709312400000)
                 "Trade fair" in
  let w := mkWorld (Resolved []) (fun _ => Resolved [event]) in
  let q := mkQuery Absent Absent Absent Absent Absent in
  let busy := mkBusy 1709197200000 1709312400000 (Some "Trade fair"%string) notion in
  let offered := mkSlot 1709280000000 1709281800000 30 in
  exists body t,
    run w (GET (plainEnv 0) q 1709272800000) = (Some (JsonOk body), t)
    /\ busyIntervalsOf w = Resolved [busy]
    /\ dayKey 0 (bi_start busy) = "2024-02-29"%string
    /\ dayKey 0 (slot_start offered) = "2024-03-01"%string
    /\ In offered (slots body)
    /\ intersects offered busy
    /\ overlaps (slot_start offered) (slot_end offered) [busy] = true.
Proof.
  intros event w q busy offered. eexists. eexists.
  split; [vm_compute; reflexivity|].
  split; [vm_compute; reflexivity|].
  split; [vm_compute; reflexivity|].
  split; [vm_compute; reflexivity|].
  split; [left; reflexivity|].
  split; [vm_compute; split; reflexivity|].
  vm_compute. reflexivity.
Qed.

(** ** The places store *)

Module PlacesDbFacts.
Import PlacesDb.

Lemma isCallStatus_valid v : isCallStatus v = true <-> validStatus v.
Proof.
  unfold validStatus, isCallStatus. destruct v;
    try (split; [discriminate | intros [s' [? _]]; discriminate]).
  rewrite existsb_exists. split.
  - intros [x [Hin Heq]]. apply String.eqb_eq in Heq as <-. eauto.
  - intros [s' [[= <-] Hin]]. exists s. split; [assumption | apply String.eqb_refl].
Qed.

Lemma sanitizeCallStatus_valid v : validStatus (sanitizeCallStatus v).
Proof.
  unfold sanitizeCallStatus. destruct (isCallStatus v) eqn:Hv.
  - now apply isCallStatus_valid.
  - apply isCallStatus_valid. reflexivity.
Qed.

(** A status that [sanitizeCallStatus] leaves as it is was valid. *)
Lemma sanitize_unchanged_valid v :
  strictEq v (sanitizeCallStatus v) = true -> validStatus v.
Proof.
  unfold sanitizeCallStatus. destruct (isCallStatus v) eqn:Hv.
  - intros _. now apply isCallStatus_valid.
  - destruct v; simpl; try discriminate.
    intros Heq. apply String.eqb_eq in Heq as ->. discriminate.
Qed.

Lemma normalizeEntry_eq db mutated k v :
  normalizeEntry (db, mutated) (k, v)
  = (<[k := {| key := k;
               name := orElse (optProp v "name") (VStr "");
               phoneNumber := orElse (optProp v "phoneNumber") VNull;
               websiteUri := orElse (optProp v "websiteUri") VNull;
               websiteCategory := orElse (optProp v "websiteCategory") (VStr "none");
               callStatus := sanitizeCallStatus (optProp v "callStatus") |}]> db,
     if negb (strictEq (optProp v "callStatus")
                (sanitizeCallStatus (optProp v "callStatus")))
     then true else mutated).
Proof. reflexivity. Qed.

(** The loop of [ensureDb]: the result holds valid statuses only, each the
    sanitized status of an entry; and when nothing was changed every entry
    had a valid status already. *)
Lemma normalize_fold entries : forall db mutated,
  dbOk db ->
  let result := fold_left normalizeEntry entries (db, mutated) in
  dbOk (fst result)
  /\ (snd result = false ->
      mutated = false
      /\ forall k rec, In (k, rec) entries -> validStatus (optProp rec "callStatus"))
  /\ (forall k p, fst result !! k = Some p ->
        db !! k = Some p
        \/ exists rec, In (k, rec) entries
             /\ callStatus p = sanitizeCallStatus (optProp rec "callStatus")).
Proof.
  induction entries as [|[k v] entries IH]; intros db mutated Hdb result;
    subst result.
  - simpl. repeat split; auto. intros _ _ [].
  - cbn [fold_left]. rewrite normalizeEntry_eq.
    match goal with |- context [fold_left _ _ (?d, ?m)] =>
      destruct (IH d m) as [IH1 [IH2 IH3]] end.
    { apply map_Forall_insert_2; [apply sanitizeCallStatus_valid | exact Hdb]. }
    split; [exact IH1|]. split.
    + intros Hres. destruct (IH2 Hres) as [Hm Hrest].
      destruct (strictEq _ _) eqn:Hs; simpl in Hm; [|discriminate].
      split; [exact Hm|]. intros k' rec [[= <- <-]|Hin].
      * now apply sanitize_unchanged_valid.
      * eapply Hrest, Hin.
    + intros k' p Hp. destruct (IH3 k' p Hp) as [Hins|[rec [Hin Hrec]]].
      * destruct (decide (k = k')) as [<-|Hne].
        -- rewrite lookup_insert_eq in Hins. injection Hins as <-.
           right. exists v. split; [now left | reflexivity].
        -- rewrite lookup_insert_ne in Hins by assumption. now left.
      * right. exists rec. split; [now right | exact Hrec].
Qed.

Lemma storedRecords_written db :
  storedRecords (Holds (dbToJson db))
  = map (fun kp => (fst kp, placeToJson (snd kp))) (map_to_list db).
Proof. reflexivity. Qed.

Lemma callStatus_written p : optProp (placeToJson p) "callStatus" = callStatus p.
Proof. reflexivity. Qed.

Lemma storedOk_written db : dbOk db -> storedOk (Holds (dbToJson db)).
Proof.
  intros Hdb k rec. rewrite storedRecords_written, in_map_iff.
  intros [[k' p] [[= <- <-] Hin]]. rewrite callStatus_written.
  apply list_elem_of_In, elem_of_map_to_list in Hin. exact (Hdb _ _ Hin).
Qed.

Lemma dbOk_empty : dbOk ∅.
Proof. apply map_Forall_empty. Qed.

(** [ensureDb] always answers; what it answers holds valid statuses only,
    each the sanitized status of a stored record, and it leaves a file
    whose records are valid. *)
Lemma ensureDb_spec fs :
  exists db fs',
    ensureDb fs = (Resolved db, fs')
    /\ dbOk db /\ storedOk fs'
    /\ forall k p, db !! k = Some p ->
         exists rec, In (k, rec) (storedRecords fs)
           /\ callStatus p = sanitizeCallStatus (optProp rec "callStatus").
Proof.
  assert (Hinit : exists db fs',
    (Resolved (∅ : gmap string DbPlace), Holds (dbToJson ∅)) = (Resolved db, fs')
    /\ dbOk db /\ storedOk fs'
    /\ forall k p, db !! k = Some p ->
         exists rec, In (k, rec) (storedRecords fs)
           /\ callStatus p = sanitizeCallStatus (optProp rec "callStatus")).
  { exists ∅, (Holds (dbToJson ∅)). split; [reflexivity|].
    split; [apply dbOk_empty|]. split; [apply storedOk_written, dbOk_empty|].
    intros k p Hp. rewrite lookup_empty in Hp. discriminate. }
  destruct fs as [| |parsed]; try exact Hinit.
  unfold ensureDb, tryCatch, mbind, Fs_bind, fsBind, readJson, liftOutcome, member.
  destruct (nullish parsed) eqn:Hnull; [exact Hinit|].
  pose proof (normalize_fold
                (objectEntries (orElse (getProp parsed "places") (VObj [])))
                ∅ false dbOk_empty) as Hfold.
  cbn zeta in Hfold.
  destruct (fold_left normalizeEntry _ (∅, false)) as [normalized mutated].
  simpl in Hfold. destruct Hfold as [H1 [H2 H3]].
  assert (Hload : forall k p, normalized !! k = Some p ->
            exists rec, In (k, rec) (storedRecords (Holds parsed))
              /\ callStatus p = sanitizeCallStatus (optProp rec "callStatus")).
  { intros k p Hp. destruct (H3 k p Hp) as [He|H]; [|simpl; now rewrite Hnull].
    rewrite lookup_empty in He. discriminate. }
  destruct mutated.
  - exists normalized, (Holds (dbToJson normalized)).
    split; [reflexivity|]. split; [exact H1|].
    split; [now apply storedOk_written | exact Hload].
  - exists normalized, (Holds parsed). split; [reflexivity|]. split; [exact H1|].
    split; [|exact Hload].
    intros k rec. simpl. rewrite Hnull. apply (proj2 (H2 eq_refl)).
Qed.


Lemma returnedOk_error status message : returnedOk (Error status message).
Proof. intros p []. Qed.

Section Handlers.
Variables trim toLowerCase : string -> string.

Local Abbreviation settled resp fs fs' :=
  (returnedOk resp /\ (storedOk fs' \/ (turnedAway resp /\ fs' = fs))).

Lemma GET_spec fs :
  settled (fst (handle trim toLowerCase ReqGET fs)) fs
          (snd (handle trim toLowerCase ReqGET fs)).
Proof.
  unfold handle, GET, mbind, Fs_bind, fsBind.
  destruct (ensureDb_spec fs) as [db [fs' [-> [Hdb [Hst _]]]]]. simpl.
  split; [|now left].
  intros p Hp. apply in_map_iff in Hp as [[k p'] [<- Hin]].
  apply list_elem_of_In, elem_of_map_to_list in Hin. exact (Hdb _ _ Hin).
Qed.

Lemma POST_spec body fs :
  settled (fst (handle trim toLowerCase (ReqPOST body) fs)) fs
          (snd (handle trim toLowerCase (ReqPOST body) fs)).
Proof.
  unfold handle, POST, caught, tryCatch, mbind, Fs_bind, fsBind, liftOutcome,
    mret, Fs_ret, fsRet, saveDb, writeJson.
  destruct (reqJson body) as [v|e].
  2:{ simpl. split; [apply returnedOk_error|]. right. split; [|reflexivity].
      exists e. now right. }
  destruct (member v "place") as [place|e].
  2:{ simpl. split; [apply returnedOk_error|]. right. split; [|reflexivity].
      exists e. now right. }
  destruct (_ || _).
  { simpl. split; [apply returnedOk_error|]. right. split; [|reflexivity].
    eexists. now left. }
  destruct (_ && _).
  { simpl. split; [apply returnedOk_error|]. right. split; [|reflexivity].
    eexists. now left. }
  destruct (computePlaceKey _ _ _ _) as [k|e].
  2:{ simpl. split; [apply returnedOk_error|]. right. split; [|reflexivity].
      exists e. now right. }
  destruct (ensureDb_spec fs) as [db [fs' [-> [Hdb [Hst _]]]]].
  destruct (db !! k) as [stored|] eqn:Hk; simpl.
  - split; [|now left]. intros p [<-|[]]. exact (Hdb _ _ Hk).
  - split.
    + intros p [<-|[]]. apply sanitizeCallStatus_valid.
    + left. apply storedOk_written, map_Forall_insert_2; [|exact Hdb].
      apply sanitizeCallStatus_valid.
Qed.

Lemma PATCH_spec body fs :
  settled (fst (handle trim toLowerCase (ReqPATCH body) fs)) fs
          (snd (handle trim toLowerCase (ReqPATCH body) fs)).
Proof.
  unfold handle, PATCH, caught, tryCatch, mbind, Fs_bind, fsBind, liftOutcome,
    mret, Fs_ret, fsRet, saveDb, writeJson.
  destruct (reqJson body) as [v|e].
  2:{ simpl. split; [apply returnedOk_error|]. right. split; [|reflexivity].
      exists e. now right. }
  destruct (trimmedKey trim v) as [kv|e].
  2:{ simpl. split; [apply returnedOk_error|]. right. split; [|reflexivity].
      exists e. now right. }
  destruct kv as [| | | |k| |];
    try (simpl; split; [apply returnedOk_error|]; right; split; [|reflexivity];
         eexists; now left).
  destruct (String.eqb k "").
  { simpl. split; [apply returnedOk_error|]. right. split; [|reflexivity].
    eexists. now left. }
  destruct (isCallStatus (getProp v "callStatus")) eqn:Hstatus; cbn [negb]; cbv beta iota.
  2:{ simpl. split; [apply returnedOk_error|]. right. split; [|reflexivity].
      eexists. now left. }
  apply isCallStatus_valid in Hstatus.
  destruct (ensureDb_spec fs) as [db [fs' [-> [Hdb [Hst _]]]]].
  destruct (db !! k) as [existing|] eqn:Hk; simpl.
  - split.
    + intros p [<-|[]]. exact Hstatus.
    + left. apply storedOk_written, map_Forall_insert_2; [exact Hstatus | exact Hdb].
  - split; [apply returnedOk_error | now left].
Qed.

Lemma DELETE_spec body fs :
  settled (fst (handle trim toLowerCase (ReqDELETE body) fs)) fs
          (snd (handle trim toLowerCase (ReqDELETE body) fs)).
Proof.
  unfold handle, DELETE, caught, tryCatch, mbind, Fs_bind, fsBind, liftOutcome,
    mret, Fs_ret, fsRet, saveDb, writeJson.
  destruct (reqJson body) as [v|e].
  2:{ simpl. split; [apply returnedOk_error|]. right. split; [|reflexivity].
      exists e. now right. }
  destruct (trimmedKey trim v) as [kv|e].
  2:{ simpl. split; [apply returnedOk_error|]. right. split; [|reflexivity].
      exists e. now right. }
  destruct kv as [| | | |k| |];
    try (simpl; split; [apply returnedOk_error|]; right; split; [|reflexivity];
         eexists; now left).
  destruct (String.eqb k "").
  { simpl. split; [apply returnedOk_error|]. right. split; [|reflexivity].
    eexists. now left. }
  destruct (ensureDb_spec fs) as [db [fs' [-> [Hdb [Hst _]]]]].
  destruct (db !! k) as [existing|] eqn:Hk; simpl.
  - split; [intros p []|]. left. apply storedOk_written.
    now apply map_Forall_delete.
  - split; [intros p [] | now left].
Qed.

Lemma handle_spec r fs :
  settled (fst (handle trim toLowerCase r fs)) fs
          (snd (handle trim toLowerCase r fs)).
Proof.
  destruct r; [apply GET_spec | apply POST_spec | apply PATCH_spec | apply DELETE_spec].
Qed.
End Handlers.

(** The loop of [ensureDb] leaves alone the keys it does not meet. *)
Lemma fold_untouched entries : forall db mutated k,
  ~ In k (map fst entries) ->
  fst (fold_left normalizeEntry entries (db, mutated)) !! k = db !! k.
Proof.
  induction entries as [|[k0 v] entries IH]; intros db mutated k Hk; [reflexivity|].
  cbn [fold_left]. rewrite normalizeEntry_eq, IH.
  - apply lookup_insert_ne. intros ->. apply Hk. now left.
  - intros Hin. apply Hk. now right.
Qed.

(** Every entry is in the result under its key, with the sanitized
    status. *)
Lemma fold_keeps entries : forall db mutated,
  List.NoDup (map fst entries) ->
  forall k rec, In (k, rec) entries ->
    exists p,
      fst (fold_left normalizeEntry entries (db, mutated)) !! k = Some p
      /\ key p = k
      /\ callStatus p = sanitizeCallStatus (optProp rec "callStatus").
Proof.
  induction entries as [|[k0 v] entries IH]; intros db mutated Hnd k rec Hin;
    [destruct Hin|].
  cbn [map fst] in Hnd. apply List.NoDup_cons_iff in Hnd as [Hk0 Hnd].
  cbn [fold_left]. rewrite normalizeEntry_eq.
  destruct Hin as [[= -> ->]|Hin].
  - rewrite fold_untouched by exact Hk0. rewrite lookup_insert_eq.
    eexists. split; [reflexivity|]. split; reflexivity.
  - apply IH; assumption.
Qed.

Lemma sanitize_valid v : validStatus v -> sanitizeCallStatus v = v.
Proof.
  intros Hv. apply isCallStatus_valid in Hv. unfold sanitizeCallStatus.
  now rewrite Hv.
Qed.

(** [ensureDb] loses no record: every stored record is in the loaded
    store under its key with the sanitized status, and in the file
    afterwards with that status. *)
Lemma ensureDb_keeps fs :
  exists db fs1,
    ensureDb fs = (Resolved db, fs1)
    /\ (List.NoDup (map fst (storedRecords fs)) ->
        forall k rec, In (k, rec) (storedRecords fs) ->
          (exists p, db !! k = Some p /\ key p = k
             /\ callStatus p = sanitizeCallStatus (optProp rec "callStatus"))
          /\ exists rec', In (k, rec') (storedRecords fs1)
               /\ optProp rec' "callStatus"
                  = sanitizeCallStatus (optProp rec "callStatus")).
Proof.
  assert (Hinit : storedRecords fs = [] ->
    exists db fs1,
      (Resolved (∅ : gmap string DbPlace), Holds (dbToJson ∅)) = (Resolved db, fs1)
      /\ (List.NoDup (map fst (storedRecords fs)) ->
          forall k rec, In (k, rec) (storedRecords fs) ->
            (exists p, db !! k = Some p /\ key p = k
               /\ callStatus p = sanitizeCallStatus (optProp rec "callStatus"))
            /\ exists rec', In (k, rec') (storedRecords fs1)
                 /\ optProp rec' "callStatus"
                    = sanitizeCallStatus (optProp rec "callStatus"))).
  { intros ->. exists ∅, (Holds (dbToJson ∅)). split; [reflexivity|].
    intros _ k rec []. }
  destruct fs as [| |parsed]; try (apply Hinit; reflexivity).
  unfold ensureDb, tryCatch, mbind, Fs_bind, fsBind, readJson, liftOutcome, member.
  destruct (nullish parsed) eqn:Hnull.
  { apply Hinit. simpl. now rewrite Hnull. }
  assert (Hrec : storedRecords (Holds parsed)
                 = objectEntries (orElse (getProp parsed "places") (VObj []))).
  { simpl. now rewrite Hnull. }
  rewrite Hrec. set (entries := objectEntries _).
  pose proof (normalize_fold entries ∅ false dbOk_empty) as Hfold.
  pose proof (fold_keeps entries ∅ false) as Hkeep.
  cbn zeta in Hfold.
  destruct (fold_left normalizeEntry entries (∅, false)) as [normalized mutated].
  simpl in Hfold, Hkeep. destruct Hfold as [H1 [H2 H3]].
  destruct mutated.
  - exists normalized, (Holds (dbToJson normalized)). split; [reflexivity|].
    intros Hnd k rec Hin. destruct (Hkeep Hnd k rec Hin) as [p [Hp [Hk Hs]]].
    split; [exists p; auto|].
    exists (placeToJson p). split; [|rewrite callStatus_written; exact Hs].
    rewrite storedRecords_written. apply in_map_iff. exists (k, p).
    split; [reflexivity|]. now apply list_elem_of_In, elem_of_map_to_list.
  - exists normalized, (Holds parsed). split; [reflexivity|].
    intros Hnd k rec Hin. destruct (Hkeep Hnd k rec Hin) as [p [Hp [Hk Hs]]].
    split; [exists p; auto|].
    exists rec. rewrite Hrec. split; [exact Hin|].
    symmetry. apply sanitize_valid. exact (proj2 (H2 eq_refl) k rec Hin).
Qed.




End PlacesDbFacts.

(** * Further properties of the availability route *)

(** ** Day keys *)

Ltac div_lia := Z.div_mod_to_equations; lia.

(** [civilFromDays] yields a month from 1 to 12 and a day from 1 to 31, and
    [daysFromCivil] takes the date back to the day number. *)
Lemma civilFromDays_spec days :
  (1 <= snd (fst (civilFromDays days)) <= 12
   /\ 1 <= snd (civilFromDays days) <= 31)
  /\ daysFromCivil (civilFromDays days) = days.
Proof.
  unfold civilFromDays.
  set (z := days + 719468).
  set (era := z / 146097).
  set (doe := z - era * 146097).
  set (yoe := (doe - doe / 1460 + doe / 36524 - doe / 146096) / 365).
  set (doy := doe - (365 * yoe + yoe / 4 - yoe / 100)).
  set (mp := (5 * doy + 2) / 153).
  assert (Hdoe : 0 <= doe <= 146096) by (subst doe era; div_lia).
  assert (Hyoe : 0 <= yoe <= 399) by (subst yoe; clearbody doe; div_lia).
  assert (Hdoy : 0 <= doy <= 365) by (subst doy yoe; clearbody doe; div_lia).
  assert (Hmp : 0 <= mp <= 11) by (subst mp; clearbody doy; div_lia).
  assert (Hd : 1 <= doy - (153 * mp + 2) / 5 + 1 <= 31)
    by (subst mp; clearbody doy; div_lia).
  assert (Hera : (yoe + era * 400) / 400 = era) by (clearbody yoe era; div_lia).
  assert (Hback : (153 * mp + 2) / 5 + (doy - (153 * mp + 2) / 5 + 1) - 1 = doy)
    by lia.
  cbv zeta. unfold daysFromCivil.
  destruct (Z.ltb_spec mp 10) as [Hlt|Hge].
  - destruct (Z.leb_spec (mp + 3) 2); [lia|].
    destruct (Z.gtb_spec (mp + 3) 2); [|lia].
    cbn [fst snd]. split; [lia|].
    rewrite Hera. replace (mp + 3 - 3) with mp by lia. rewrite Hback.
    replace (yoe + era * 400 - era * 400) with yoe by lia.
    subst doy doe z. lia.
  - destruct (Z.leb_spec (mp - 9) 2); [|lia].
    destruct (Z.gtb_spec (mp - 9) 2); [lia|].
    cbn [fst snd]. split; [lia|].
    replace (yoe + era * 400 + 1 - 1) with (yoe + era * 400) by lia.
    rewrite Hera. replace (mp - 9 + 9) with mp by lia. rewrite Hback.
    replace (yoe + era * 400 - era * 400) with yoe by lia.
    subst doy doe z. lia.
Qed.

Lemma civilFromDays_inj a b : civilFromDays a = civilFromDays b -> a = b.
Proof.
  intros H. rewrite <- (proj2 (civilFromDays_spec a)), H.
  apply civilFromDays_spec.
Qed.

Ltac enumerate n lo hi :=
  first
    [ let H := fresh in
      assert (H : lo = hi) by reflexivity; clear H;
      replace n with lo in * by lia
    | let H := fresh in
      destruct (Z.eq_dec n lo) as [H|H];
      [ rewrite H in *
      | let lo' := eval vm_compute in (lo + 1) in enumerate n lo' hi ] ].

Lemma pad2_spec n :
  1 <= n <= 31 -> String.length (pad2 n) = 2%nat /\ unpad2 (pad2 n) = n.
Proof.
  intros Hn. enumerate n 1 31; vm_compute; split; reflexivity.
Qed.

Lemma string_app_inj_length (s1 s2 t1 t2 : string) :
  String.length s1 = String.length s2 ->
  (s1 +:+ t1 = s2 +:+ t2)%string -> s1 = s2 /\ t1 = t2.
Proof.
  revert s2. induction s1 as [|c s1 IH]; intros [|c' s2]; simpl;
    try discriminate.
  - auto.
  - intros [= Hlen] [= -> Heq]. destruct (IH s2 Hlen Heq) as [-> ->]. auto.
Qed.

Lemma string_length_app (s t : string) :
  String.length (s +:+ t) = (String.length s + String.length t)%nat.
Proof. induction s as [|c s IH]; simpl; [reflexivity | now rewrite IH]. Qed.

Lemma string_app_inj_suffix (s1 s2 t1 t2 : string) :
  String.length t1 = String.length t2 ->
  (s1 +:+ t1 = s2 +:+ t2)%string -> s1 = s2 /\ t1 = t2.
Proof.
  intros Hlen Heq. apply string_app_inj_length; [|exact Heq].
  apply (f_equal String.length) in Heq.
  rewrite !string_length_app in Heq. lia.
Qed.

(** Two instants have the same day key exactly when they fall on the same
    local calendar day. *)
Theorem dayKey_same_day (tz a b : Z) :
  dayKey tz a = dayKey tz b <-> localDay tz a = localDay tz b.
Proof.
  split; [|unfold dayKey; now intros ->].
  unfold dayKey. intros Hkey. apply civilFromDays_inj.
  pose proof (proj1 (civilFromDays_spec (localDay tz a))) as [Hma Hda].
  pose proof (proj1 (civilFromDays_spec (localDay tz b))) as [Hmb Hdb].
  destruct (civilFromDays (localDay tz a)) as [[ya ma] da].
  destruct (civilFromDays (localDay tz b)) as [[yb mb] db].
  cbn [fst snd] in *.
  destruct (pad2_spec ma ltac:(lia)) as [Lma Uma], (pad2_spec mb ltac:(lia)) as [Lmb Umb].
  destruct (pad2_spec da Hda) as [Lda Uda], (pad2_spec db Hdb) as [Ldb Udb].
  apply string_app_inj_suffix in Hkey as [Hy Hrest].
  2:{ simpl. rewrite !string_length_app. simpl. lia. }
  apply (inj pretty) in Hy.
  apply String.app_inj in Hrest.
  apply string_app_inj_length in Hrest as [Hm Hd]; [|lia].
  apply String.app_inj in Hd.
  congruence.
Qed.

(** [startOfDay(base, d)] is the local midnight that opens the [d]-th day
    after the day of [base]: [base] lies in day 0, consecutive days are 24
    hours apart, and an instant belongs to day [d] exactly when its local
    calendar day is [d] days after that of [base]. *)
Theorem startOfDay_opens_the_day (tz base d t : Z) :
  startOfDay tz base 0 <= base < startOfDay tz base 1
  /\ startOfDay tz base (d + 1) = startOfDay tz base d + 24 * 60 * 60 * 1000
  /\ dayKey tz (startOfDay tz base 0) = dayKey tz base
  /\ (startOfDay tz base d <= t < startOfDay tz base (d + 1)
      <-> localDay tz t = localDay tz base + d).
Proof.
  assert (Hkey : localDay tz (startOfDay tz base 0) = localDay tz base)
    by (rewrite localDay_startOfDay; lia).
  split; [|split; [|split]].
  - unfold startOfDay, addDays, setHours, utcOfLocal, localDay, localTime.
    rewrite msPerDay_value, msPerHour_value, msPerMinute_value. div_lia.
  - unfold startOfDay, addDays. rewrite msPerDay_value. lia.
  - apply dayKey_same_day, Hkey.
  - unfold startOfDay, addDays, setHours, utcOfLocal, localDay, localTime.
    rewrite msPerDay_value, msPerHour_value, msPerMinute_value. div_lia.
Qed.

(** The bucket consulted for day [d] of the walk holds exactly the
    intervals whose start falls on that local calendar day, in the order
    in which they were indexed. *)
Theorem bucket_holds_the_intervals_of_the_day (tz now d : Z)
    (intervals : list BusyInterval) :
  bucketOf tz now (indexByDay tz intervals) d
  = filter (fun i => localDay tz (bi_start i) = localDay tz now + d) intervals.
Proof.
  rewrite bucketOf_day, indexByDay_lookup.
  apply list_filter_iff. intros i.
  rewrite dayKey_same_day, localDay_startOfDay. reflexivity.
Qed.

(** ** Returned slots are candidates of the walk *)

Lemma scanDay_grid now cfg workEnd bucket fuel cursor slots r :
  scanDay now cfg fuel workEnd bucket cursor slots = Some r ->
  forall x, In x r ->
    In x slots
    \/ exists k, 0 <= k
         /\ slot_start x = cursor + k * (slotMinutes cfg * 60 * 1000).
Proof.
  revert fuel cursor slots r.
  apply (scanDay_elim now cfg workEnd bucket (fun cursor slots r =>
    forall x, In x r ->
      In x slots
      \/ exists k, 0 <= k
           /\ slot_start x = cursor + k * (slotMinutes cfg * 60 * 1000))); auto.
  - intros cursor slots r _ _ _ _ IH x Hx.
    destruct (IH x Hx) as [|[k [Hk Hs]]]; [now left|right].
    exists (k + 1). unfold addMinutes in Hs. split; lia.
  - intros cursor slots r _ _ _ _ _ IH x Hx.
    destruct (IH x Hx) as [Hin|[k [Hk Hs]]].
    + apply in_app_or in Hin as [|[<-|[]]]; [now left|right].
      exists 0. simpl. split; lia.
    + right. exists (k + 1). unfold addMinutes in Hs. split; lia.
Qed.

Lemma dayLoop_candidates tz now cfg byDay fuel d slots r :
  dayLoop tz now cfg byDay fuel d slots = Some r ->
  0 <= slotMinutes cfg ->
  forall x, In x r ->
    In x slots
    \/ exists d' k, d <= d' < horizonDays cfg /\ 0 <= k
         /\ acceptable tz now cfg byDay d' k
         /\ x = slotAt cfg (cursorAt tz now cfg d' k).
Proof.
  intros Hr Hstep. revert fuel d slots r Hr.
  apply (dayLoop_elim tz now cfg byDay (fun d slots r => forall x, In x r ->
    In x slots
    \/ exists d' k, d <= d' < horizonDays cfg /\ 0 <= k
         /\ acceptable tz now cfg byDay d' k
         /\ x = slotAt cfg (cursorAt tz now cfg d' k))); auto.
  - intros d slots r Hd _ _ _ IH x Hx.
    destruct (IH x Hx) as [|[d' [k H]]]; [now left|right].
    exists d', k. intuition lia.
  - intros d slots slots' r Hd _ _ Hs IH x Hx.
    destruct (IH x Hx) as [Hin|[d' [k H]]].
    2:{ right. exists d', k. intuition lia. }
    destruct (scanDay_grid _ _ _ _ _ _ _ _ Hs x Hin) as [|[k [Hk Hgrid]]];
      [now left|].
    destruct (scanDay_sound _ _ _ _ _ _ _ _ Hs Hstep x Hin)
      as [|[Hx1 [Hx2 [Hx3 [Hx4 Hx5]]]]]; [now left|right].
    exists d, k. unfold acceptable, cursorAt. cbn zeta.
    rewrite <- Hgrid. repeat split; solve [assumption | lia].
Qed.

(** A response with a payload is the payload of the resolved
    configuration, with the slots the generator makes of the intervals of
    the world. *)
Lemma GET_ok_payload env q now w body t :
  run w (GET env q now) = (Some (JsonOk body), t) ->
  exists intervals slots,
    busyIntervalsOf w = Resolved intervals
    /\ generateSlots (tzOffset env) now (resolveConfig env q) intervals = Some slots
    /\ body = payload now (resolveConfig env q) slots.
Proof.
  unfold GET, busyIntervalsOf.
  destruct (_ <=? _); [discriminate|].
  unfold mbind, Prog_bind. rewrite run_bind.
  destruct (fst (run w buildBusyIntervals)) as [intervals|err]; simpl;
    [|discriminate].
  destruct (generateSlots _ _ _ intervals) as [slots|] eqn:Hg; simpl;
    [|discriminate].
  intros H. injection H as H1 H2. exists intervals, slots.
  split; [reflexivity|]. split; [exact Hg|]. now rewrite <- H1.
Qed.

(** For whole-number query values: every returned slot is a candidate of
    the walk, the slot of some cursor position [k] of some day [d] of the
    horizon, and that candidate passes every test (inside the work
    window, not before the earliest allowed start, free of the day's
    bucket); it lasts the resolved duration, which is its duration field
    and the one the payload echoes.  (A fractional number of minutes
    loses its fraction of a millisecond in [new Date(...)].) *)
Theorem slots_are_acceptable_candidates (env : ProcessEnv) (q : Query)
    (now : Z) (w : World) (body : Availability) (t : list Event) :
  run w (GET env q now) = (Some (JsonOk body), t) ->
  let cfg := resolveConfig env q in
  let tz := tzOffset env in
  exists intervals,
    busyIntervalsOf w = Resolved intervals
    /\ forall s, In s (slots body) ->
         slot_durationMinutes s = r_durationMinutes body
         /\ slot_end s - slot_start s = r_durationMinutes body * 60 * 1000
         /\ now + minLeadMinutes cfg * 60 * 1000 <= slot_start s
         /\ exists d k, 0 <= d < horizonDays cfg /\ 0 <= k
              /\ acceptable tz now cfg (indexByDay tz intervals) d k
              /\ s = slotAt cfg (cursorAt tz now cfg d k).
Proof.
  intros Hrun cfg tz. subst cfg tz.
  destruct (GET_ok_payload _ _ _ _ _ _ Hrun) as [intervals [sl [Hw [Hgen ->]]]].
  exists intervals. split; [exact Hw|]. cbn [payload slots r_durationMinutes].
  intros s Hs.
  destruct (resolveConfig_in_range env q) as [_ Hstep _ _ _].
  unfold generateSlots in Hgen.
  destruct (dayLoop_candidates _ _ _ _ _ _ _ _ Hgen ltac:(lia) s Hs)
    as [[]|[d [k [Hd [Hk [Hacc ->]]]]]].
  cbn [slotAt slot_durationMinutes slot_end slot_start].
  split; [reflexivity|]. split; [unfold addMinutes; lia|]. split.
  - destruct Hacc as [_ [_ [He _]]]. unfold earliestAllowedStart, addMinutes in He.
    exact He.
  - exists d, k. auto.
Qed.

Lemma slots_are_acceptable_candidates_witness :
  let w := mkWorld (Resolved [mkMeeting (IsoInstant 1709287200000) IsoMissing None])
             (fun _ => Resolved []) in
  let q := mkQuery Absent Absent (Present (JInt 1)) (Present (JInt 3)) Absent in
  exists body t s,
    run w (GET (plainEnv 0) q 1709276400000) = (Some (JsonOk body), t)
    /\ slots body !! 0%nat = Some s
    /\ slot_end s - slot_start s = r_durationMinutes body * 60 * 1000
    /\ 1709276400000 + 60 * 60 * 1000 <= slot_start s.
Proof.
  intros w q. eexists. eexists. eexists.
  split; [vm_compute; reflexivity|].
  split; [vm_compute; reflexivity|].
  edestruct (slots_are_acceptable_candidates (plainEnv 0) q 1709276400000 w)
    as [intervals [_ Hall]]; [vm_compute; reflexivity|].
  edestruct Hall as [_ [Hlen [Hlead _]]]; [left; reflexivity|].
  split; [exact Hlen | exact Hlead].
Defined.

(** With work hours inside one day (0 <= workStartHour, workEndHour <= 24)
    no returned slot intersects a busy interval that starts on the local
    calendar day of the slot. *)
Theorem slots_free_of_same_day_intervals (env : ProcessEnv) (q : Query)
    (now : Z) (w : World) (body : Availability) (t : list Event) :
  0 <= DEFAULT_WORK_START_HOUR env ->
  DEFAULT_WORK_END_HOUR env <= 24 ->
  run w (GET env q now) = (Some (JsonOk body), t) ->
  exists intervals,
    busyIntervalsOf w = Resolved intervals
    /\ forall s i, In s (slots body) -> In i intervals ->
         localDay (tzOffset env) (bi_start i)
         = localDay (tzOffset env) (slot_start s) ->
         ~ intersects s i.
Proof.
  intros Hstart Hend Hrun.
  destruct (GET_ok_payload _ _ _ _ _ _ Hrun) as [intervals [sl [Hw [Hgen ->]]]].
  exists intervals. split; [exact Hw|]. cbn [payload slots].
  intros s i Hs Hi Hday [H1 H2].
  destruct (resolveConfig_in_range env q) as [Hdur Hstep _ _ _].
  unfold generateSlots in Hgen.
  destruct (dayLoop_candidates _ _ _ _ _ _ _ _ Hgen ltac:(lia) s Hs)
    as [[]|[d [k [Hd [Hk [Hacc ->]]]]]].
  destruct Hacc as [Hc [Hfit [_ Hfree]]].
  cbn [slotAt slot_start slot_end] in *.
  set (c := cursorAt (tzOffset env) now (resolveConfig env q) d k) in *.
  assert (Hlo : workStartOf (tzOffset env) now (resolveConfig env q) d <= c).
  { subst c. unfold cursorAt. nia. }
  assert (Hc_day : localDay (tzOffset env) c = localDay (tzOffset env) now + d).
  { rewrite workStartOf_eq in Hlo. rewrite workEndOf_eq in Hc.
    simpl workStartHour in Hlo. simpl workEndHour in Hc.
    clearbody c. unfold localDay at 1. unfold localTime.
    rewrite msPerDay_value, msPerHour_value, msPerMinute_value in *.
    div_lia. }
  rewrite bucket_holds_the_intervals_of_the_day, overlaps_false_iff in Hfree.
  apply (Hfree i); [|lia].
  apply list_elem_of_In, list_elem_of_filter. split; [congruence|].
  now apply list_elem_of_In.
Qed.

Lemma slots_free_of_same_day_intervals_witness :
  let w := mkWorld (Resolved [mkMeeting (IsoInstant 1709287200000) IsoMissing None])
             (fun _ => Resolved []) in
  let q := mkQuery Absent Absent (Present (JInt 1)) (Present (JInt 3)) Absent in
  let busy := mkBusy 1709287200000 1709290800000 None meeting in
  exists body t s,
    run w (GET (plainEnv 0) q 1709276400000) = (Some (JsonOk body), t)
    /\ slots body !! 2%nat = Some s
    /\ ~ intersects s busy.
Proof.
  intros w q busy. eexists. eexists. eexists.
  split; [vm_compute; reflexivity|].
  split; [vm_compute; reflexivity|].
  edestruct (slots_free_of_same_day_intervals (plainEnv 0) q 1709276400000 w)
    as [intervals [Hw Hall]].
  - vm_compute. discriminate.
  - vm_compute. discriminate.
  - vm_compute. reflexivity.
  - injection Hw as <-. apply Hall.
    + do 2 right. left. reflexivity.
    + left. reflexivity.
    + vm_compute. reflexivity.
Defined.

(** What a request can come to.  Invalid work hours: 500 at once, nothing
    asked of the collaborators.  Otherwise both fetches are issued first,
    the meetings before the calendar (with a page size of 100); a failing
    meeting store gives 500 with the store's message, which is written to
    the console; else the answer is 200 with the payload of the resolved
    configuration, and the only thing written to the console is the
    failure of the calendar, if it failed. *)
Theorem GET_outcomes (env : ProcessEnv) (q : Query) (now : Z) (w : World) :
  let cfg := resolveConfig env q in
  let fetches :=
    [EvListMeetings; EvFetchNotionEvents 100]
    ++ match fetchNotionEvents w 100 with
       | Resolved _ => []
       | Rejected err =>
           [EvConsoleError "Failed to load Notion events for availability:" err]
       end in
  (workEndHour cfg <= workStartHour cfg
   /\ run w (GET env q now)
      = (Some (JsonError 500 "Invalid availability hours configuration"), []))
  \/ (workStartHour cfg < workEndHour cfg
      /\ exists err t,
          listMeetings w = Rejected err
          /\ run w (GET env q now)
             = (Some (JsonError 500 err),
                [EvListMeetings; EvFetchNotionEvents 100] ++ t)
          /\ In (EvConsoleError "Availability error:" err) t)
  \/ (workStartHour cfg < workEndHour cfg
      /\ exists intervals slots,
          busyIntervalsOf w = Resolved intervals
          /\ generateSlots (tzOffset env) now cfg intervals = Some slots
          /\ run w (GET env q now)
             = (Some (JsonOk (payload now cfg slots)), fetches)).
Proof.
  intros cfg fetches. subst cfg fetches. unfold GET, busyIntervalsOf.
  destruct (Z.leb_spec (workEndHour (resolveConfig env q))
              (workStartHour (resolveConfig env q))) as [Hh|Hh].
  { left. split; [exact Hh | reflexivity]. }
  right. unfold mbind, Prog_bind. rewrite run_bind, run_buildBusyIntervals.
  cbn [fst snd].
  destruct (listMeetings w) as [ms|err].
  - right. split; [exact Hh|].
    destruct (generateSlots_total (tzOffset env) now (resolveConfig env q)
                (omap meetingInterval ms
                 ++ match fetchNotionEvents w 100 with
                    | Resolved events => omap notionInterval events
                    | Rejected _ => []
                    end) (resolveConfig_in_range env q)) as [slots Hg].
    eexists. exists slots. split; [reflexivity|]. split; [exact Hg|].
    rewrite Hg. simpl. rewrite app_nil_r. reflexivity.
  - left. split; [exact Hh|]. exists err. eexists.
    split; [reflexivity|]. split; [reflexivity|].
    apply in_or_app. right. left. reflexivity.
Qed.

(** Whatever the whole-number query values and the integer environment
    defaults, a payload carries the instant of the request, a horizon of 1
    to 30 days, a step of 5 to 120 minutes, a duration of 15 to 240
    minutes, and at most 200 slots. *)
Theorem payload_within_bounds (env : ProcessEnv) (q : Query) (now : Z)
    (w : World) (body : Availability) (t : list Event) :
  run w (GET env q now) = (Some (JsonOk body), t) ->
  generatedAt body = now
  /\ 1 <= r_horizonDays body <= 30
  /\ 5 <= r_slotMinutes body <= 120
  /\ 15 <= r_durationMinutes body <= 240
  /\ (length (slots body) <= 200)%nat.
Proof.
  intros Hrun.
  destruct (GET_ok_payload _ _ _ _ _ _ Hrun) as [intervals [sl [_ [Hgen ->]]]].
  destruct (resolveConfig_in_range env q) as [Hdur Hstep Hdays Hlimit _].
  cbn [payload generatedAt r_horizonDays r_slotMinutes r_durationMinutes slots].
  repeat split; try lia.
  unfold generateSlots in Hgen. apply dayLoop_count in Hgen.
  - unfold slotCount in Hgen. lia.
  - change (slotCount []) with 0. lia.
Qed.

Lemma payload_within_bounds_witness :
  let w := mkWorld (Resolved []) (fun _ => Rejected "unreachable") in
  let q := mkQuery (Present (JInt 9999)) (Present (JInt 1)) (Present JPosInf)
             (Present (JInt 100000)) Absent in
  exists body t,
    run w (GET (plainEnv 0) q 1709276400000) = (Some (JsonOk body), t)
    /\ r_durationMinutes body <= 240
    /\ (length (slots body) <= 200)%nat.
Proof.
  intros w q. eexists. eexists.
  split; [vm_compute; reflexivity|].
  edestruct (payload_within_bounds (plainEnv 0) q 1709276400000 w)
    as [_ [_ [_ [Hdur Hlen]]]]; [vm_compute; reflexivity|].
  split; [apply Hdur | exact Hlen].
Defined.

(** ** What the walk depends on *)

Lemma dayLoop_S tz now cfg byDay fuel d slots :
  dayLoop tz now cfg byDay (S fuel) d slots
  = if (d <? horizonDays cfg) && (slotCount slots <? slotLimit cfg) then
      if (workEndOf tz now cfg d <=? earliestAllowedStart now cfg)
         && (dayEndOf tz now d <=? earliestAllowedStart now cfg)
      then dayLoop tz now cfg byDay fuel (d + 1) slots
      else
        match scanDay now cfg
                (scanFuel cfg (workStartOf tz now cfg d) (workEndOf tz now cfg d))
                (workEndOf tz now cfg d) (bucketOf tz now byDay d)
                (workStartOf tz now cfg d) slots with
        | Some slots' => dayLoop tz now cfg byDay fuel (d + 1) slots'
        | None => None
        end
    else Some slots.
Proof. reflexivity. Qed.

Lemma overlaps_same_members s e (l l' : list BusyInterval) :
  (forall i, In i l <-> In i l') -> overlaps s e l = overlaps s e l'.
Proof.
  intros Hmem. apply eq_true_iff_eq. rewrite !overlaps_true_iff.
  split; intros [i [Hin H]]; exists i; split; auto; now apply Hmem.
Qed.

Lemma scanDay_bucket_ext now cfg workEnd (b b' : list BusyInterval) :
  (forall s e, overlaps s e b = overlaps s e b') ->
  forall fuel cursor slots,
    scanDay now cfg fuel workEnd b cursor slots
    = scanDay now cfg fuel workEnd b' cursor slots.
Proof.
  intros Hov. induction fuel as [|fuel IH]; intros cursor slots; [reflexivity|].
  simpl. rewrite Hov, !IH. reflexivity.
Qed.

Lemma dayLoop_byDay_ext tz now cfg byDay byDay' :
  (forall d s e, overlaps s e (bucketOf tz now byDay d)
                 = overlaps s e (bucketOf tz now byDay' d)) ->
  forall fuel d slots,
    dayLoop tz now cfg byDay fuel d slots
    = dayLoop tz now cfg byDay' fuel d slots.
Proof.
  intros Hov. induction fuel as [|fuel IH]; intros d slots; [reflexivity|].
  rewrite !dayLoop_S.
  rewrite (scanDay_bucket_ext now cfg _ _ _ (Hov d)).
  destruct (_ && _); [|reflexivity].
  destruct (_ && _); [apply IH|].
  destruct (scanDay _ _ _ _ _ _ _); [apply IH | reflexivity].
Qed.

Lemma generateSlots_same_members tz now cfg (I I' : list BusyInterval) :
  (forall i, In i I <-> In i I') ->
  generateSlots tz now cfg I = generateSlots tz now cfg I'.
Proof.
  intros Hmem. unfold generateSlots. apply dayLoop_byDay_ext.
  intros d s e. rewrite !bucketOf_day, !indexByDay_lookup.
  apply overlaps_same_members. intros i.
  rewrite <- !list_elem_of_In, !list_elem_of_filter, !list_elem_of_In.
  now rewrite Hmem.
Qed.

(** The response does not depend on the order in which the meeting store
    and the calendar list their records, nor on duplicates among them: two
    worlds whose busy intervals have the same members get the same
    answer. *)
Theorem response_ignores_order_and_duplicates (env : ProcessEnv) (q : Query)
    (now : Z) (w w' : World) (I I' : list BusyInterval) :
  busyIntervalsOf w = Resolved I ->
  busyIntervalsOf w' = Resolved I' ->
  (forall i, In i I <-> In i I') ->
  fst (run w (GET env q now)) = fst (run w' (GET env q now)).
Proof.
  unfold busyIntervalsOf. intros Hw Hw' Hmem. unfold GET.
  destruct (_ <=? _); [reflexivity|].
  unfold mbind, Prog_bind. rewrite !run_bind, Hw, Hw'.
  rewrite (generateSlots_same_members _ _ _ I I' Hmem).
  destruct (generateSlots _ _ _ I'); reflexivity.
Qed.

Lemma response_ignores_order_and_duplicates_witness :
  let a := mkMeeting (IsoInstant 1709287200000) IsoMissing None in
  let b := mkMeeting (IsoInstant 1709283600000) (IsoInstant 1709285400000) None in
  let w := mkWorld (Resolved [a; b]) (fun _ => Resolved []) in
  let w' := mkWorld (Resolved [b; a; b]) (fun _ => Resolved []) in
  let q := mkQuery Absent Absent (Present (JInt 1)) Absent Absent in
  fst (run w (GET (plainEnv 0) q 1709276400000))
  = fst (run w' (GET (plainEnv 0) q 1709276400000)).
Proof.
  intros a b w w' q.
  eapply (response_ignores_order_and_duplicates (plainEnv 0) q 1709276400000 w w').
  - vm_compute. reflexivity.
  - vm_compute. reflexivity.
  - intros i. simpl. tauto.
Defined.

(** ** A larger limit or horizon only appends *)

Lemma scanDay_limit_mono now cfg cfg' workEnd bucket :
  sameWalk cfg cfg' -> slotLimit cfg <= slotLimit cfg' ->
  forall fuel fuel' cursor slots r r',
    scanDay now cfg fuel workEnd bucket cursor slots = Some r ->
    scanDay now cfg' fuel' workEnd bucket cursor slots = Some r' ->
    r' = r \/ (slotLimit cfg <= slotCount r /\ r `prefix_of` r').
Proof.
  intros [Hdur [Hstep [Hlead _]]] Hlimit.
  assert (Hearly : earliestAllowedStart now cfg' = earliestAllowedStart now cfg)
    by (unfold earliestAllowedStart; now rewrite Hlead).
  induction fuel as [|fuel IH]; intros fuel' cursor slots r r' H1 H2;
    [discriminate|].
  destruct fuel' as [|fuel']; [discriminate|].
  pose proof (scanDay_prefix _ _ _ _ _ _ _ _ H2) as Hpre.
  simpl in H1, H2. rewrite Hearly, <- Hdur, <- Hstep in H2.
  destruct (Z.ltb_spec cursor workEnd) as [Hc|Hc]; simpl in H1, H2.
  2:{ left. congruence. }
  destruct (Z.ltb_spec (slotCount slots) (slotLimit cfg)) as [Hn|Hn]; simpl in H1.
  2:{ injection H1 as <-. right. split; [lia | exact Hpre]. }
  destruct (Z.ltb_spec (slotCount slots) (slotLimit cfg')) as [Hn'|Hn']; [|lia].
  simpl in H2.
  destruct (_ >? workEnd); [left; congruence|].
  destruct (cursor <? _); [exact (IH _ _ _ _ _ H1 H2)|].
  destruct (overlaps _ _ _); exact (IH _ _ _ _ _ H1 H2).
Qed.

Lemma dayLoop_prefix tz now cfg byDay fuel d slots r :
  dayLoop tz now cfg byDay fuel d slots = Some r -> slots `prefix_of` r.
Proof.
  revert fuel d slots r.
  apply (dayLoop_elim tz now cfg byDay (fun d slots r => slots `prefix_of` r));
    auto.
  intros d slots slots' r _ _ _ Hs IH.
  etransitivity; [eapply scanDay_prefix; eassumption | exact IH].
Qed.

Lemma dayLoop_limit_mono tz now cfg cfg' byDay :
  sameWalk cfg cfg' -> slotLimit cfg <= slotLimit cfg' ->
  horizonDays cfg <= horizonDays cfg' ->
  forall fuel fuel' d slots r r',
    dayLoop tz now cfg byDay fuel d slots = Some r ->
    dayLoop tz now cfg' byDay fuel' d slots = Some r' ->
    r `prefix_of` r'.
Proof.
  intros Hsame Hlimit Hdays.
  pose proof Hsame as [Hdur [Hstep [Hlead [Hsh Heh]]]].
  assert (Hearly : earliestAllowedStart now cfg' = earliestAllowedStart now cfg)
    by (unfold earliestAllowedStart; now rewrite Hlead).
  assert (Hws : forall d, workStartOf tz now cfg' d = workStartOf tz now cfg d)
    by (intros; unfold workStartOf; now rewrite Hsh).
  assert (Hwe : forall d, workEndOf tz now cfg' d = workEndOf tz now cfg d)
    by (intros; unfold workEndOf; now rewrite Heh).
  assert (Hfuel : forall a b, scanFuel cfg' a b = scanFuel cfg a b)
    by (intros; unfold scanFuel; now rewrite Hstep).
  induction fuel as [|fuel IH]; intros fuel' d slots r r' H1 H2;
    [discriminate|].
  destruct fuel' as [|fuel']; [discriminate|].
  pose proof (dayLoop_prefix _ _ _ _ _ _ _ _ H2) as Hpre.
  rewrite dayLoop_S in H1, H2. rewrite Hearly, Hws, Hwe, Hfuel in H2.
  destruct (Z.ltb_spec d (horizonDays cfg)) as [Hd|Hd]; simpl andb in H1.
  2:{ injection H1 as <-. exact Hpre. }
  destruct (Z.ltb_spec (slotCount slots) (slotLimit cfg)) as [Hn|Hn].
  2:{ injection H1 as <-. exact Hpre. }
  destruct (Z.ltb_spec d (horizonDays cfg')) as [Hd'|Hd']; [|lia].
  destruct (Z.ltb_spec (slotCount slots) (slotLimit cfg')) as [Hn'|Hn']; [|lia].
  simpl andb in H2.
  destruct (_ && _); [exact (IH _ _ _ _ _ H1 H2)|].
  destruct (scanDay now cfg _ _ _ _ _) as [s1|] eqn:Hs1; [|discriminate].
  destruct (scanDay now cfg' _ _ _ _ _) as [s1'|] eqn:Hs1'; [|discriminate].
  destruct (scanDay_limit_mono _ _ _ _ _ Hsame Hlimit _ _ _ _ _ _ Hs1 Hs1')
    as [->|[Hfull Hp]].
  - exact (IH _ _ _ _ _ H1 H2).
  - assert (r = s1).
    { destruct fuel as [|fuel]; [discriminate|]. rewrite dayLoop_S in H1.
      destruct (Z.ltb_spec (slotCount s1) (slotLimit cfg)); [lia|].
      rewrite andb_false_r in H1. congruence. }
    subst r. etransitivity; [exact Hp|].
    eapply dayLoop_prefix, H2.
Qed.

Lemma dayLoop_horizon_ext tz now cfg byDay byDay' :
  forall fuel d0 slots,
    (forall d s e, d0 <= d < horizonDays cfg ->
        overlaps s e (bucketOf tz now byDay d)
        = overlaps s e (bucketOf tz now byDay' d)) ->
    dayLoop tz now cfg byDay fuel d0 slots
    = dayLoop tz now cfg byDay' fuel d0 slots.
Proof.
  induction fuel as [|fuel IH]; intros d0 slots Hov; [reflexivity|].
  rewrite !dayLoop_S.
  destruct (Z.ltb_spec d0 (horizonDays cfg)) as [Hd|Hd]; [|reflexivity].
  rewrite (scanDay_bucket_ext now cfg _ _ _
             (fun s e => Hov d0 s e ltac:(lia))).
  destruct (_ && _); [|reflexivity].
  assert (Hnext : forall d s e, d0 + 1 <= d < horizonDays cfg ->
            overlaps s e (bucketOf tz now byDay d)
            = overlaps s e (bucketOf tz now byDay' d))
    by (intros; apply Hov; lia).
  destruct (_ && _); [now apply IH|].
  destruct (scanDay _ _ _ _ _ _ _); [now apply IH | reflexivity].
Qed.

(** Only busy intervals that start on one of the local calendar days of
    the horizon bear on the slots: leaving all others out changes
    nothing. *)
Theorem slots_depend_on_horizon_days_only (tz now : Z) (cfg : Config)
    (intervals : list BusyInterval) :
  generateSlots tz now cfg intervals
  = generateSlots tz now cfg (filter (startsInHorizon tz now cfg) intervals).
Proof.
  unfold generateSlots. apply dayLoop_horizon_ext. intros d s e Hd.
  rewrite !bucket_holds_the_intervals_of_the_day.
  apply overlaps_same_members. intros i.
  rewrite <- !list_elem_of_In, !list_elem_of_filter. unfold startsInHorizon.
  intuition lia.
Qed.

(** Asking for more slots or for more days never changes the slots
    already offered: of two requests at the same instant in the same world
    that resolve to the same duration, step, lead time and work hours, the
    slots of the one with the smaller limit and horizon are the first
    slots of the other. *)
Theorem larger_request_only_appends (env : ProcessEnv) (q q' : Query)
    (now : Z) (w : World) (body body' : Availability) (t t' : list Event) :
  sameWalk (resolveConfig env q) (resolveConfig env q') ->
  slotLimit (resolveConfig env q) <= slotLimit (resolveConfig env q') ->
  horizonDays (resolveConfig env q) <= horizonDays (resolveConfig env q') ->
  run w (GET env q now) = (Some (JsonOk body), t) ->
  run w (GET env q' now) = (Some (JsonOk body'), t') ->
  slots body `prefix_of` slots body'.
Proof.
  intros Hsame Hlimit Hdays H1 H2.
  destruct (GET_ok_payload _ _ _ _ _ _ H1) as [I [r [Hw [Hr ->]]]].
  destruct (GET_ok_payload _ _ _ _ _ _ H2) as [I' [r' [Hw' [Hr' ->]]]].
  rewrite Hw in Hw'. injection Hw' as <-. cbn [payload slots].
  exact (dayLoop_limit_mono _ _ _ _ _ Hsame Hlimit Hdays _ _ _ _ _ _ Hr Hr').
Qed.

Lemma larger_request_only_appends_witness :
  let w := mkWorld (Resolved [mkMeeting (IsoInstant 1709287200000) IsoMissing None])
             (fun _ => Resolved []) in
  let q := mkQuery Absent Absent (Present (JInt 1)) (Present (JInt 3)) Absent in
  let q' := mkQuery Absent Absent (Present (JInt 2)) (Present (JInt 40)) Absent in
  exists body t body' t',
    run w (GET (plainEnv 0) q 1709276400000) = (Some (JsonOk body), t)
    /\ run w (GET (plainEnv 0) q' 1709276400000) = (Some (JsonOk body'), t')
    /\ slots body `prefix_of` slots body'.
Proof.
  intros w q q'. eexists. eexists. eexists. eexists.
  split; [vm_compute; reflexivity|].
  split; [vm_compute; reflexivity|].
  eapply (larger_request_only_appends (plainEnv 0) q q' 1709276400000 w).
  - vm_compute. repeat split; reflexivity.
  - vm_compute. discriminate.
  - vm_compute. discriminate.
  - vm_compute. reflexivity.
  - vm_compute. reflexivity.
Defined.

(** The page size asked of the calendar lies between 1 and 100 for every
    option that is not NaN, and 25 when none is given; the
    events route hands over 25 for an absent, zero or invalid query value
    and never NaN; the availability route's 100 goes through as it is. *)
Theorem notion_page_size_bounded :
  (forall pageSize, pageSize <> Some JNaN ->
     exists n, notionPageSize pageSize = JInt n /\ 1 <= n <= 100)
  /\ notionPageSize None = JInt 25
  /\ notionPageSize (Some (JInt 100)) = JInt 100
  /\ (forall raw,
        eventsRoutePageSize raw <> JNaN
        /\ (raw = Absent \/ raw = Present (JInt 0) \/ raw = Present JNaN ->
            eventsRoutePageSize raw = JInt 25)
        /\ exists n, notionPageSize (Some (eventsRoutePageSize raw)) = JInt n
                     /\ 1 <= n <= 100).
Proof.
  assert (Hbound : forall pageSize, pageSize <> Some JNaN ->
            exists n, notionPageSize pageSize = JInt n /\ 1 <= n <= 100).
  { intros [[| |z|]|] Hps; try congruence; unfold notionPageSize; simpl;
      eexists; (split; [reflexivity | lia]). }
  split; [exact Hbound|]. split; [reflexivity|]. split; [reflexivity|].
  intros raw.
  assert (Hnan : eventsRoutePageSize raw <> JNaN) by apply jsOr_not_NaN.
  split; [exact Hnan|]. split.
  - intros [->|[->| ->]]; reflexivity.
  - apply Hbound. congruence.
Qed.

(** * Further properties of the places store *)

Module PlacesDbMore.
Import PlacesDb PlacesDbFacts.

Lemma orElse_defined v d : nullish v = false -> orElse v d = v.
Proof. unfold orElse. now intros ->. Qed.

Lemma orElse_null v : v <> VUndefined -> orElse v VNull = v.
Proof. destruct v; try reflexivity. congruence. Qed.

Lemma orElse_not_nullish v d : nullish d = false -> nullish (orElse v d) = false.
Proof. unfold orElse. destruct (nullish v) eqn:H; auto. Qed.

Lemma orElse_null_defined v : orElse v VNull <> VUndefined.
Proof. destruct v; discriminate. Qed.

Lemma strictEq_valid v : validStatus v -> strictEq v v = true.
Proof. intros [s [-> _]]. simpl. apply String.eqb_refl. Qed.

Lemma sanitize_valid_id v : validStatus v -> sanitizeCallStatus v = v.
Proof.
  intros Hv. unfold sanitizeCallStatus.
  now rewrite (proj2 (isCallStatus_valid v) Hv).
Qed.

(** One turn of the loop on an entry the route wrote itself. *)
Lemma normalizeEntry_written db mutated k p :
  normalForm k p ->
  normalizeEntry (db, mutated) (k, placeToJson p) = (<[k := p]> db, mutated).
Proof.
  intros [Hk [Hn [Hp [Hw [Hc Hs]]]]]. rewrite normalizeEntry_eq.
  change (optProp (placeToJson p) "callStatus") with (callStatus p).
  change (optProp (placeToJson p) "name") with (name p).
  change (optProp (placeToJson p) "phoneNumber") with (phoneNumber p).
  change (optProp (placeToJson p) "websiteUri") with (websiteUri p).
  change (optProp (placeToJson p) "websiteCategory") with (websiteCategory p).
  rewrite (sanitize_valid_id _ Hs), (strictEq_valid _ Hs).
  rewrite (orElse_defined (name p)), (orElse_defined (websiteCategory p))
    by assumption.
  rewrite (orElse_null (phoneNumber p)), (orElse_null (websiteUri p))
    by assumption.
  simpl. f_equal. f_equal. destruct p; simpl in *. now subst.
Qed.

Lemma fold_written (l : list (string * DbPlace)) : forall db,
  (forall k p, In (k, p) l -> normalForm k p) ->
  fold_left normalizeEntry (map (fun kp => (fst kp, placeToJson (snd kp))) l)
    (db, false)
  = (fold_left (fun m kp => <[fst kp := snd kp]> m) l db, false).
Proof.
  induction l as [|[k p] l IH]; intros db Hl; [reflexivity|].
  cbn [map fold_left fst snd].
  rewrite normalizeEntry_written by (apply Hl; now left).
  apply IH. intros k' p' Hin. apply Hl. now right.
Qed.

Lemma fold_insert_map_to_list (db : gmap string DbPlace) :
  fold_left (fun m kp => <[fst kp := snd kp]> m) (map_to_list db) ∅ = db.
Proof.
  apply map_eq. intros k.
  assert (Hgen : forall (l : list (string * DbPlace)) (acc : gmap string DbPlace),
    NoDup (map fst l) ->
    fold_left (fun m kp => <[fst kp := snd kp]> m) l acc !! k
    = match list_to_map (M := gmap string DbPlace) l !! k with
      | Some p => Some p
      | None => acc !! k
      end).
  { induction l as [|[k' p'] l IHl]; intros acc Hnd; [reflexivity|].
    cbn [fold_left fst snd map list_to_map foldr] in *.
    apply NoDup_cons in Hnd as [Hnotin Hnd].
    rewrite IHl by assumption.
    destruct (decide (k' = k)) as [->|Hne].
    - rewrite lookup_insert_eq.
      rewrite (not_elem_of_list_to_map_1 (M := gmap string) l k) by exact Hnotin.
      now rewrite lookup_insert_eq.
    - rewrite !(lookup_insert_ne _ k' k) by assumption. reflexivity. }
  rewrite Hgen.
  - rewrite list_to_map_to_list. destruct (db !! k); [reflexivity|].
    apply lookup_empty.
  - apply NoDup_fst_map_to_list.
Qed.

(** Load after save: the store comes back as it was saved, and the file is
    left alone. *)
Lemma ensureDb_written db :
  map_Forall normalForm db ->
  ensureDb (Holds (dbToJson db)) = (Resolved db, Holds (dbToJson db)).
Proof.
  intros Hdb.
  unfold ensureDb, tryCatch, mbind, Fs_bind, fsBind, readJson, liftOutcome, member.
  cbn [nullish dbToJson]. cbn beta iota.
  change (objectEntries (orElse (getProp (dbToJson db) "places") (VObj [])))
    with (map (fun kp : string * DbPlace => (fst kp, placeToJson (snd kp)))
            (map_to_list db)).
  rewrite fold_written.
  - rewrite fold_insert_map_to_list. reflexivity.
  - intros k p Hin. apply list_elem_of_In, elem_of_map_to_list in Hin.
    exact (Hdb _ _ Hin).
Qed.

Lemma normalize_fold_normalForm entries : forall db mutated,
  map_Forall normalForm db ->
  map_Forall normalForm (fst (fold_left normalizeEntry entries (db, mutated))).
Proof.
  induction entries as [|[k v] entries IH]; intros db mutated Hdb; [exact Hdb|].
  cbn [fold_left]. rewrite normalizeEntry_eq. apply IH.
  apply map_Forall_insert_2; [|exact Hdb].
  repeat split; cbn [key name phoneNumber websiteUri websiteCategory callStatus].
  - now apply orElse_not_nullish.
  - apply orElse_null_defined.
  - apply orElse_null_defined.
  - now apply orElse_not_nullish.
  - apply sanitizeCallStatus_valid.
Qed.

(** [ensureDb] always answers, with a store in the form the route writes;
    it leaves the file alone or rewrites it as that store. *)
Lemma ensureDb_cases fs :
  exists db fs1,
    ensureDb fs = (Resolved db, fs1)
    /\ map_Forall normalForm db
    /\ (fs1 = fs \/ fs1 = Holds (dbToJson db)).
Proof.
  assert (Hinit : exists db fs1,
    (Resolved (∅ : gmap string DbPlace), Holds (dbToJson ∅)) = (Resolved db, fs1)
    /\ map_Forall normalForm db
    /\ (fs1 = fs \/ fs1 = Holds (dbToJson db))).
  { exists ∅, (Holds (dbToJson ∅)). split; [reflexivity|].
    split; [apply map_Forall_empty | now right]. }
  destruct fs as [| |parsed]; try exact Hinit.
  unfold ensureDb, tryCatch, mbind, Fs_bind, fsBind, readJson, liftOutcome, member.
  destruct (nullish parsed) eqn:Hnull; [exact Hinit|].
  pose proof (normalize_fold_normalForm
                (objectEntries (orElse (getProp parsed "places") (VObj [])))
                ∅ false (map_Forall_empty _)) as Hfold.
  destruct (fold_left normalizeEntry _ (∅, false)) as [normalized mutated].
  simpl in Hfold.
  destruct mutated.
  - exists normalized, (Holds (dbToJson normalized)).
    split; [reflexivity|]. split; [exact Hfold | now right].
  - exists normalized, (Holds parsed). split; [reflexivity|].
    split; [exact Hfold | now left].
Qed.

Lemma loaded_eq fs db fs1 : ensureDb fs = (Resolved db, fs1) -> loaded fs = db.
Proof. unfold loaded. now intros ->. Qed.

Lemma ensureDb_stable fs db fs1 :
  ensureDb fs = (Resolved db, fs1) -> ensureDb fs1 = (Resolved db, fs1).
Proof.
  intros Hload. destruct (ensureDb_cases fs) as [db' [fs1' [Heq [Hnf Hfs]]]].
  rewrite Hload in Heq. injection Heq as <- <-.
  destruct Hfs as [->| ->]; [exact Hload | now apply ensureDb_written].
Qed.

Section HandlerCases.
Variables trim toLowerCase : string -> string.

Local Abbreviation handle := (handle trim toLowerCase).

(** A [POST] is turned away whatever the file holds, or it names a key and
    a record in the form the route writes, and then answers by what the
    loaded store holds under that key. *)
Lemma POST_cases body :
  (exists message, (forall fs, handle (ReqPOST body) fs = (Error 400 message, fs))
                   \/ (forall fs, handle (ReqPOST body) fs = (Error 500 message, fs)))
  \/ exists k fresh,
       normalForm k fresh
       /\ forall fs db fs1, ensureDb fs = (Resolved db, fs1) ->
            handle (ReqPOST body) fs
            = match db !! k with
              | Some stored => (PostOk k stored, fs1)
              | None => (PostOk k fresh, Holds (dbToJson (<[k := fresh]> db)))
              end.
Proof.
  unfold PlacesDb.handle, POST, caught, tryCatch, mbind, Fs_bind, fsBind,
    liftOutcome, mret, Fs_ret, fsRet, saveDb, writeJson.
  destruct (reqJson body) as [v|e].
  2:{ left. exists e. right. reflexivity. }
  destruct (member v "place") as [place|e].
  2:{ left. exists e. right. reflexivity. }
  destruct (negb (truthy place) || negb (truthy (getProp place "name"))) eqn:Hname.
  { left. eexists. left. reflexivity. }
  destruct (_ && _).
  { left. eexists. left. reflexivity. }
  destruct (computePlaceKey _ _ _ _) as [k|e].
  2:{ left. exists e. right. reflexivity. }
  right. exists k. eexists. split.
  2:{ intros fs db fs1 ->. destruct (db !! k); reflexivity. }
  apply orb_false_iff in Hname as [_ Hname]. apply negb_false_iff in Hname.
  repeat split; cbn [key name phoneNumber websiteUri websiteCategory callStatus].
  - destruct (getProp place "name"); simpl in *; congruence.
  - apply orElse_null_defined.
  - apply orElse_null_defined.
  - now apply orElse_not_nullish.
  - apply sanitizeCallStatus_valid.
Qed.

Lemma PATCH_cases body :
  (exists message, (forall fs, handle (ReqPATCH body) fs = (Error 400 message, fs))
                   \/ (forall fs, handle (ReqPATCH body) fs = (Error 500 message, fs)))
  \/ exists k status,
       validStatus status
       /\ forall fs db fs1, ensureDb fs = (Resolved db, fs1) ->
            handle (ReqPATCH body) fs
            = match db !! k with
              | Some existing =>
                  (PatchOk (withStatus existing status),
                   Holds (dbToJson (<[k := withStatus existing status]> db)))
              | None => (Error 404 "Place not found", fs1)
              end.
Proof.
  unfold PlacesDb.handle, PATCH, caught, tryCatch, mbind, Fs_bind, fsBind,
    liftOutcome, mret, Fs_ret, fsRet, saveDb, writeJson.
  destruct (reqJson body) as [v|e].
  2:{ left. exists e. right. reflexivity. }
  destruct (trimmedKey trim v) as [kv|e].
  2:{ left. exists e. right. reflexivity. }
  destruct kv as [| | | |k| |];
    try (left; eexists; left; reflexivity).
  destruct (String.eqb k "").
  { left. eexists. left. reflexivity. }
  destruct (isCallStatus (getProp v "callStatus")) eqn:Hstatus; cbn [negb];
    cbv beta iota.
  2:{ left. eexists. left. reflexivity. }
  right. exists k, (getProp v "callStatus").
  split; [now apply isCallStatus_valid|].
  intros fs db fs1 ->. destruct (db !! k); reflexivity.
Qed.

Lemma DELETE_cases body :
  (exists message, (forall fs, handle (ReqDELETE body) fs = (Error 400 message, fs))
                   \/ (forall fs, handle (ReqDELETE body) fs = (Error 500 message, fs)))
  \/ exists k,
       forall fs db fs1, ensureDb fs = (Resolved db, fs1) ->
         handle (ReqDELETE body) fs
         = match db !! k with
           | Some _ => (DeleteOk k, Holds (dbToJson (delete k db)))
           | None => (DeleteOk k, fs1)
           end.
Proof.
  unfold PlacesDb.handle, DELETE, caught, tryCatch, mbind, Fs_bind, fsBind,
    liftOutcome, mret, Fs_ret, fsRet, saveDb, writeJson.
  destruct (reqJson body) as [v|e].
  2:{ left. exists e. right. reflexivity. }
  destruct (trimmedKey trim v) as [kv|e].
  2:{ left. exists e. right. reflexivity. }
  destruct kv as [| | | |k| |];
    try (left; eexists; left; reflexivity).
  destruct (String.eqb k "").
  { left. eexists. left. reflexivity. }
  right. exists k.
  intros fs db fs1 ->. destruct (db !! k); reflexivity.
Qed.

Lemma GET_cases fs db fs1 :
  ensureDb fs = (Resolved db, fs1) ->
  handle ReqGET fs
  = (Listing (map fst (map_to_list db)) (map snd (map_to_list db)), fs1).
Proof.
  intros Hload.
  unfold PlacesDb.handle, GET, mbind, Fs_bind, fsBind. rewrite Hload. reflexivity.
Qed.

End HandlerCases.

Lemma normalForm_withStatus k p status :
  normalForm k p -> validStatus status -> normalForm k (withStatus p status).
Proof. intros [H1 [H2 [H3 [H4 [H5 _]]]]] Hs. repeat split; assumption. Qed.

Section Requests.
Variables trim toLowerCase : string -> string.

Local Abbreviation handle := (handle trim toLowerCase).


(** Whatever the request, the file is afterwards as it was, or it is the
    store as the route writes it: under each key a record of exactly the
    six fields key, name, phoneNumber, websiteUri, websiteCategory and
    callStatus, in the route's form.  Anything else a stored record held
    is not written back. *)
Theorem file_kept_or_rewritten (r : Request) (fs : FileState) :
  snd (handle r fs) = fs
  \/ exists db,
       map_Forall normalForm db
       /\ snd (handle r fs) = Holds (dbToJson db)
       /\ storedRecords (snd (handle r fs))
          = map (fun kp => (fst kp, placeToJson (snd kp))) (map_to_list db).
Proof.
  assert (Hwritten : forall db fs',
            map_Forall normalForm db -> fs' = Holds (dbToJson db) ->
            fs' = fs
            \/ exists db0, map_Forall normalForm db0 /\ fs' = Holds (dbToJson db0)
                 /\ storedRecords fs'
                    = map (fun kp => (fst kp, placeToJson (snd kp))) (map_to_list db0)).
  { intros db fs' Hdb ->. right. exists db.
    split; [exact Hdb|]. split; reflexivity. }
  destruct (ensureDb_cases fs) as [db [fs1 [Hload [Hnf Hfs1]]]].
  assert (Hfs1' : fs1 = fs
            \/ exists db0, map_Forall normalForm db0 /\ fs1 = Holds (dbToJson db0)
                 /\ storedRecords fs1
                    = map (fun kp => (fst kp, placeToJson (snd kp))) (map_to_list db0)).
  { destruct Hfs1 as [->|Hfs1]; [now left | eapply Hwritten; eassumption]. }
  destruct r as [|body|body|body].
  - rewrite (GET_cases _ _ _ _ _ Hload). exact Hfs1'.
  - destruct (POST_cases trim toLowerCase body)
      as [[m [H|H]]|[k [fresh [Hfresh H]]]]; try (rewrite H; now left).
    rewrite (H _ _ _ Hload). destruct (db !! k); [exact Hfs1'|].
    eapply Hwritten; [|reflexivity]. now apply map_Forall_insert_2.
  - destruct (PATCH_cases trim toLowerCase body)
      as [[m [H|H]]|[k [status [Hst H]]]]; try (rewrite H; now left).
    rewrite (H _ _ _ Hload). destruct (db !! k) as [existing|] eqn:Hk;
      [|exact Hfs1'].
    eapply Hwritten; [|reflexivity]. apply map_Forall_insert_2; [|exact Hnf].
    apply normalForm_withStatus; [exact (Hnf _ _ Hk) | exact Hst].
  - destruct (DELETE_cases trim toLowerCase body)
      as [[m [H|H]]|[k H]]; try (rewrite H; now left).
    rewrite (H _ _ _ Hload). destruct (db !! k); [|exact Hfs1'].
    eapply Hwritten; [|reflexivity]. now apply map_Forall_delete.
Qed.

(** A [POST] that answers with a record has the store hold that record
    under its key afterwards and nothing else changed; a record already
    stored under the key is the one returned, untouched; the same [POST]
    again gives the same answer and leaves the file alone, and a [GET]
    lists the record.  (For a file without a record under ["__proto__"],
    where the store is the map of its own properties.) *)
Theorem POST_inserts_once (body : option JsValue) (fs fs' : FileState)
    (k : string) (p : DbPlace) :
  plainStore fs ->
  handle (ReqPOST body) fs = (PostOk k p, fs') ->
  key p = k
  /\ loaded fs' = <[k := p]> (loaded fs)
  /\ (forall old, loaded fs !! k = Some old -> p = old /\ loaded fs' = loaded fs)
  /\ handle (ReqPOST body) fs' = (PostOk k p, fs')
  /\ exists keys places,
       handle ReqGET fs' = (Listing keys places, fs')
       /\ In k keys /\ In p places.
Proof.
  intros _ Hpost.
  destruct (ensureDb_cases fs) as [db [fs1 [Hload [Hnf _]]]].
  rewrite (loaded_eq _ _ _ Hload).
  destruct (POST_cases trim toLowerCase body)
    as [[m [H|H]]|[k0 [fresh [Hfresh H]]]]; try (rewrite H in Hpost; discriminate).
  assert (Hafter : ensureDb fs' = (Resolved (<[k := p]> db), fs')
                   /\ key p = k /\ k0 = k
                   /\ (forall old, db !! k = Some old -> p = old)).
  { rewrite (H _ _ _ Hload) in Hpost.
    destruct (db !! k0) as [stored|] eqn:Hk; injection Hpost as <- <- <-.
    - rewrite insert_id by exact Hk.
      split; [eapply ensureDb_stable, Hload|].
      split; [apply (Hnf _ _ Hk)|]. split; [reflexivity|]. congruence.
    - split; [apply ensureDb_written; now apply map_Forall_insert_2|].
      split; [apply Hfresh|]. split; [reflexivity|]. congruence. }
  destruct Hafter as [Hload' [Hkey [-> Hold]]].
  rewrite (loaded_eq _ _ _ Hload').
  split; [exact Hkey|]. split; [reflexivity|]. split.
  { intros old Hk. split; [now apply Hold|].
    rewrite (Hold _ Hk). now apply insert_id. }
  split.
  { rewrite (H _ _ _ Hload'), lookup_insert_eq. reflexivity. }
  eexists _, _. split; [apply GET_cases, Hload'|].
  assert (Hin : In (k, p) (map_to_list (<[k := p]> db))).
  { apply list_elem_of_In, elem_of_map_to_list, lookup_insert_eq. }
  split.
  - apply in_map_iff. exists (k, p). auto.
  - apply in_map_iff. exists (k, p). auto.
Qed.

(** A [PATCH] that answers with a record has changed the status of the
    record under its key and nothing else, to a status of the enumeration;
    a [PATCH] answered with an error has changed no record.  (For a file
    without a record under ["__proto__"] and a key that is no name
    inherited from [Object.prototype], where the store is the map of its
    own properties.) *)
Theorem PATCH_changes_one_status (body : option JsValue) (fs fs' : FileState)
    (resp : Response) :
  plainStore fs ->
  (forall json k, reqJson body = Resolved json ->
     trimmedKey trim json = Resolved (VStr k) -> ownName k) ->
  handle (ReqPATCH body) fs = (resp, fs') ->
  (forall p, resp = PatchOk p ->
     exists old,
       loaded fs !! key p = Some old
       /\ p = withStatus old (callStatus p)
       /\ validStatus (callStatus p)
       /\ loaded fs' = <[key p := p]> (loaded fs))
  /\ (forall status message, resp = Error status message ->
        loaded fs' = loaded fs).
Proof.
  intros _ _ Hpatch.
  destruct (ensureDb_cases fs) as [db [fs1 [Hload [Hnf _]]]].
  rewrite (loaded_eq _ _ _ Hload).
  destruct (PATCH_cases trim toLowerCase body)
    as [[m [H|H]]|[k [status [Hst H]]]].
  1,2: rewrite H in Hpatch; injection Hpatch as <- <-;
       (split; [intros p; discriminate | intros _ _ _; apply (loaded_eq _ _ _ Hload)]).
  rewrite (H _ _ _ Hload) in Hpatch.
  destruct (db !! k) as [existing|] eqn:Hk; injection Hpatch as <- <-.
  - split; [|intros ? ?; discriminate].
    intros p [= <-]. exists existing.
    destruct (Hnf _ _ Hk) as [Hkey _]. cbn [withStatus key callStatus].
    rewrite Hkey. split; [exact Hk|]. split; [reflexivity|].
    split; [exact Hst|].
    apply loaded_eq with (fs1 := Holds (dbToJson (<[k:=withStatus existing status]> db))).
    apply ensureDb_written, map_Forall_insert_2; [|exact Hnf].
    apply normalForm_withStatus; [exact (Hnf _ _ Hk) | exact Hst].
  - split; [intros p; discriminate|]. intros _ _ _.
    apply (loaded_eq _ _ fs1), (ensureDb_stable _ _ _ Hload).
Qed.

(** After a [DELETE] that is answered with the key, the store is the
    store before without that key; the same [DELETE] again is answered
    alike and leaves the file alone.  (For a file without a record under
    ["__proto__"] and a key that is no name inherited from
    [Object.prototype], where the store is the map of its own
    properties.) *)
Theorem DELETE_removes_the_key (body : option JsValue) (fs fs' : FileState)
    (k : string) :
  plainStore fs ->
  ownName k ->
  handle (ReqDELETE body) fs = (DeleteOk k, fs') ->
  loaded fs' = delete k (loaded fs)
  /\ loaded fs' !! k = None
  /\ handle (ReqDELETE body) fs' = (DeleteOk k, fs').
Proof.
  intros _ _ Hdel.
  destruct (ensureDb_cases fs) as [db [fs1 [Hload [Hnf _]]]].
  rewrite (loaded_eq _ _ _ Hload).
  destruct (DELETE_cases trim toLowerCase body)
    as [[m [H|H]]|[k0 H]]; try (rewrite H in Hdel; discriminate).
  assert (Hafter : ensureDb fs' = (Resolved (delete k db), fs') /\ k0 = k).
  { rewrite (H _ _ _ Hload) in Hdel.
    destruct (db !! k0) as [stored|] eqn:Hk; injection Hdel as <- <-.
    - split; [|reflexivity]. apply ensureDb_written. now apply map_Forall_delete.
    - split; [|reflexivity]. rewrite delete_id by exact Hk.
      eapply ensureDb_stable, Hload. }
  destruct Hafter as [Hload' ->].
  rewrite (loaded_eq _ _ _ Hload').
  split; [reflexivity|]. split; [apply lookup_delete_eq|].
  rewrite (H _ _ _ Hload'), lookup_delete_eq. reflexivity.
Qed.

(** A [GET] lists the store key by key: the keys are pairwise distinct,
    the i-th place carries the i-th key, and the places listed are exactly
    the records of the loaded store.  (For a file without a record under
    ["__proto__"], where the store is the map of its own properties.) *)
Theorem GET_lists_keys_and_places (fs fs' : FileState)
    (keys : list string) (places : list DbPlace) :
  plainStore fs ->
  handle ReqGET fs = (Listing keys places, fs') ->
  keys = map key places
  /\ List.NoDup keys
  /\ (forall k p, loaded fs !! k = Some p <-> In p places /\ key p = k)
  /\ fs' = snd (ensureDb fs).
Proof.
  intros _ Hget.
  destruct (ensureDb_cases fs) as [db [fs1 [Hload [Hnf _]]]].
  rewrite (loaded_eq _ _ _ Hload), Hload.
  rewrite (GET_cases _ _ _ _ _ Hload) in Hget. injection Hget as <- <- <-.
  assert (Hkeys : forall kp, In kp (map_to_list db) -> key (snd kp) = fst kp).
  { intros [k p] Hin. apply list_elem_of_In, elem_of_map_to_list in Hin.
    apply (Hnf _ _ Hin). }
  split; [|split; [|split; [|reflexivity]]].
  - rewrite map_map. apply map_ext_in. intros kp Hin. symmetry. now apply Hkeys.
  - apply NoDup_ListNoDup, NoDup_fst_map_to_list.
  - intros k p. split.
    + intros Hk. split; [|apply (Hnf _ _ Hk)].
      apply in_map_iff. exists (k, p). split; [reflexivity|].
      now apply list_elem_of_In, elem_of_map_to_list.
    + intros [Hin <-]. apply in_map_iff in Hin as [[k' p'] [<- Hin]].
      rewrite (Hkeys _ Hin). now apply elem_of_map_to_list, list_elem_of_In.
Qed.

End Requests.


Lemma POST_inserts_once_witness :
  let id := fun s : string => s in
  let body := Some (VObj [("place", VObj [("name", VStr "Acme")])]%string) in
  exists k p fs',
    handle id id (ReqPOST body) NoFile = (PostOk k p, fs')
    /\ key p = k
    /\ handle id id (ReqPOST body) fs' = (PostOk k p, fs').
Proof.
  intros id body. eexists. eexists. eexists.
  split; [vm_compute; reflexivity|].
  edestruct (POST_inserts_once id id body NoFile) as [Hk [_ [_ [Hagain _]]]];
    [intros [] | vm_compute; reflexivity|].
  split; [exact Hk | exact Hagain].
Defined.

Lemma PATCH_changes_one_status_witness :
  let clean := Holds (VObj [("places",
                  VObj [("acme|", VObj [("name", VStr "Acme");
                                        ("callStatus", VStr "Interested")])])]%string) in
  let id := fun s : string => s in
  let body := Some (VObj [("key", VStr "acme|");
                          ("callStatus", VStr "Meeting planned")]%string) in
  exists p fs',
    handle id id (ReqPATCH body) clean = (PatchOk p, fs')
    /\ validStatus (callStatus p)
    /\ loaded fs' = <[key p := p]> (loaded clean).
Proof.
  intros clean id body. eexists. eexists.
  split; [vm_compute; reflexivity|].
  edestruct (PATCH_changes_one_status id id body clean) as [H _].
  - intros [Hin|[]]. discriminate.
  - intros json k [= <-] Hk. vm_compute in Hk. injection Hk as <-.
    vm_compute. intuition discriminate.
  - vm_compute. reflexivity.
  - idtac.
    edestruct H as [old [_ [_ [Hv Hl]]]]; [reflexivity|].
    split; [exact Hv | exact Hl].
Defined.

Lemma DELETE_removes_the_key_witness :
  let clean := Holds (VObj [("places",
                  VObj [("acme|", VObj [("name", VStr "Acme");
                                        ("callStatus", VStr "Interested")])])]%string) in
  let id := fun s : string => s in
  let body := Some (VObj [("key", VStr "acme|")]%string) in
  exists fs',
    handle id id (ReqDELETE body) clean = (DeleteOk "acme|", fs')
    /\ loaded fs' !! "acme|"%string = None.
Proof.
  intros clean id body. eexists.
  split; [vm_compute; reflexivity|].
  refine (proj1 (proj2
            (DELETE_removes_the_key id id body clean _ "acme|"%string _ _ _))).
  - intros [Hin|[]]. discriminate.
  - vm_compute. intuition discriminate.
  - vm_compute. reflexivity.
Defined.

Lemma GET_lists_keys_and_places_witness :
  let legacy := Holds (VObj [("places",
                  VObj [("acme|", VObj [("name", VStr "Acme");
                                        ("callStatus", VStr "Called twice")]);
                        ("bistro|", VObj [("name", VStr "Bistro")])])]%string) in
  let id := fun s : string => s in
  exists keys places fs',
    handle id id ReqGET legacy = (Listing keys places, fs')
    /\ keys = map key places
    /\ List.NoDup keys.
Proof.
  intros legacy id. eexists. eexists. eexists.
  split; [vm_compute; reflexivity|].
  edestruct (GET_lists_keys_and_places id id legacy) as [Hk [Hnd _]];
    [intros [Hin|[Hin|[]]]; discriminate | vm_compute; reflexivity|].
  split; [exact Hk | exact Hnd].
Defined.

(** What a save writes, a load reads back: the same store, and the file is
    not written again.  (For a store without a record under
    ["__proto__"].) *)
Theorem load_after_save (db : gmap string DbPlace) (fs : FileState) :
  map_Forall normalForm db ->
  db !! "__proto__"%string = None ->
  ensureDb (snd (saveDb db fs)) = (Resolved db, snd (saveDb db fs)).
Proof. intros Hdb _. now apply ensureDb_written. Qed.

Lemma load_after_save_witness :
  let p := mkPlace "acme|" (VStr "Acme") VNull VNull (VStr "none")
             (VStr "Interested") in
  let db : gmap string DbPlace := <["acme|"%string := p]> ∅ in
  ensureDb (snd (saveDb db NoFile)) = (Resolved db, snd (saveDb db NoFile)).
Proof.
  intros p db. apply (load_after_save db NoFile).
  - apply map_Forall_insert_2; [|apply map_Forall_empty].
    split; [reflexivity|]. split; [reflexivity|].
    split; [discriminate|]. split; [discriminate|]. split; [reflexivity|].
    exists "Interested"%string. split; [reflexivity|]. vm_compute. tauto.
  - reflexivity.
Defined.

(** [ensureDb] answers whatever the file holds, with a store in the form
    the route writes; a second load gives the same store and leaves the
    file as the first left it. *)
Theorem load_is_stable (fs : FileState) :
  exists db fs1,
    ensureDb fs = (Resolved db, fs1)
    /\ map_Forall normalForm db
    /\ ensureDb fs1 = (Resolved db, fs1).
Proof.
  destruct (ensureDb_cases fs) as [db [fs1 [Hload [Hnf _]]]].
  exists db, fs1. split; [exact Hload|]. split; [exact Hnf|].
  eapply ensureDb_stable, Hload.
Qed.

(** A file that is missing, does not parse or holds null is taken for an
    empty store and (re)written as one: a [GET] answers with an empty
    listing. *)
Theorem unreadable_store_starts_empty (trim toLowerCase : string -> string)
    (fs : FileState) :
  fs = NoFile \/ fs = Unparseable \/ (exists v, fs = Holds v /\ nullish v = true) ->
  handle trim toLowerCase ReqGET fs = (Listing [] [], Holds (dbToJson ∅))
  /\ storedRecords (Holds (dbToJson ∅)) = [].
Proof.
  intros Hfs. split; [|reflexivity].
  assert (Hload : ensureDb fs = (Resolved ∅, Holds (dbToJson ∅))).
  { destruct Hfs as [->|[->|[v [-> Hv]]]]; try reflexivity.
    unfold ensureDb, tryCatch, mbind, Fs_bind, fsBind, readJson, liftOutcome, member.
    rewrite Hv. reflexivity. }
  rewrite (GET_cases _ _ _ _ _ Hload). reflexivity.
Qed.

Lemma unreadable_store_starts_empty_witness :
  let id := fun s : string => s in
  handle id id ReqGET (Holds VNull) = (Listing [] [], Holds (dbToJson ∅)).
Proof.
  intros id.
  apply (unreadable_store_starts_empty id id (Holds VNull)).
  right. right. exists VNull. split; reflexivity.
Defined.

(** [sanitizeCallStatus] leaves exactly the statuses of the enumeration as
    they are, turns everything else into Not called, and applying it twice
    is applying it once. *)
Theorem sanitizeCallStatus_fixes_valid (v : JsValue) :
  (sanitizeCallStatus v = v <-> validStatus v)
  /\ (~ validStatus v -> sanitizeCallStatus v = VStr "Not called")
  /\ sanitizeCallStatus (sanitizeCallStatus v) = sanitizeCallStatus v.
Proof.
  split; [split|split].
  - intros H. rewrite <- H. apply sanitizeCallStatus_valid.
  - apply sanitize_valid_id.
  - intros Hv. unfold sanitizeCallStatus.
    destruct (isCallStatus v) eqn:H; [|reflexivity].
    apply isCallStatus_valid in H. contradiction.
  - apply sanitize_valid_id, sanitizeCallStatus_valid.
Qed.

End PlacesDbMore.

(** * Properties of the route on any numbers *)

Module FractionalFacts.
Import Fractional.

Lemma lessThan_spec (a b : Q) : lessThan a b = true <-> (a < b)%Q.
Proof. unfold lessThan, Qlt. apply Z.ltb_lt. Qed.

Lemma lessThan_false (a b : Q) : lessThan a b = false <-> (b <= a)%Q.
Proof. unfold lessThan, Qle. apply Z.ltb_ge. Qed.

Lemma Qnum_nonneg (q : Q) : 0 <= Qnum q <-> (0 <= q)%Q.
Proof. unfold Qle. cbn. lia. Qed.

(** Rounding towards zero is rounding down from 0 on and rounding up
    below 0. *)
Lemma truncate_cases (q : Q) :
  truncate q = if 0 <=? Qnum q then Qfloor q else Qceiling q.
Proof.
  destruct q as [n d]. unfold truncate, Qceiling, Qfloor. cbn [Qnum Qden Qopp].
  destruct (Z.leb_spec 0 n) as [Hn|Hn].
  - apply Z.quot_div_nonneg; lia.
  - rewrite <- (Z.opp_involutive n) at 1.
    rewrite Z.quot_opp_l by lia. f_equal. apply Z.quot_div_nonneg; lia.
Qed.

Lemma floor_le_ceiling (q : Q) : Qfloor q <= Qceiling q.
Proof.
  rewrite Zle_Qle. eapply Qle_trans; [apply Qfloor_le | apply Qle_ceiling].
Qed.

Lemma truncate_lower (n : Z) (q : Q) : (inject_Z n <= q)%Q -> n <= truncate q.
Proof.
  intros H. apply Qfloor_resp_le in H. rewrite Qfloor_Z in H.
  rewrite truncate_cases. pose proof (floor_le_ceiling q).
  destruct (0 <=? Qnum q); lia.
Qed.

Lemma truncate_upper (n : Z) (q : Q) : (q <= inject_Z n)%Q -> truncate q <= n.
Proof.
  intros H. apply Qceiling_resp_le in H. rewrite Qceiling_Z in H.
  rewrite truncate_cases. pose proof (floor_le_ceiling q).
  destruct (0 <=? Qnum q); lia.
Qed.

Lemma truncate_mono (p q : Q) : (p <= q)%Q -> truncate p <= truncate q.
Proof.
  intros H. rewrite !truncate_cases.
  destruct (Z.leb_spec 0 (Qnum q)) as [Hq|Hq];
    destruct (Z.leb_spec 0 (Qnum p)) as [Hp|Hp].
  - now apply Qfloor_resp_le.
  - assert (H1 : Qceiling p <= Qceiling (inject_Z 0)).
    { apply Qceiling_resp_le. unfold Qle. cbn. lia. }
    assert (H2 : Qfloor (inject_Z 0) <= Qfloor q).
    { apply Qfloor_resp_le. now apply Qnum_nonneg. }
    rewrite Qceiling_Z in H1. rewrite Qfloor_Z in H2. lia.
  - exfalso. apply Qnum_nonneg in Hp.
    assert (0 <= q)%Q by (eapply Qle_trans; eassumption).
    apply Qnum_nonneg in H0. lia.
  - now apply Qceiling_resp_le.
Qed.

Lemma truncate_inject (z : Z) : truncate (inject_Z z) = z.
Proof. unfold truncate. cbn. apply Z.quot_1_r. Qed.

Lemma addMinutes_lower (date s : Z) (minutes : Q) :
  (inject_Z s <= minutes * 60 * 1000)%Q -> date + s <= addMinutes date minutes.
Proof.
  intros H. apply truncate_lower. rewrite inject_Z_plus. lra.
Qed.

Lemma addMinutes_upper (date s : Z) (minutes : Q) :
  (minutes * 60 * 1000 <= inject_Z s)%Q -> addMinutes date minutes <= date + s.
Proof.
  intros H. apply truncate_upper. rewrite inject_Z_plus. lra.
Qed.

Lemma addMinutes_mono (d1 d2 : Z) (minutes : Q) :
  d1 <= d2 -> addMinutes d1 minutes <= addMinutes d2 minutes.
Proof.
  intros H. apply truncate_mono. rewrite Zle_Qle in H. lra.
Qed.

Lemma addMinutes_ge (date : Z) (minutes : Q) :
  (0 <= minutes)%Q -> date <= addMinutes date minutes.
Proof.
  intros H. rewrite <- (Z.add_0_r date) at 1. apply addMinutes_lower.
  change (inject_Z 0) with 0%Q. nra.
Qed.

(** Whole minutes are added exactly. *)
Lemma addMinutes_whole (date minutes : Z) :
  addMinutes date (inject_Z minutes) = date + minutes * 60 * 1000.
Proof.
  unfold addMinutes.
  replace (inject_Z date + inject_Z minutes * 60 * 1000)%Q
    with (inject_Z (date + minutes * 60 * 1000)).
  - apply truncate_inject.
  - unfold inject_Z, Qplus, Qmult. cbn. f_equal. lia.
Qed.

(** ** The resolver *)

Lemma clampNumber_range_frac (value : JsNumber) (min max fallback : Q) :
  (min <= max)%Q -> value <> NaN ->
  (min <= clampNumber value min max fallback <= max)%Q.
Proof.
  intros Hmm Hv. destruct value as [| |v|]; [contradiction| | |]; cbn.
  - split; [apply Q.min_glb; lra | apply Q.le_min_r].
  - split; [apply Q.min_glb; [apply Q.le_max_r | exact Hmm] | apply Q.le_min_r].
  - lra.
Qed.

Lemma jsOr_not_NaN_frac (a : JsNumber) (d : Q) : jsOr a (Num d) <> NaN.
Proof. unfold jsOr. destruct a; cbn; try discriminate. destruct (negb _); discriminate. Qed.

Lemma resolveParam_range_frac raw DEFAULT (min max : Q) :
  (min <= max)%Q -> (min <= resolveParam raw DEFAULT min max <= max)%Q.
Proof. intros H. apply clampNumber_range_frac; [exact H | apply jsOr_not_NaN_frac]. Qed.

Lemma resolveConfig_in_range_frac env q : ConfigInRange (resolveConfig env q).
Proof.
  split; cbn; apply resolveParam_range_frac; unfold Qle; cbn; lia.
Qed.

Lemma slotCount_snoc_frac (slots : list Slot) (x : Slot) :
  slotCount (slots ++ [x]) = slotCount slots + 1.
Proof. unfold slotCount. rewrite length_app. cbn. lia. Qed.

Lemma below_ceiling (n : Z) (x : Q) : (inject_Z n < x)%Q -> n < Qceiling x.
Proof.
  intros H. rewrite Zlt_Qlt. eapply Qlt_le_trans; [exact H | apply Qle_ceiling].
Qed.

Section ScanDay.
Variables (now : Z) (cfg : Config) (workEnd : Z) (bucket : list BusyInterval).

Local Abbreviation earliest := (earliestAllowedStart now cfg).
Local Abbreviation next c := (addMinutes c (slotMinutes cfg)).
Local Abbreviation fits c := (addMinutes c (durationMinutes cfg) <= workEnd).
Local Abbreviation free c :=
  (overlaps c (addMinutes c (durationMinutes cfg)) bucket = false).
Local Abbreviation scan := (scanDay now cfg).
Local Abbreviation room slots :=
  (inject_Z (slotCount slots) < slotLimit cfg)%Q.

(** Induction along the turns of the loop: it leaves at once, it breaks,
    it moves on without a slot, or it moves on with one. *)
Lemma scanDay_elim_frac (P : Z -> list Slot -> list Slot -> Prop) :
  (forall cursor slots,
      ~ (cursor < workEnd /\ room slots) -> P cursor slots slots) ->
  (forall cursor slots,
      cursor < workEnd -> room slots -> ~ fits cursor -> P cursor slots slots) ->
  (forall cursor slots r,
      cursor < workEnd -> room slots -> fits cursor ->
      cursor < earliest \/ ~ free cursor ->
      P (next cursor) slots r -> P cursor slots r) ->
  (forall cursor slots r,
      cursor < workEnd -> room slots -> fits cursor ->
      earliest <= cursor -> free cursor ->
      P (next cursor) (slots ++ [slotAt cfg cursor]) r -> P cursor slots r) ->
  forall fuel cursor slots r,
    scan fuel workEnd bucket cursor slots = Some r -> P cursor slots r.
Proof.
  intros Hexit Hbreak Hskip Htake.
  induction fuel as [|fuel IH]; intros cursor slots r; simpl; [discriminate|].
  destruct (Z.ltb_spec cursor workEnd) as [Hc|Hc]; simpl.
  2:{ intros [= <-]. apply Hexit. lia. }
  destruct (lessThan (inject_Z (slotCount slots)) (slotLimit cfg)) eqn:Hn; simpl.
  2:{ intros [= <-]. apply Hexit. intros [_ H]. apply lessThan_spec in H. congruence. }
  apply lessThan_spec in Hn.
  destruct (Z.gtb_spec (addMinutes cursor (durationMinutes cfg)) workEnd) as [Hf|Hf].
  { intros [= <-]. apply Hbreak; auto. lia. }
  destruct (Z.ltb_spec cursor earliest) as [He|He].
  { intros Hr. apply Hskip; auto. }
  destruct (overlaps cursor _ bucket) eqn:Hov.
  { intros Hr. apply Hskip; auto. right. congruence. }
  intros Hr. apply Htake; auto.
Qed.

Lemma scanDay_prefix_frac fuel cursor slots r :
  scan fuel workEnd bucket cursor slots = Some r -> slots `prefix_of` r.
Proof.
  revert fuel cursor slots r.
  apply (scanDay_elim_frac (fun cursor slots r => slots `prefix_of` r)); auto.
  intros cursor slots r _ _ _ _ _ H. eapply prefix_app_l, H.
Qed.

(** A slot is added only while the count is below the limit, so the count
    never passes the limit rounded up. *)
Lemma scanDay_count_frac fuel cursor slots r :
  scan fuel workEnd bucket cursor slots = Some r ->
  slotCount slots <= Qceiling (slotLimit cfg) ->
  slotCount r <= Qceiling (slotLimit cfg).
Proof.
  revert fuel cursor slots r.
  apply (scanDay_elim_frac (fun cursor slots r =>
    slotCount slots <= Qceiling (slotLimit cfg) ->
    slotCount r <= Qceiling (slotLimit cfg))); auto.
  intros cursor slots r _ Hn _ _ _ IH _. apply IH.
  rewrite slotCount_snoc_frac. apply below_ceiling in Hn. lia.
Qed.

Lemma iter_next_ge k cursor :
  (0 <= slotMinutes cfg)%Q ->
  cursor <= Nat.iter k (fun c => next c) cursor.
Proof.
  intros Hstep. induction k as [|k IH]; [reflexivity|].
  cbn [Nat.iter]. etransitivity; [exact IH | now apply addMinutes_ge].
Qed.

(** A walk that ends below the limit has taken every acceptable position
    from [cursor] on. *)
Lemma scanDay_complete_frac fuel cursor slots r :
  scan fuel workEnd bucket cursor slots = Some r ->
  (0 <= slotMinutes cfg)%Q ->
  slots `prefix_of` r
  /\ (room r ->
      forall k,
        let c := Nat.iter k (fun c => next c) cursor in
        c < workEnd -> fits c -> earliest <= c -> free c ->
        In (slotAt cfg c) r).
Proof.
  intros Hr Hstep. revert fuel cursor slots r Hr.
  apply (scanDay_elim_frac (fun cursor slots r =>
    slots `prefix_of` r
    /\ (room r ->
        forall k,
          let c := Nat.iter k (fun c => next c) cursor in
          c < workEnd -> fits c -> earliest <= c -> free c ->
          In (slotAt cfg c) r))).
  - intros cursor slots Hexit. split; [reflexivity|].
    intros Hn k c Hc. exfalso. apply Hexit. split; [|exact Hn].
    pose proof (iter_next_ge k cursor Hstep). subst c. lia.
  - intros cursor slots _ _ Hfit. split; [reflexivity|].
    intros Hn k c _ Hfc. exfalso. apply Hfit.
    pose proof (iter_next_ge k cursor Hstep) as Hge.
    apply (addMinutes_mono _ _ (durationMinutes cfg)) in Hge. subst c. lia.
  - intros cursor slots r _ _ _ Hrej [IHp IH]. split; [assumption|].
    intros Hn k c Hc Hfc Hec Hov. destruct k as [|k].
    + subst c. cbn in *. destruct Hrej; [lia | contradiction].
    + subst c. rewrite Nat.iter_succ_r in *. now apply IH.
  - intros cursor slots r _ _ _ _ _ [IHp IH]. split; [eapply prefix_app_l, IHp|].
    intros Hn k c Hc Hfc Hec Hov. destruct k as [|k].
    + subst c. cbn [Nat.iter].
      apply list_elem_of_In. eapply elem_of_prefix; [|exact IHp].
      apply elem_of_app. right. apply list_elem_of_here.
    + subst c. rewrite Nat.iter_succ_r in *. now apply IH.
Qed.

(** What is left of the day at [cursor], in turns of the inner loop. *)
Local Abbreviation stride := (Qfloor (slotMinutes cfg * 60 * 1000)).
Local Abbreviation turnsLeft cursor :=
  (Z.to_nat ((workEnd - cursor + stride - 1) / stride)).

Lemma stride_positive : (5 <= slotMinutes cfg)%Q -> 300000 <= stride.
Proof.
  intros H. change 300000 with (Qfloor (inject_Z 300000)).
  apply Qfloor_resp_le. change (inject_Z 300000) with 300000%Q. lra.
Qed.

Lemma next_stride cursor : cursor + stride <= next cursor.
Proof. apply addMinutes_lower, Qfloor_le. Qed.

Lemma turnsLeft_next_frac cursor :
  0 < stride -> cursor < workEnd ->
  (turnsLeft (next cursor) < turnsLeft cursor)%nat.
Proof.
  intros Hpos Hc. pose proof (next_stride cursor) as Hnext.
  assert (H1 : (workEnd - next cursor + stride - 1) / stride
               <= (workEnd - cursor + stride - 1 + (-1) * stride) / stride)
    by (apply Z.div_le_mono; lia).
  rewrite Z.div_add in H1 by lia.
  assert (1 <= (workEnd - cursor + stride - 1) / stride)
    by (apply Z.div_le_lower_bound; lia).
  lia.
Qed.

(** With a positive step the loop leaves within [turnsLeft] turns and
    one. *)
Lemma scanDay_total_frac fuel cursor slots :
  0 < stride ->
  (turnsLeft cursor < fuel)%nat ->
  exists r, scan fuel workEnd bucket cursor slots = Some r.
Proof.
  intros Hstep. revert cursor slots.
  induction fuel as [|fuel IH]; intros cursor slots Hfuel; [lia|]. simpl.
  destruct (Z.ltb_spec cursor workEnd) as [Hc|Hc]; simpl; [|eauto].
  destruct (lessThan _ _); simpl; [|eauto].
  pose proof (turnsLeft_next_frac cursor Hstep Hc) as Hnext.
  destruct (_ >? workEnd); [eauto|].
  destruct (cursor <? earliest); [apply IH; lia|].
  destruct (overlaps _ _ _); apply IH; lia.
Qed.

Lemma scanFuel_enough_frac workStart :
  0 < stride ->
  (turnsLeft workStart < scanFuel cfg workStart workEnd)%nat.
Proof.
  intros Hpos. unfold scanFuel.
  assert ((workEnd - workStart + stride - 1) / stride
          <= (workEnd - workStart) / stride + 1).
  { rewrite <- (Z.div_add _ 1 stride) by lia. apply Z.div_le_mono; lia. }
  lia.
Qed.

End ScanDay.

Section DayLoop.
Variables (tz now : Z) (cfg : Config).
Variable byDay : gmap string (list BusyInterval).

Local Abbreviation earliest := (earliestAllowedStart now cfg).
Local Abbreviation workStart d := (workStartOf tz now cfg d).
Local Abbreviation workEnd d := (workEndOf tz now cfg d).
Local Abbreviation dayEnd d := (dayEndOf tz now d).
Local Abbreviation bucket d := (bucketOf tz now byDay d).
Local Abbreviation loop := (dayLoop tz now cfg byDay).
Local Abbreviation scanOf d slots :=
  (scanDay now cfg (scanFuel cfg (workStart d) (workEnd d)) (workEnd d)
     (bucket d) (workStart d) slots).
Local Abbreviation room slots :=
  (inject_Z (slotCount slots) < slotLimit cfg)%Q.
Local Abbreviation inHorizon d := (inject_Z d < horizonDays cfg)%Q.

(** Induction along the days: the loop leaves, it skips a day, or it scans
    one. *)
Lemma dayLoop_elim_frac (P : Z -> list Slot -> list Slot -> Prop) :
  (forall d slots, ~ (inHorizon d /\ room slots) -> P d slots slots) ->
  (forall d slots r,
      inHorizon d -> room slots ->
      workEnd d <= earliest -> dayEnd d <= earliest ->
      P (d + 1) slots r -> P d slots r) ->
  (forall d slots slots' r,
      inHorizon d -> room slots ->
      ~ (workEnd d <= earliest /\ dayEnd d <= earliest) ->
      scanOf d slots = Some slots' ->
      P (d + 1) slots' r -> P d slots r) ->
  forall fuel d slots r, loop fuel d slots = Some r -> P d slots r.
Proof.
  intros Hexit Hskip Hscan.
  induction fuel as [|fuel IH]; intros d slots r; simpl; [discriminate|].
  destruct (lessThan (inject_Z d) (horizonDays cfg)) eqn:Hd; simpl.
  2:{ intros [= <-]. apply Hexit. intros [H _]. apply lessThan_spec in H. congruence. }
  destruct (lessThan (inject_Z (slotCount slots)) (slotLimit cfg)) eqn:Hn; simpl.
  2:{ intros [= <-]. apply Hexit. intros [_ H]. apply lessThan_spec in H. congruence. }
  apply lessThan_spec in Hd, Hn.
  destruct (Z.leb_spec (workEnd d) earliest) as [Hw|Hw]; simpl.
  - destruct (Z.leb_spec (dayEnd d) earliest) as [He|He].
    + intros Hr. apply Hskip; auto.
    + destruct (scanOf d slots) as [slots'|] eqn:Hs; [|discriminate].
      intros Hr. eapply Hscan; eauto. lia.
  - destruct (scanOf d slots) as [slots'|] eqn:Hs; [|discriminate].
    intros Hr. eapply Hscan; eauto. lia.
Qed.

Lemma dayLoop_count_frac fuel d slots r :
  loop fuel d slots = Some r ->
  slotCount slots <= Qceiling (slotLimit cfg) ->
  slotCount r <= Qceiling (slotLimit cfg).
Proof.
  revert fuel d slots r.
  apply (dayLoop_elim_frac (fun d slots r =>
    slotCount slots <= Qceiling (slotLimit cfg) ->
    slotCount r <= Qceiling (slotLimit cfg))); auto.
  intros d slots slots' r _ _ _ Hs IH Hn.
  apply IH. eapply scanDay_count_frac; eassumption.
Qed.

(** A walk that ends below the limit has taken every acceptable position
    of every day from [d] to the end of the horizon. *)
Lemma dayLoop_complete_frac fuel d slots r :
  loop fuel d slots = Some r ->
  (0 <= slotMinutes cfg)%Q ->
  slots `prefix_of` r
  /\ (room r ->
      forall d' k, d <= d' -> inHorizon d' ->
        acceptable tz now cfg byDay d' k ->
        In (slotAt cfg (cursorAt tz now cfg d' k)) r).
Proof.
  intros Hr Hstep. revert fuel d slots r Hr.
  apply (dayLoop_elim_frac (fun d slots r =>
    slots `prefix_of` r
    /\ (room r ->
        forall d' k, d <= d' -> inHorizon d' ->
          acceptable tz now cfg byDay d' k ->
          In (slotAt cfg (cursorAt tz now cfg d' k)) r))).
  - intros d slots Hexit. split; [reflexivity|].
    intros Hn d' k Hd' Hh. exfalso. apply Hexit. split; [|exact Hn].
    rewrite Zle_Qle in Hd'. lra.
  - intros d slots r _ _ Hw _ [IHp IH]. split; [assumption|].
    intros Hn d' k Hd' Hh Hacc.
    destruct (Z.eq_dec d' d) as [->|Hne]; [|apply IH; auto; lia].
    destruct Hacc as [H1 [_ [H3 _]]]. lia.
  - intros d slots slots' r _ _ _ Hs [IHp IH]. split.
    + etransitivity; [eapply scanDay_prefix_frac; eassumption | assumption].
    + intros Hn d' k Hd' Hh Hacc.
      destruct (Z.eq_dec d' d) as [->|Hne]; [|apply IH; auto; lia].
      destruct Hacc as [H1 [H2 [H3 H4]]].
      apply list_elem_of_In. eapply elem_of_prefix; [|exact IHp].
      apply list_elem_of_In.
      apply (scanDay_complete_frac _ _ _ _ _ _ _ _ Hs Hstep); auto.
      apply prefix_length in IHp. unfold slotCount in *.
      eapply Qle_lt_trans; [|exact Hn]. rewrite <- Zle_Qle. lia.
Qed.

Lemma dayLoop_total_frac fuel d slots :
  0 < Qfloor (slotMinutes cfg * 60 * 1000) ->
  (Z.to_nat (Qceiling (horizonDays cfg) - d) < fuel)%nat ->
  exists r, loop fuel d slots = Some r.
Proof.
  intros Hstep. revert d slots.
  induction fuel as [|fuel IH]; intros d slots Hfuel; [lia|]. simpl.
  destruct (lessThan (inject_Z d) (horizonDays cfg)) eqn:Hd; simpl; [|eauto].
  apply lessThan_spec, below_ceiling in Hd.
  destruct (lessThan _ _); simpl; [|eauto].
  destruct (_ && _); [apply IH; lia|].
  destruct (scanDay_total_frac now cfg (workEnd d) (bucket d)
              (scanFuel cfg (workStart d) (workEnd d)) (workStart d) slots Hstep)
    as [slots' ->]; [now apply scanFuel_enough_frac|].
  apply IH. lia.
Qed.

End DayLoop.

(** The generator always leaves its loops. *)
Lemma generateSlots_total_frac tz now cfg intervals :
  ConfigInRange cfg ->
  exists slots, generateSlots tz now cfg intervals = Some slots.
Proof.
  intros [_ [Hstep _] _ _ _]. unfold generateSlots. apply dayLoop_total_frac.
  - pose proof (stride_positive cfg Hstep). lia.
  - unfold dayFuel. lia.
Qed.

(** The payload of a successful response. *)
Lemma GET_ok_inv_frac env q now w body t :
  run w (GET env q now) = (Some (JsonOk body), t) ->
  exists intervals sl,
    busyIntervalsOf w = Resolved intervals
    /\ generateSlots (tzOffset env) now (resolveConfig env q) intervals = Some sl
    /\ body = {| generatedAt := now;
                 r_horizonDays := horizonDays (resolveConfig env q);
                 r_slotMinutes := slotMinutes (resolveConfig env q);
                 r_durationMinutes := durationMinutes (resolveConfig env q);
                 slots := sl |}.
Proof.
  unfold GET, busyIntervalsOf. destruct (_ <=? _); [intros [=]|].
  unfold mbind, Prog_bind. rewrite run_bind.
  destruct (fst (run w buildBusyIntervals)) as [intervals|err]; [|intros [=]].
  destruct (generateSlots _ _ _ _) as [sl|] eqn:Hg; [|intros [=]].
  cbn. intros H. injection H as H _. exists intervals, sl.
  split; [reflexivity|]. split; [exact Hg | now rewrite <- H].
Qed.

(** Every request is answered. *)
Lemma GET_responds_frac env q now w :
  exists resp t, run w (GET env q now) = (Some resp, t).
Proof.
  unfold GET. destruct (_ <=? _); [cbn; eauto|].
  unfold mbind, Prog_bind. rewrite run_bind.
  destruct (fst (run w buildBusyIntervals)) as [intervals|err]; [|cbn; eauto].
  destruct (generateSlots_total_frac (tzOffset env) now (resolveConfig env q) intervals
              (resolveConfig_in_range_frac env q)) as [sl ->].
  cbn. eauto.
Qed.

Lemma whole_ceiling (x : Q) : whole x -> (inject_Z (Qceiling x) == x)%Q.
Proof.
  unfold whole. intros H. rewrite H at 1. rewrite Qceiling_Z. symmetry. exact H.
Qed.

(** C9, as the route keeps it.  The list is never longer than the resolved
    slotLimit rounded up to a whole number, so never longer than a
    slotLimit that is a whole number; and when it is shorter than
    slotLimit the whole horizon has been walked: every candidate of every
    day of the horizon that fits the work window, respects the lead time
    and is free of the day's bucket is in the list. *)
Theorem slots_within_limit (env : ProcessEnv) (q : Query) (now : Z)
    (w : World) (body : Availability) (t : list Event) :
  run w (GET env q now) = (Some (JsonOk body), t) ->
  let cfg := resolveConfig env q in
  let tz := tzOffset env in
  exists intervals,
    busyIntervalsOf w = Resolved intervals
    /\ slotCount (slots body) <= Qceiling (slotLimit cfg)
    /\ (whole (slotLimit cfg) ->
        (inject_Z (slotCount (slots body)) <= slotLimit cfg)%Q)
    /\ ((inject_Z (slotCount (slots body)) < slotLimit cfg)%Q ->
        forall d k, 0 <= d -> (inject_Z d < horizonDays cfg)%Q ->
          acceptable tz now cfg (indexByDay tz intervals) d k ->
          In (slotAt cfg (cursorAt tz now cfg d k)) (slots body)).
Proof.
  intros Hrun cfg tz. subst cfg tz.
  destruct (GET_ok_inv_frac _ _ _ _ _ _ Hrun) as [intervals [sl [Hw [Hgen ->]]]].
  exists intervals. split; [exact Hw|]. cbn [slots].
  destruct (resolveConfig_in_range_frac env q) as [_ [Hstep _] _ [Hlimit _] _].
  unfold generateSlots in Hgen.
  assert (Hcount : slotCount sl <= Qceiling (slotLimit (resolveConfig env q))).
  { eapply dayLoop_count_frac; [exact Hgen|]. change (slotCount []) with 0.
    change 0 with (Qceiling (inject_Z 0)). apply Qceiling_resp_le.
    change (inject_Z 0) with 0%Q. lra. }
  split; [exact Hcount|]. split.
  - intros Hwhole. rewrite <- (whole_ceiling _ Hwhole). now rewrite <- Zle_Qle.
  - eapply dayLoop_complete_frac in Hgen as [_ H]; [exact H | lra].
Qed.

Lemma slots_within_limit_witness :
  let w := mkWorld (Resolved []) (fun _ => Resolved []) in
  let q := mkQuery (Present (Num 240)) (Present (Num 120)) (Present (Num 1))
             (Present (Num (5 # 2))) Absent in
  let q' := mkQuery (Present (Num 240)) (Present (Num (241 # 2))) (Present (Num 1))
              Absent Absent in
  let cfg' := resolveConfig (plainEnv 0) q' in
  (exists body t,
     run w (GET (plainEnv 0) q 1709276400000) = (Some (JsonOk body), t)
     /\ slotCount (slots body) <= 3)
  /\ exists body t,
       run w (GET (plainEnv 0) q' 1709276400000) = (Some (JsonOk body), t)
       /\ In (slotAt cfg' (cursorAt 0 1709276400000 cfg' 0 2)) (slots body).
Proof.
  intros w q q' cfg'. split.
  - eexists. eexists. split; [vm_compute; reflexivity|].
    edestruct (slots_within_limit (plainEnv 0) q 1709276400000 w)
      as [intervals [_ [Hle _]]]; [vm_compute; reflexivity|].
    exact Hle.
  - eexists. eexists. split; [vm_compute; reflexivity|].
    edestruct (slots_within_limit (plainEnv 0) q' 1709276400000 w)
      as [intervals [Hw [_ [_ Hall]]]]; [vm_compute; reflexivity|].
    apply Hall.
    + vm_compute. reflexivity.
    + lia.
    + vm_compute. reflexivity.
    + injection Hw as <-. vm_compute. repeat split; easy.
Defined.

(** C9 as stated fails for a limit that is no whole number: with
    [limit=1.5] the resolved slotLimit is 1.5, both tests
    [slots.length < slotLimit] pass at lengths 0 and 1, and two slots are
    returned. *)
Lemma fractional_limit_exceeded :
  let w := mkWorld (Resolved []) (fun _ => Resolved []) in
  let q := mkQuery Absent Absent Absent (Present (Num (3 # 2))) Absent in
  exists body t,
    run w (GET (plainEnv 0) q 1709276400000) = (Some (JsonOk body), t)
    /\ slotLimit (resolveConfig (plainEnv 0) q) = 3 # 2
    /\ length (slots body) = 2%nat
    /\ ~ (inject_Z (slotCount (slots body))
          <= slotLimit (resolveConfig (plainEnv 0) q))%Q.
Proof.
  intros w q. eexists. eexists.
  split; [vm_compute; reflexivity|].
  split; [vm_compute; reflexivity|].
  split; [vm_compute; reflexivity|].
  vm_compute. intros H. apply H. reflexivity.
Qed.

End FractionalFacts.

(** ** On whole numbers the two embeddings agree *)

Lemma Qmax_inject (a b : Z) : Qmax (inject_Z a) (inject_Z b) = inject_Z (Z.max a b).
Proof.
  unfold Qmax, GenericMinMax.gmax, Z.max, Qcompare. cbn [Qnum Qden inject_Z].
  rewrite !Z.mul_1_r. now destruct (a ?= b).
Qed.

Lemma Qmin_inject (a b : Z) : Qmin (inject_Z a) (inject_Z b) = inject_Z (Z.min a b).
Proof.
  unfold Qmin, GenericMinMax.gmin, Z.min, Qcompare. cbn [Qnum Qden inject_Z].
  rewrite !Z.mul_1_r. now destruct (a ?= b).
Qed.

Lemma lessThan_inject (a b : Z) :
  Fractional.lessThan (inject_Z a) (inject_Z b) = (a <? b).
Proof. unfold Fractional.lessThan. cbn. now rewrite !Z.mul_1_r. Qed.

Lemma truthy_ofNumber (n : JsNumber) : Fractional.truthy (ofNumber n) = truthy n.
Proof.
  destruct n as [| |z|]; try reflexivity. cbn. f_equal.
  unfold Qeq_bool. cbn. now rewrite Z.mul_1_r.
Qed.

Lemma resolveParam_ofParam (raw : RawParam) (DEFAULT min max : Z) :
  Fractional.resolveParam (ofParam raw) DEFAULT (inject_Z min) (inject_Z max)
  = inject_Z (resolveParam raw DEFAULT min max).
Proof.
  unfold Fractional.resolveParam, resolveParam, Fractional.jsOr, jsOr.
  replace (Fractional.toNumber (ofParam raw)) with (ofNumber (toNumber raw))
    by now destruct raw.
  rewrite truthy_ofNumber. destruct (truthy (toNumber raw)).
  - destruct (toNumber raw) as [| |z|]; cbn; try reflexivity.
    + apply Qmin_inject.
    + now rewrite Qmax_inject, Qmin_inject.
  - cbn. now rewrite Qmax_inject, Qmin_inject.
Qed.

Lemma resolveConfig_ofQuery (env : ProcessEnv) (q : Query) :
  Fractional.resolveConfig env (ofQuery q) = ofConfig (resolveConfig env q).
Proof.
  unfold Fractional.resolveConfig, resolveConfig, ofConfig. cbn.
  f_equal; apply resolveParam_ofParam.
Qed.

Lemma addMinutes_ofConfig (date minutes : Z) :
  Fractional.addMinutes date (inject_Z minutes) = addMinutes date minutes.
Proof. apply FractionalFacts.addMinutes_whole. Qed.

Lemma slotCount_ofSlot (slots : list Slot) :
  Fractional.slotCount (map ofSlot slots) = slotCount slots.
Proof. unfold Fractional.slotCount, slotCount. now rewrite length_map. Qed.

Section Agreement.
Variables (tz now : Z) (cfg : Config).
Variable byDay : gmap string (list BusyInterval).

Lemma scanDay_agree fuel workEnd bucket : forall cursor slots,
  Fractional.scanDay now (ofConfig cfg) fuel workEnd bucket cursor (map ofSlot slots)
  = option_map (map ofSlot) (scanDay now cfg fuel workEnd bucket cursor slots).
Proof.
  induction fuel as [|fuel IH]; intros cursor slots; [reflexivity|].
  cbn [Fractional.scanDay scanDay].
  cbn [ofConfig Fractional.slotLimit Fractional.durationMinutes
         Fractional.slotMinutes].
  unfold Fractional.earliestAllowedStart, earliestAllowedStart.
  cbn [ofConfig Fractional.minLeadMinutes].
  rewrite slotCount_ofSlot, lessThan_inject, !addMinutes_ofConfig.
  destruct (_ && _); [|reflexivity].
  destruct (_ >? _); [reflexivity|].
  destruct (_ <? _); [apply IH|].
  destruct (overlaps _ _ _); [apply IH|].
  rewrite <- IH, map_app. reflexivity.
Qed.

Lemma scanFuel_agree workStart workEnd :
  Fractional.scanFuel (ofConfig cfg) workStart workEnd
  = scanFuel cfg workStart workEnd.
Proof.
  unfold Fractional.scanFuel, scanFuel. cbn [ofConfig Fractional.slotMinutes].
  do 3 f_equal. unfold Qfloor, Qmult, inject_Z. cbn [Qnum Qden].
  change (Z.pos (1 * 1 * 1)) with 1. apply Z.div_1_r.
Qed.

Lemma dayLoop_agree fuel : forall d slots,
  Fractional.dayLoop tz now (ofConfig cfg) byDay fuel d (map ofSlot slots)
  = option_map (map ofSlot) (dayLoop tz now cfg byDay fuel d slots).
Proof.
  induction fuel as [|fuel IH]; intros d slots; [reflexivity|].
  cbn [Fractional.dayLoop dayLoop].
  cbn [ofConfig Fractional.slotLimit Fractional.horizonDays].
  rewrite slotCount_ofSlot, !lessThan_inject.
  destruct (_ && _); [|reflexivity].
  change (Fractional.workEndOf tz now (ofConfig cfg) d) with (workEndOf tz now cfg d).
  change (Fractional.workStartOf tz now (ofConfig cfg) d) with (workStartOf tz now cfg d).
  change (Fractional.dayEndOf tz now d) with (dayEndOf tz now d).
  change (Fractional.bucketOf tz now byDay d) with (bucketOf tz now byDay d).
  unfold Fractional.earliestAllowedStart, earliestAllowedStart.
  cbn [ofConfig Fractional.minLeadMinutes]. rewrite addMinutes_ofConfig.
  destruct (_ && _); [apply IH|].
  rewrite scanFuel_agree, scanDay_agree.
  destruct (scanDay _ _ _ _ _ _ _); [apply IH | reflexivity].
Qed.

End Agreement.

Lemma generateSlots_agree tz now cfg intervals :
  Fractional.generateSlots tz now (ofConfig cfg) intervals
  = option_map (map ofSlot) (generateSlots tz now cfg intervals).
Proof.
  unfold Fractional.generateSlots, generateSlots.
  replace (Fractional.dayFuel (ofConfig cfg)) with (dayFuel cfg).
  - apply (dayLoop_agree tz now cfg _ _ 0 []).
  - unfold Fractional.dayFuel, dayFuel. cbn [ofConfig Fractional.horizonDays].
    now rewrite Qceiling_Z.
Qed.

(** A request whose query values are whole numbers is answered by the
    route on any numbers as by the route on whole numbers: the same
    response and the same calls and console lines. *)
Theorem whole_numbers_agree (env : ProcessEnv) (q : Query) (now : Z) (w : World) :
  run w (Fractional.GET env (ofQuery q) now)
  = (option_map ofResponse (fst (run w (GET env q now))),
     snd (run w (GET env q now))).
Proof.
  unfold Fractional.GET, GET. rewrite resolveConfig_ofQuery.
  cbn [ofConfig Fractional.workEndHour Fractional.workStartHour].
  destruct (_ <=? _); [reflexivity|].
  unfold mbind, Prog_bind. rewrite !run_bind. cbn [fst snd].
  destruct (fst (run w buildBusyIntervals)) as [intervals|err]; [|reflexivity].
  rewrite generateSlots_agree.
  destruct (generateSlots _ _ _ _) as [sl|]; reflexivity.
Qed.
